(** * chees_online: rule engine, ability-card registry and local session

    A shallow embedding of the client-side chess engine of the repository
    (class [ChessGame], revisions v2.5 and v2.7) together with the
    properties its specification states about it.

    Conventions.
    - A square is the pair [(x, y)] the code uses for [board[x][y]]:
      [x] is the file, [y] the rank index, [y = 0] being Black's back rank.
    - Piece objects are JavaScript objects shared by reference between the
      board, [pendingPromotion] and local variables.  They live in a heap
      of locations; a board cell holds a location.  [null], [undefined]
      and an absent property are all the missing key of a finite map.
    - A JavaScript array extended by [push] is a list extended at its end.
*)

From stdpp Require Import base option list gmap strings pretty.
From Stdlib Require Import ZArith Lia Ascii.

Local Open Scope Z_scope.

(** ** Data model *)

Inductive Color := White | Black.

Inductive PieceType := Pawn | Rook | Knight | Bishop | Queen | King.

#[global] Instance Color_eq_dec : EqDecision Color.
Proof. solve_decision. Defined.

#[global] Instance PieceType_eq_dec : EqDecision PieceType.
Proof. solve_decision. Defined.

Definition PieceType_to_pos (t : PieceType) : positive :=
  match t with
  | Pawn => 1 | Rook => 2 | Knight => 3 | Bishop => 4 | Queen => 5 | King => 6
  end%positive.

Definition PieceType_of_pos (p : positive) : option PieceType :=
  match p with
  | 1 => Some Pawn | 2 => Some Rook | 3 => Some Knight
  | 4 => Some Bishop | 5 => Some Queen | 6 => Some King
  | _ => None
  end%positive.

#[global] Program Instance PieceType_countable : Countable PieceType :=
  {| encode := PieceType_to_pos; decode := PieceType_of_pos |}.
Next Obligation. by intros []. Qed.

(** [{ color, type, moved }] *)
Record Piece := mkPiece { color : Color; type : PieceType; moved : bool }.

#[global] Instance Piece_eq_dec : EqDecision Piece.
Proof. solve_decision. Defined.

Abbreviation Square := (Z * Z)%type.
Abbreviation Offset := (Z * Z)%type.
Abbreviation loc := positive.
Abbreviation Heap := (gmap positive Piece).
Abbreviation Board := (gmap (Z * Z) positive).

(** [color === 'white' ? 'black' : 'white'] *)
Definition otherColor (c : Color) : Color :=
  match c with White => Black | Black => White end.

(** A reference held by the program always denotes an object, so reading
    through a location is total; the default below is never observed. *)
#[global] Instance Piece_inhabited : Inhabited Piece :=
  populate (mkPiece White Pawn false).

(** [this.board[x][y]], dereferenced. *)
Definition getCell (h : Heap) (b : Board) (x y : Z) : option Piece :=
  (λ l, h !!! l) <$> b !! (x, y).

(** [this.board[x][y] = v] where [v] is a piece reference or [null]. *)
Definition setCell (sq : Square) (v : option loc) (b : Board) : Board :=
  match v with
  | Some l => <[sq := l]> b
  | None => delete sq b
  end.

(** The piece values seen through the board, cell by cell. *)
Definition cells (h : Heap) (b : Board) : gmap (Z * Z) Piece :=
  (λ l, h !!! l) <$> b.

(** [nx < 0 || nx > 7 || ny < 0 || ny > 7], negated. *)
Definition onBoard (nx ny : Z) : bool :=
  negb ((nx <? 0) || (nx >? 7) || (ny <? 0) || (ny >? 7)).

(** [arr.some(m => m[0] === x && m[1] === y)] *)
Definition hasSquare (sq : Square) (l : list Square) : bool :=
  existsb (λ m, (m.1 =? sq.1) && (m.2 =? sq.2)) l.

(** The two [for] loops [x = 0..7], [y = 0..7], [x] outermost. *)
Definition allSquares : list Square :=
  x ← seqZ 0 8; y ← seqZ 0 8; [(x, y)].

(** ** Rule engine *)

Definition rookDirs : list Offset := [(0,1); (0,-1); (1,0); (-1,0)].
Definition bishopDirs : list Offset := [(1,1); (1,-1); (-1,1); (-1,-1)].
Definition queenDirs : list Offset :=
  [(0,1); (0,-1); (1,0); (-1,0); (1,1); (1,-1); (-1,1); (-1,-1)].
Definition knightJumps : list Offset :=
  [(-2,-1); (-2,1); (-1,-2); (-1,2); (1,-2); (1,2); (2,-1); (2,1)].
Definition kingSteps : list Offset :=
  [(0,1); (0,-1); (1,0); (-1,0); (1,1); (1,-1); (-1,1); (-1,-1)].

(** The closure [addMove]; the accumulator is the pair of arrays it pushes
    to, the boolean is its return value.  [calculateValidMoves] and
    [getPieceMoves] each declare the same closure. *)
Definition addMove (h : Heap) (b : Board) (piece : Piece) (nx ny : Z)
    (acc : list Square * list Square) : bool * (list Square * list Square) :=
  if negb (onBoard nx ny) then (false, acc)
  else match getCell h b nx ny with
       | None => (true, (acc.1 ++ [(nx, ny)], acc.2))
       | Some target =>
           if bool_decide (color target ≠ color piece)
           then (false, (acc.1, acc.2 ++ [(nx, ny)]))
           else (false, acc)
       end.

(** The closure [addAttack] of [calculateValidMoves]; [getPieceMoves]
    writes the same test inline for the pawn. *)
Definition addAttack (h : Heap) (b : Board) (piece : Piece) (nx ny : Z)
    (acc : list Square * list Square) : list Square * list Square :=
  if negb (onBoard nx ny) then acc
  else match getCell h b nx ny with
       | Some target =>
           if bool_decide (color target ≠ color piece)
           then (acc.1, acc.2 ++ [(nx, ny)])
           else acc
       | None => acc
       end.

(** [for (let i = 1; i < 8; i++) if (!addMove(x+dx*i, y+dy*i)) break;]
    started with [i] and [n] iterations left. *)
Fixpoint slide (h : Heap) (b : Board) (piece : Piece) (x y dx dy : Z)
    (n : nat) (i : Z) (acc : list Square * list Square)
    : list Square * list Square :=
  match n with
  | O => acc
  | S n' =>
      let r := addMove h b piece (x + dx * i) (y + dy * i) acc in
      if r.1 then slide h b piece x y dx dy n' (i + 1) r.2 else r.2
  end.

(** [dirs.forEach(([dx,dy]) => { for ... })] *)
Definition slideAll (h : Heap) (b : Board) (piece : Piece) (x y : Z)
    (dirs : list Offset) (acc : list Square * list Square) :=
  foldl (λ a d, slide h b piece x y d.1 d.2 7 1 a) acc dirs.

(** [offs.forEach(([dx,dy]) => addMove(x+dx, y+dy))] *)
Definition stepAll (h : Heap) (b : Board) (piece : Piece) (x y : Z)
    (offs : list Offset) (acc : list Square * list Square) :=
  foldl (λ a d, (addMove h b piece (x + d.1) (y + d.2) a).2) acc offs.

(** [piece.color === 'white' ? -1 : 1] *)
Definition pawnDir (c : Color) : Z :=
  match c with White => -1 | Black => 1 end.

(** The pawn pushes: the cells [board[x][y + dir]] and
    [board[x][y + 2 * dir]] are read without a bounds check. *)
Definition pawnPushes (h : Heap) (b : Board) (piece : Piece) (x y : Z)
    (acc : list Square * list Square) : list Square * list Square :=
  let dir := pawnDir (color piece) in
  match getCell h b x (y + dir) with
  | Some _ => acc
  | None =>
      let acc1 := (acc.1 ++ [(x, y + dir)], acc.2) in
      if negb (moved piece) && negb (bool_decide (is_Some (getCell h b x (y + 2 * dir))))
      then (acc1.1 ++ [(x, y + 2 * dir)], acc1.2)
      else acc1
  end.

(** The [switch (piece.type)] shared, case by case, by
    [calculateValidMoves] and [getPieceMoves]. *)
Definition baseMoves (h : Heap) (b : Board) (piece : Piece) (x y : Z)
    : list Square * list Square :=
  match type piece with
  | Pawn =>
      let acc := pawnPushes h b piece x y ([], []) in
      foldl (λ a dx, addAttack h b piece (x + dx) (y + pawnDir (color piece)) a)
            acc [-1; 1]
  | Rook => slideAll h b piece x y rookDirs ([], [])
  | Knight => stepAll h b piece x y knightJumps ([], [])
  | Bishop => slideAll h b piece x y bishopDirs ([], [])
  | Queen => slideAll h b piece x y queenDirs ([], [])
  | King => stepAll h b piece x y kingSteps ([], [])
  end.

(** [getPieceMoves(x, y)]: returns [[moves, attacks]]; the custom move
    table is not consulted. *)
Definition getPieceMoves (h : Heap) (b : Board) (x y : Z)
    : list Square * list Square :=
  match getCell h b x y with
  | None => ([], [])
  | Some piece => baseMoves h b piece x y
  end.

(** An entry [{ moves, attacks }] of the custom move table. *)
Record Custom := mkCustom { cmoves : list Offset; cattacks : list Offset }.

#[global] Instance Custom_eq_dec : EqDecision Custom.
Proof. solve_decision. Defined.

(** [{ white: ..., black: ... }] *)
Record PerColor (A : Type) := mkPerColor { white : A; black : A }.
Arguments mkPerColor {A} _ _.
Arguments white {A} _.
Arguments black {A} _.

Definition ofColor {A} (p : PerColor A) (c : Color) : A :=
  match c with White => white p | Black => black p end.

Definition setColor {A} (c : Color) (v : A) (p : PerColor A) : PerColor A :=
  match c with
  | White => mkPerColor v (black p)
  | Black => mkPerColor (white p) v
  end.

Abbreviation CustomMoveTable := (PerColor (gmap PieceType Custom)).

(** The tail of [calculateValidMoves]: [custom.moves?.forEach(...)]. *)
Definition addCustomMoves (h : Heap) (b : Board) (x y : Z)
    (offs : list Offset) (vm : list Square) : list Square :=
  foldl (λ vm d,
           let nx := x + d.1 in
           let ny := y + d.2 in
           if (0 <=? nx) && (nx <? 8) && (0 <=? ny) && (ny <? 8)
              && negb (bool_decide (is_Some (getCell h b nx ny)))
           then if negb (hasSquare (nx, ny) vm) then vm ++ [(nx, ny)] else vm
           else vm) vm offs.

(** The tail of [calculateValidMoves]: [custom.attacks?.forEach(...)]. *)
Definition addCustomAttacks (h : Heap) (b : Board) (piece : Piece) (x y : Z)
    (offs : list Offset) (va : list Square) : list Square :=
  foldl (λ va d,
           let nx := x + d.1 in
           let ny := y + d.2 in
           if (0 <=? nx) && (nx <? 8) && (0 <=? ny) && (ny <? 8)
           then match getCell h b nx ny with
                | Some target =>
                    if bool_decide (color target ≠ color piece)
                       && negb (hasSquare (nx, ny) va)
                    then va ++ [(nx, ny)] else va
                | None => va
                end
           else va) va offs.

(** The value [calculateValidMoves(x, y)] leaves in [validMoves] and
    [validAttacks] when [board[x][y]] holds [piece]. *)
Definition augmentedMoves (h : Heap) (b : Board) (cm : CustomMoveTable)
    (piece : Piece) (x y : Z) : list Square * list Square :=
  let base := baseMoves h b piece x y in
  match ofColor cm (color piece) !! type piece with
  | None => base
  | Some custom =>
      (addCustomMoves h b x y (cmoves custom) base.1,
       addCustomAttacks h b piece x y (cattacks custom) base.2)
  end.

(** The first loop of [isInCheck]: the first king of [c] in scan order. *)
Definition findKing (h : Heap) (b : Board) (c : Color) : option Square :=
  find (λ sq, match getCell h b sq.1 sq.2 with
              | Some p => bool_decide (type p = King) && bool_decide (color p = c)
              | None => false
              end) allSquares.

(** The body of the second loop of [isInCheck] at one square. *)
Definition attacksSquare (h : Heap) (b : Board) (by_ : Color) (k : Square)
    (sq : Square) : bool :=
  match getCell h b sq.1 sq.2 with
  | Some p =>
      bool_decide (color p = by_)
      && hasSquare k (getPieceMoves h b sq.1 sq.2).2
  | None => false
  end.

(** [isInCheck(color)]; it only reads the board. *)
Definition isInCheck (h : Heap) (b : Board) (c : Color) : bool :=
  match findKing h b c with
  | None => false
  | Some k => existsb (attacksSquare h b (otherColor c) k) allSquares
  end.

(** The king-safety simulation shared by [hasValidMoves] and
    [filterMovesInCheck]: relocate the reference [l] from [from] to [to_] on
    the live board, ask [isInCheck], then write both cells back.  Returns
    the answer of [isInCheck] and the board after the restore. *)
Definition simulate (h : Heap) (c : Color) (from : Square) (l : loc)
    (to_ : Square) (b : Board) : bool * Board :=
  let originalPiece := b !! to_ in
  let b1 := <[to_ := l]> (delete from b) in
  let inCheck := isInCheck h b1 c in
  let b2 := setCell to_ originalPiece (<[from := l]> b1) in
  (inCheck, b2).

(** [for (const [mx, my] of allMoves)] of [hasValidMoves]; [true] is the
    early [return true]. *)
Fixpoint tryMoves (h : Heap) (c : Color) (from : Square) (l : loc)
    (ms : list Square) (b : Board) : bool * Board :=
  match ms with
  | [] => (false, b)
  | m :: rest =>
      let r := simulate h c from l m b in
      if negb r.1 then (true, r.2) else tryMoves h c from l rest r.2
  end.

(** The two outer loops of [hasValidMoves] over the squares still to visit. *)
Fixpoint hasValidMovesFrom (h : Heap) (c : Color) (sqs : list Square)
    (b : Board) : bool * Board :=
  match sqs with
  | [] => (false, b)
  | sq :: rest =>
      match b !! sq with
      | Some l =>
          if bool_decide (color (h !!! l) = c) then
            let ma := getPieceMoves h b sq.1 sq.2 in
            let r := tryMoves h c sq l (ma.1 ++ ma.2) b in
            if r.1 then (true, r.2) else hasValidMovesFrom h c rest r.2
          else hasValidMovesFrom h c rest b
      | None => hasValidMovesFrom h c rest b
      end
  end.

(** [hasValidMoves(color)]: the result and the board it leaves. *)
Definition hasValidMoves (h : Heap) (b : Board) (c : Color) : bool * Board :=
  hasValidMovesFrom h c allSquares b.

(** [isInCheck(color) && !hasValidMoves(color)] *)
Definition isCheckmate (h : Heap) (b : Board) (c : Color) : bool * Board :=
  if isInCheck h b c
  then let r := hasValidMoves h b c in (negb r.1, r.2)
  else (false, b).

(** [!isInCheck(color) && !hasValidMoves(color)] *)
Definition isStalemate (h : Heap) (b : Board) (c : Color) : bool * Board :=
  if negb (isInCheck h b c)
  then let r := hasValidMoves h b c in (negb r.1, r.2)
  else (false, b).

(** One of the two loops of [filterMovesInCheck]: the candidates that pass,
    in order, and the board left behind. *)
Fixpoint filterSim (h : Heap) (c : Color) (from : Square) (l : loc)
    (cands : list Square) (b : Board) (kept : list Square)
    : list Square * Board :=
  match cands with
  | [] => (kept, b)
  | m :: rest =>
      let r := simulate h c from l m b in
      filterSim h c from l rest r.2 (if negb r.1 then kept ++ [m] else kept)
  end.

(** ** Ability card registry *)

(** A card [{ pieceType, moves, attacks, enabled }]; [enabled] may be
    [undefined].  A missing [moves] or [attacks] array behaves as [[]]
    everywhere ([data.moves || []], [card.moves?.forEach]).  The display
    colour of a card is not modelled. *)
Record Card := mkCard {
  pieceType : PieceType;
  moves : list Offset;
  attacks : list Offset;
  enabled : option bool
}.

(** The messages these operations hand to [ws.send]. *)
Inductive WsMessage :=
  | MsgToggleCard (c : Color) (name : string) (en : bool)
  | MsgDeleteCard (c : Color) (name : string).

(** The registry part of [this].  [abilityCards[color]] is listed in the
    order of [Object.entries]; [online] stands for
    [!this.isLocalGame && this.ws && this.ws.readyState === WebSocket.OPEN]. *)
Record Registry := mkRegistry {
  customMoves : CustomMoveTable;
  abilityCards : PerColor (list (string * Card));
  online : bool;
  outbox : list WsMessage
}.

(** [this.abilityCards[color][name]] *)
Definition lookupCard (name : string) (cards : list (string * Card))
    : option Card :=
  snd <$> find (λ e, bool_decide (e.1 = name)) cards.

(** An assignment to a field of the card object [abilityCards[color][name]]. *)
Fixpoint updateCard (name : string) (f : Card → Card)
    (cards : list (string * Card)) : list (string * Card) :=
  match cards with
  | [] => []
  | e :: rest =>
      if bool_decide (e.1 = name) then (e.1, f e.2) :: rest
      else e :: updateCard name f rest
  end.

(** [delete this.abilityCards[color][name]] *)
Definition removeCard (name : string) (cards : list (string * Card))
    : list (string * Card) :=
  List.filter (λ e, negb (bool_decide (e.1 = name))) cards.

Definition setEnabled (e : option bool) (c : Card) : Card :=
  mkCard (pieceType c) (moves c) (attacks c) e.

(** [if (!arr.some(m => m[0] === o[0] && m[1] === o[1])) arr.push(o)] *)
Definition pushNew (l : list Offset) (o : Offset) : list Offset :=
  if hasSquare o l then l else l ++ [o].

(** The body of the inner [forEach] of [rebuildCustomMoves] for one card. *)
Definition addCard (tbl : gmap PieceType Custom) (entry : string * Card)
    : gmap PieceType Custom :=
  let data := entry.2 in
  if bool_decide (enabled data = Some false) then tbl
  else
    let cur := default (mkCustom [] []) (tbl !! pieceType data) in
    <[pieceType data :=
        mkCustom (foldl pushNew (cmoves cur) (moves data))
                 (foldl pushNew (cattacks cur) (attacks data))]> tbl.

(** The table [rebuildCustomMoves] builds for one colour. *)
Definition rebuildColor (cards : list (string * Card)) : gmap PieceType Custom :=
  foldl addCard ∅ cards.

(** The table derived from the cards and their [enabled] flags. *)
Definition derivedTable (cards : PerColor (list (string * Card)))
    : CustomMoveTable :=
  mkPerColor (rebuildColor (white cards)) (rebuildColor (black cards)).

(** [rebuildCustomMoves()] *)
Definition rebuildCustomMoves (r : Registry) : Registry :=
  mkRegistry (derivedTable (abilityCards r)) (abilityCards r)
             (online r) (outbox r).

(** [(card.enabled === true || card.enabled === undefined) ? false : true] *)
Definition toggleEnabled (e : option bool) : bool :=
  match e with
  | Some true | None => false
  | Some false => true
  end.

(** [toggleCard(color, name)] *)
Definition toggleCard (c : Color) (name : string) (r : Registry) : Registry :=
  match lookupCard name (ofColor (abilityCards r) c) with
  | None => r
  | Some card =>
      let en := toggleEnabled (enabled card) in
      let cards' :=
        setColor c (updateCard name (setEnabled (Some en))
                               (ofColor (abilityCards r) c))
                 (abilityCards r) in
      if online r
      then mkRegistry (customMoves r) cards' (online r)
                      (outbox r ++ [MsgToggleCard c name en])
      else rebuildCustomMoves
             (mkRegistry (customMoves r) cards' (online r) (outbox r))
  end.

(** [card.moves?.forEach(move => { custom.moves = custom.moves.filter(
    m => !(m[0] === move[0] && m[1] === move[1])) })] *)
Definition removeOffsets (rm : list Offset) (l : list Offset) : list Offset :=
  foldl (λ l o, List.filter (λ m, negb ((m.1 =? o.1) && (m.2 =? o.2))) l) l rm.

(** The first half of [deleteCard]: the subtraction on the table entry. *)
Definition subtractCard (c : Color) (name : string) (r : Registry)
    : CustomMoveTable :=
  match lookupCard name (ofColor (abilityCards r) c) with
  | None => customMoves r
  | Some card =>
      let tbl := ofColor (customMoves r) c in
      match tbl !! pieceType card with
      | None => customMoves r
      | Some custom =>
          setColor c
            (<[pieceType card :=
                 mkCustom (removeOffsets (moves card) (cmoves custom))
                          (removeOffsets (attacks card) (cattacks custom))]> tbl)
            (customMoves r)
      end
  end.

(** [deleteCard(color, name)] *)
Definition deleteCard (c : Color) (name : string) (r : Registry) : Registry :=
  let cm := subtractCard c name r in
  if online r
  then mkRegistry cm (abilityCards r) (online r)
                  (outbox r ++ [MsgDeleteCard c name])
  else mkRegistry cm
         (setColor c (removeCard name (ofColor (abilityCards r) c))
                   (abilityCards r))
         (online r) (outbox r).

(** ** Local session (revision v2.7) *)

(** An element [{ number, white, black }] of [moveHistory]. *)
Record HistoryEntry := mkEntry {
  number : Z;
  whiteMove : string;
  blackMove : string
}.

(** [pendingPromotion = { x, y, piece, from, captured }]; [piece] and
    [captured] are references. *)
Record Pending := mkPending {
  pendX : Z;
  pendY : Z;
  pendPiece : loc;
  pendFrom : Square;
  pendCaptured : option loc
}.

(** [this.stats] as [recordResult] updates it. *)
Record Stats := mkStats {
  total : Z;
  whiteWins : Z;
  blackWins : Z;
  draws : Z
}.

(** The argument of [recordResult]: ['white'], ['black'] or ['draw']. *)
Inductive Result := Winner (c : Color) | Draw.

(** The reason handed to [showGameOver]: in the source the texts
    'король съеден' (king eaten), 'мат' (mate) and 'пат' (stalemate). *)
Inductive Reason := KingEaten | Mate | Pat.

(** The text of the [status] element these handlers write: 'ШАХ!' (check)
    or 'Локальная игра' (local game); [StatusOther] is any earlier text. *)
Inductive Status := StatusOther | StatusCheck | StatusLocalGame.

(** The fields of [this] the local handlers read and write.  The game-over
    modal and the promotion modal are the DOM elements the handlers show
    and hide; drawing, sounds and the clock are not modelled. *)
Record ChessGame := mkGame {
  heap : Heap;
  board : Board;
  selectedPiece : option Square;
  validMoves : list Square;
  validAttacks : list Square;
  currentPlayer : Color;
  lastMove : option (Square * Square);
  moveHistory : list HistoryEntry;
  pendingPromotion : option Pending;
  registry : Registry;
  stats : Stats;
  status : Status;
  promotionModalHidden : bool;
  gameOverModal : option (Result * Reason)
}.

Definition setBoard (b : Board) (g : ChessGame) : ChessGame :=
  mkGame (heap g) b (selectedPiece g) (validMoves g) (validAttacks g)
         (currentPlayer g) (lastMove g) (moveHistory g) (pendingPromotion g)
         (registry g) (stats g) (status g) (promotionModalHidden g)
         (gameOverModal g).

Definition setHeap (h : Heap) (g : ChessGame) : ChessGame :=
  mkGame h (board g) (selectedPiece g) (validMoves g) (validAttacks g)
         (currentPlayer g) (lastMove g) (moveHistory g) (pendingPromotion g)
         (registry g) (stats g) (status g) (promotionModalHidden g)
         (gameOverModal g).

Definition setSelection (sel : option Square) (vm va : list Square)
    (g : ChessGame) : ChessGame :=
  mkGame (heap g) (board g) sel vm va
         (currentPlayer g) (lastMove g) (moveHistory g) (pendingPromotion g)
         (registry g) (stats g) (status g) (promotionModalHidden g)
         (gameOverModal g).

Definition setCurrentPlayer (c : Color) (g : ChessGame) : ChessGame :=
  mkGame (heap g) (board g) (selectedPiece g) (validMoves g) (validAttacks g)
         c (lastMove g) (moveHistory g) (pendingPromotion g)
         (registry g) (stats g) (status g) (promotionModalHidden g)
         (gameOverModal g).

Definition setLastMove (m : option (Square * Square)) (g : ChessGame)
    : ChessGame :=
  mkGame (heap g) (board g) (selectedPiece g) (validMoves g) (validAttacks g)
         (currentPlayer g) m (moveHistory g) (pendingPromotion g)
         (registry g) (stats g) (status g) (promotionModalHidden g)
         (gameOverModal g).

Definition setMoveHistory (mh : list HistoryEntry) (g : ChessGame)
    : ChessGame :=
  mkGame (heap g) (board g) (selectedPiece g) (validMoves g) (validAttacks g)
         (currentPlayer g) (lastMove g) mh (pendingPromotion g)
         (registry g) (stats g) (status g) (promotionModalHidden g)
         (gameOverModal g).

(** [pendingPromotion = p] together with the class list of the
    promotion modal. *)
Definition setPromotion (p : option Pending) (hidden : bool) (g : ChessGame)
    : ChessGame :=
  mkGame (heap g) (board g) (selectedPiece g) (validMoves g) (validAttacks g)
         (currentPlayer g) (lastMove g) (moveHistory g) p
         (registry g) (stats g) (status g) hidden
         (gameOverModal g).

Definition setStatus (s : Status) (g : ChessGame) : ChessGame :=
  mkGame (heap g) (board g) (selectedPiece g) (validMoves g) (validAttacks g)
         (currentPlayer g) (lastMove g) (moveHistory g) (pendingPromotion g)
         (registry g) (stats g) s (promotionModalHidden g)
         (gameOverModal g).

(** [recordResult(result)] *)
Definition recordResult (r : Result) (s : Stats) : Stats :=
  match r with
  | Winner White => mkStats (total s + 1) (whiteWins s + 1) (blackWins s) (draws s)
  | Winner Black => mkStats (total s + 1) (whiteWins s) (blackWins s + 1) (draws s)
  | Draw => mkStats (total s + 1) (whiteWins s) (blackWins s) (draws s + 1)
  end.

(** [this.recordResult(r); this.showGameOver(..., reason)] *)
Definition endGame (r : Result) (why : Reason) (g : ChessGame) : ChessGame :=
  mkGame (heap g) (board g) (selectedPiece g) (validMoves g) (validAttacks g)
         (currentPlayer g) (lastMove g) (moveHistory g) (pendingPromotion g)
         (registry g) (recordResult r (stats g)) (status g)
         (promotionModalHidden g) (Some (r, why)).

(** What a handler leaves behind: it returns, or a [TypeError] escapes it
    after the writes already made. *)
Inductive Outcome :=
  | Done (g : ChessGame)
  | TypeError (g : ChessGame).

(** [deselectPiece()] *)
Definition deselectPiece (g : ChessGame) : ChessGame :=
  setSelection None [] [] g.

(** [calculateValidMoves(x, y)]: nothing is written when the cell is empty. *)
Definition calculateValidMoves (x y : Z) (g : ChessGame) : ChessGame :=
  match getCell (heap g) (board g) x y with
  | None => g
  | Some piece =>
      let r := augmentedMoves (heap g) (board g) (customMoves (registry g))
                              piece x y in
      setSelection (selectedPiece g) r.1 r.2 g
  end.

(** [filterMovesInCheck()]; [None] is the [TypeError] of
    [this.selectedPiece[0]] when nothing is selected, raised before any
    write. *)
Definition filterMovesInCheck (g : ChessGame) : option ChessGame :=
  match selectedPiece g with
  | None => None
  | Some sq =>
      match board g !! sq with
      | None => Some g
      | Some l =>
          let c := color (heap g !!! l) in
          let r1 := filterSim (heap g) c sq l (validMoves g) (board g) [] in
          let r2 := filterSim (heap g) c sq l (validAttacks g) r1.2 [] in
          Some (setSelection (selectedPiece g) r1.1 r2.1 (setBoard r2.2 g))
      end
  end.

(** ['abcdefgh'[x]] *)
Definition fileLetter (x : Z) : option Ascii.ascii :=
  if x <? 0 then None else String.get (Z.to_nat x) "abcdefgh".

(** [files[sq[0]] + (8 - sq[1])]: a letter followed by a decimal number;
    when the letter is [undefined] the sum is the number [NaN], which the
    later concatenation prints as "NaN". *)
Definition squareNotation (sq : Square) : string :=
  match fileLetter sq.1 with
  | Some ch => String ch (pretty (8 - sq.2))
  | None => "NaN"
  end.

(** [pieceSymbols[piece.type] || ''] *)
Definition pieceSymbol (t : PieceType) : string :=
  match t with
  | King => "K" | Queen => "Q" | Rook => "R" | Bishop => "B" | Knight => "N"
  | Pawn => ""
  end.

(** [symbol + fromNotation + capture + toNotation] *)
Definition notation (from to_ : Square) (t : PieceType) (captured : bool)
    : string :=
  pieceSymbol t +:+ squareNotation from +:+ (if captured then "x" else "-")
  +:+ squareNotation to_.

(** [this.moveHistory[this.moveHistory.length - 1].black = s] *)
Fixpoint setLastBlack (s : string) (mh : list HistoryEntry)
    : list HistoryEntry :=
  match mh with
  | [] => []
  | [e] => [mkEntry (number e) (whiteMove e) s]
  | e :: rest => e :: setLastBlack s rest
  end.

(** [addMoveToHistory(from, to, piece, captured)] on [moveHistory]. *)
Definition addMoveToHistory (from to_ : Square) (piece : Piece)
    (captured : bool) (mh : list HistoryEntry) : list HistoryEntry :=
  let s := notation from to_ (type piece) captured in
  match color piece with
  | White => mh ++ [mkEntry (Z.of_nat (length mh) + 1) s ""]
  | Black => setLastBlack s mh
  end.

(** The check, mate and stalemate report that ends [handleLocalClick] and
    [selectPromotion]: [who] is the colour asked about, [mover] the colour
    of the piece that moved. *)
Definition reportPosition (who mover : Color) (g : ChessGame) : ChessGame :=
  let cm := isCheckmate (heap g) (board g) who in
  if cm.1 then endGame (Winner mover) Mate (setBoard cm.2 g)
  else
    let sm := isStalemate (heap g) cm.2 who in
    if sm.1 then endGame Draw Pat (setBoard sm.2 g)
    else if isInCheck (heap g) sm.2 who
         then setStatus StatusCheck (setBoard sm.2 g)
         else setStatus StatusLocalGame (setBoard sm.2 g).

Definition setMoved (p : Piece) : Piece := mkPiece (color p) (type p) true.
Definition setType (t : PieceType) (p : Piece) : Piece :=
  mkPiece (color p) t (moved p).

(** The branch of [handleLocalClick] taken when the clicked square is one
    of [validMoves] or [validAttacks]; [(sx, sy)] is the selected square. *)
Definition commitMove (sx sy x y : Z) (g : ChessGame) : Outcome :=
  let piece := board g !! (sx, sy) in
  let captured := board g !! (x, y) in
  let kingTaken :=
    match captured with
    | Some k => bool_decide (type (heap g !!! k) = King)
    | None => false
    end in
  if kingTaken then
    match piece with
    | None => TypeError g
    | Some l => Done (endGame (Winner (color (heap g !!! l))) KingEaten g)
    end
  else
    let g1 := setBoard (setCell (x, y) piece (delete (sx, sy) (board g))) g in
    match piece with
    | None => TypeError g1
    | Some l =>
        let g2 := setHeap (<[l := setMoved (heap g !!! l)]> (heap g)) g1 in
        let g3 := setLastMove (Some ((sx, sy), (x, y))) g2 in
        let p := heap g3 !!! l in
        if bool_decide (type p = Pawn) && ((y =? 0) || (y =? 7)) then
          Done (setPromotion (Some (mkPending x y l (sx, sy) captured)) false g3)
        else
          let g4 := setMoveHistory
                      (addMoveToHistory (sx, sy) (x, y) p
                         (bool_decide (is_Some captured)) (moveHistory g3)) g3 in
          let g5 := setCurrentPlayer (otherColor (currentPlayer g4))
                      (setSelection None [] [] g4) in
          Done (reportPosition (currentPlayer g5) (color p) g5)
    end.

(** The tail of [handleLocalClick]: select the clicked piece of the side
    to move, or deselect. *)
Definition selectOrDeselect (x y : Z) (g : ChessGame) : Outcome :=
  match getCell (heap g) (board g) x y with
  | Some clicked =>
      if bool_decide (color clicked = currentPlayer g) then
        let g1 := setSelection (Some (x, y)) (validMoves g) (validAttacks g) g in
        match filterMovesInCheck (calculateValidMoves x y g1) with
        | Some g2 => Done g2
        | None => TypeError (calculateValidMoves x y g1)
        end
      else Done (deselectPiece g)
  | None => Done (deselectPiece g)
  end.

(** [handleLocalClick(x, y)] of revision v2.7. *)
Definition handleLocalClick (x y : Z) (g : ChessGame) : Outcome :=
  match selectedPiece g with
  | Some (sx, sy) =>
      if hasSquare (x, y) (validMoves g) || hasSquare (x, y) (validAttacks g)
      then commitMove sx sy x y g
      else selectOrDeselect x y g
  | None => selectOrDeselect x y g
  end.

(** [selectPromotion(pieceType)].  [opponentColor] is read from
    [currentPlayer] before the turn flips, so the position is reported for
    the colour that has just promoted. *)
Definition selectPromotion (t : PieceType) (g : ChessGame) : ChessGame :=
  match pendingPromotion g with
  | None => g
  | Some pend =>
      let l := pendPiece pend in
      let g1 := setHeap (<[l := setType t (heap g !!! l)]> (heap g)) g in
      let g2 := setMoveHistory
                  (addMoveToHistory (pendFrom pend) (pendX pend, pendY pend)
                     (heap g1 !!! l) (bool_decide (is_Some (pendCaptured pend)))
                     (moveHistory g1)) g1 in
      let g3 := setPromotion None true g2 in
      let opponentColor := currentPlayer g3 in
      let g4 := setCurrentPlayer (otherColor (currentPlayer g3)) g3 in
      let g5 := reportPosition opponentColor (color (heap g4 !!! l)) g4 in
      setSelection None [] [] g5
  end.

(** ** Local session (revision v2.5) *)

Module V25.

(** [handleLocalClick(x, y)] of revision v2.5: the destinations are the
    output of [calculateValidMoves] as it stands, a pawn reaching rank 0
    or 7 becomes a queen at once, and nothing is reported afterwards. *)
Definition handleLocalClick (x y : Z) (g : ChessGame) : Outcome :=
  let select :=
    match getCell (heap g) (board g) x y with
    | Some clicked =>
        if bool_decide (color clicked = currentPlayer g) then
          Done (calculateValidMoves x y
                  (setSelection (Some (x, y)) (validMoves g) (validAttacks g) g))
        else Done (deselectPiece g)
    | None => Done (deselectPiece g)
    end in
  match selectedPiece g with
  | Some (sx, sy) =>
      if hasSquare (x, y) (validMoves g) || hasSquare (x, y) (validAttacks g)
      then
        let piece := board g !! (sx, sy) in
        let captured := board g !! (x, y) in
        let g1 := setBoard (setCell (x, y) piece (delete (sx, sy) (board g))) g in
        match piece with
        | None => TypeError g1
        | Some l =>
            let p1 := setMoved (heap g !!! l) in
            let p2 := if bool_decide (type p1 = Pawn) && ((y =? 0) || (y =? 7))
                      then setType Queen p1 else p1 in
            let g2 := setHeap (<[l := p2]> (heap g)) g1 in
            let g3 := setLastMove (Some ((sx, sy), (x, y))) g2 in
            let g4 := setMoveHistory
                        (addMoveToHistory (sx, sy) (x, y) p2
                           (bool_decide (is_Some captured)) (moveHistory g3)) g3 in
            Done (setCurrentPlayer (otherColor (currentPlayer g4))
                    (setSelection None [] [] g4))
        end
      else select
  | None => select
  end.

End V25.

(** ** Positions used in the examples *)

(** Allocate the pieces of a list of occupied squares, in order. *)
Definition place (ps : list (Square * Piece)) : Heap * Board :=
  foldl (λ hb e,
           let l := Pos.of_nat (S (size hb.1)) in
           (<[l := e.2]> hb.1, <[e.1 := l]> hb.2))
        (∅, ∅) ps.

Definition noCards : Registry :=
  mkRegistry (mkPerColor ∅ ∅) (mkPerColor [] []) false [].

(** A fresh local game on the position [ps] with [c] to move. *)
Definition newGame (ps : list (Square * Piece)) (c : Color) (r : Registry)
    : ChessGame :=
  mkGame (place ps).1 (place ps).2 None [] [] c None [] None r
         (mkStats 0 0 0 0) StatusOther true None.

(** [getInitialBoard()], cell by cell in the order of its assignments. *)
Definition getInitialBoard : list (Square * Piece) :=
  '(x, t) ← zip (seqZ 0 8) [Rook; Knight; Bishop; Queen; King; Bishop; Knight; Rook];
  [((x, 0), mkPiece Black t false); ((x, 1), mkPiece Black Pawn false);
   ((x, 6), mkPiece White Pawn false); ((x, 7), mkPiece White t false)].

(** [startLocalGame()] *)
Definition startLocalGame (r : Registry) : ChessGame :=
  setStatus StatusLocalGame (newGame getInitialBoard White r).

(** A sequence of clicks, stopping at the first [TypeError]. *)
Fixpoint clicks (handler : Z → Z → ChessGame → Outcome)
    (cs : list Square) (g : ChessGame) : Outcome :=
  match cs with
  | [] => Done g
  | c :: rest =>
      match handler c.1 c.2 g with
      | Done g' => clicks handler rest g'
      | TypeError g' => TypeError g'
      end
  end.



(** ** Vocabulary of the properties *)

(** The [k]-th square of the ray from [(x, y)] in direction [d]. *)
Definition raySquare (x y : Z) (d : Offset) (k : Z) : Square :=
  (x + d.1 * k, y + d.2 * k).

(** The [k]-th square of the ray is on the board and empty. *)
Definition freeAt (h : Heap) (b : Board) (x y : Z) (d : Offset) (k : Z)
    : Prop :=
  onBoard (x + d.1 * k) (y + d.2 * k) = true
  ∧ getCell h b (x + d.1 * k) (y + d.2 * k) = None.

(** The squares [i..k] of the ray are all on the board and empty. *)
Definition clearRay (h : Heap) (b : Board) (x y : Z) (d : Offset) (i k : Z)
    : Prop :=
  ∀ j, i ≤ j ≤ k → freeAt h b x y d j.

(** The [k]-th square of the ray is on the board and holds a piece of the
    other colour than [piece]. *)
Definition enemyAt (h : Heap) (b : Board) (piece : Piece) (x y : Z)
    (d : Offset) (k : Z) : Prop :=
  onBoard (x + d.1 * k) (y + d.2 * k) = true
  ∧ ∃ t, getCell h b (x + d.1 * k) (y + d.2 * k) = Some t
         ∧ color t ≠ color piece.

(** The directions the [switch] gives a sliding piece. *)
Definition rays (t : PieceType) : list Offset :=
  match t with
  | Rook => rookDirs
  | Bishop => bishopDirs
  | Queen => queenDirs
  | _ => []
  end.

(** The reading of check that counts card attacks: [c] is in check
    exactly when its king's square is among the attacks that
    [calculateValidMoves] gives some enemy piece, card offsets included. *)
Definition checkCountsCards (g : ChessGame) (c : Color) : Prop :=
  isInCheck (heap g) (board g) c = true ↔
  ∃ k sq p,
    findKing (heap g) (board g) c = Some k
    ∧ sq ∈ allSquares
    ∧ getCell (heap g) (board g) sq.1 sq.2 = Some p
    ∧ color p = otherColor c
    ∧ k ∈ (augmentedMoves (heap g) (board g) (customMoves (registry g))
                          p sq.1 sq.2).2.

(** What [rebuildCustomMoves] reads of a card. *)
Definition sameContribution (d d' : Card) : Prop :=
  pieceType d = pieceType d' ∧ moves d = moves d' ∧ attacks d = attacks d'
  ∧ bool_decide (enabled d = Some false)
    = bool_decide (enabled d' = Some false).

(** ** Example positions *)

(** A rook on a1 with a friendly pawn on a4 and an enemy knight on d1. *)
Definition rookPosition : list (Square * Piece) :=
  [((0, 7), mkPiece White Rook true);
   ((0, 4), mkPiece White Pawn true);
   ((3, 7), mkPiece Black Knight true)].

(** One enabled card giving the black knight an attack four files to the
    right and seven ranks down. *)
Definition leapCards : PerColor (list (string * Card)) :=
  mkPerColor [] [("leap", mkCard Knight [] [(4, 7)] None)].

Definition leapRegistry : Registry :=
  mkRegistry (derivedTable leapCards) leapCards false [].

(** Kings on e1 and e8, a black knight on a8, White to move. *)
Definition leapGame : ChessGame :=
  newGame [((4, 7), mkPiece White King false);
           ((4, 0), mkPiece Black King false);
           ((0, 0), mkPiece Black Knight false)] White leapRegistry.

(** The game a sequence of [handleLocalClick] calls leaves. *)
Definition afterClicks (cs : list Square) (g : ChessGame) : ChessGame :=
  match clicks handleLocalClick cs g with
  | Done g' => g'
  | TypeError g' => g'
  end.

(** White rook on a8, black king on e8, white king on e1; the rook has
    been selected. *)
Definition rookTakesKing : ChessGame :=
  afterClicks [(0, 0)]
    (newGame [((0, 0), mkPiece White Rook true);
              ((4, 0), mkPiece Black King true);
              ((4, 7), mkPiece White King true)] White noCards).

(** White pawn on a7, kings on e1 and e8, White to move. *)
Definition pawnOnSeventh : ChessGame :=
  newGame [((0, 1), mkPiece White Pawn true);
           ((4, 7), mkPiece White King true);
           ((4, 0), mkPiece Black King true)] White noCards.

(** The pawn has been selected. *)
Definition pawnSelected : ChessGame := afterClicks [(0, 1)] pawnOnSeventh.

(** The pawn has been moved to a8: a promotion is pending. *)
Definition promotionPending : ChessGame := afterClicks [(0, 0)] pawnSelected.

(** The reading of "the turn does not pass until a promotion piece is
    chosen" over the click handler: from [g], whatever squares are clicked,
    the side to move stays the same. *)
Definition promotionHoldsTurn (g : ChessGame) : Prop :=
  ∀ cs g', clicks handleLocalClick cs g = Done g' →
           currentPlayer g' = currentPlayer g.

(** 1. a4 b5 2. axb5 a6 3. b6 a5 4. bxc7 a4 5. cxd8, click by click. *)
Definition promotionClicks : list Square :=
  [(0, 6); (0, 4); (1, 1); (1, 3); (0, 4); (1, 3); (0, 1); (0, 2);
   (1, 3); (1, 2); (0, 2); (0, 3); (1, 2); (2, 1); (0, 3); (0, 4);
   (2, 1); (3, 0)].

(** The local game after these clicks: White's pawn has taken on d8 and no
    promotion piece has been chosen. *)
Definition promotionReached : ChessGame :=
  afterClicks promotionClicks (startLocalGame noCards).

(** h2-h3 and Ke8xd8, click by click. *)
Definition pendingClicks : list Square := [(7, 6); (7, 5); (4, 0); (3, 0)].

(** The game after these two moves, made while the promotion is pending. *)
Definition movedWhilePending : ChessGame :=
  afterClicks pendingClicks promotionReached.

(** Two enabled white rook cards that both grant the diagonal step
    [(1, 1)]; the second also grants [(2, 2)]. *)
Definition sharedCards : PerColor (list (string * Card)) :=
  mkPerColor [("A", mkCard Rook [(1, 1)] [] None);
              ("B", mkCard Rook [(1, 1); (2, 2)] [] (Some true))] [].

Definition sharedRegistry : Registry :=
  mkRegistry (derivedTable sharedCards) sharedCards false [].

(** ** Reading a log entry back *)

(** The file letter of a notation, as a file index. *)
Definition parseFile (a : Ascii.ascii) : option Z :=
  match a with
  | "a" => Some 0 | "b" => Some 1 | "c" => Some 2 | "d" => Some 3
  | "e" => Some 4 | "f" => Some 5 | "g" => Some 6 | "h" => Some 7
  | _ => None
  end%char.

(** The rank digit [8 - y] of a notation, as the rank index [y]. *)
Definition parseRank (a : Ascii.ascii) : option Z :=
  match a with
  | "8" => Some 0 | "7" => Some 1 | "6" => Some 2 | "5" => Some 3
  | "4" => Some 4 | "3" => Some 5 | "2" => Some 6 | "1" => Some 7
  | _ => None
  end%char.

(** ['x'] or ['-'] *)
Definition parseCapture (a : Ascii.ascii) : option bool :=
  match a with
  | "x" => Some true | "-" => Some false
  | _ => None
  end%char.

(** Drop the piece symbol, if there is one. *)
Definition stripSymbol (s : string) : string :=
  match s with
  | String c rest =>
      match c with
      | "K" | "Q" | "R" | "B" | "N" => rest
      | _ => s
      end%char
  | EmptyString => s
  end.

(** What a notation string records: from-square, capture flag, to-square
    (and the piece symbol, which [stripSymbol] skips). *)
Definition parseNotation (s : string) : option (Square * bool * Square) :=
  match stripSymbol s with
  | String f1 (String r1 (String cp (String f2 (String r2 EmptyString)))) =>
      x1 ← parseFile f1; y1 ← parseRank r1; cap ← parseCapture cp;
      x2 ← parseFile f2; y2 ← parseRank r2;
      Some ((x1, y1), cap, (x2, y2))
  | _ => None
  end.

(** The notation of the last move of colour [c] in the log. *)
Definition lastNotation (c : Color) (mh : list HistoryEntry) : option string :=
  (λ e, match c with White => whiteMove e | Black => blackMove e end)
    <$> last mh.

(** The inverse reconstruction the specification asks of the move log; the
    repository has none ([requestUndo] only pops the log).  It reads the
    notation alone: the piece on the to-square goes back to the from-square
    and the to-square is emptied.  For a capture the entry does not say
    which piece was taken, so there is nothing to put back. *)
Definition undoFromLog (s : string) (cs : gmap (Z * Z) Piece)
    : option (gmap (Z * Z) Piece) :=
  match parseNotation s with
  | Some (from, false, to_) =>
      match cs !! to_ with
      | Some p => Some (<[from := p]> (delete to_ cs))
      | None => None
      end
  | _ => None
  end.

(** The round trip as the specification states it, for a candidate inverse
    [inv] that sees the log entry and the board after the move. *)
Definition logInverts
    (inv : string → gmap (Z * Z) Piece → gmap (Z * Z) Piece) : Prop :=
  ∀ g x y g' s,
    handleLocalClick x y g = Done g' →
    currentPlayer g' = otherColor (currentPlayer g) →
    lastNotation (currentPlayer g) (moveHistory g') = Some s →
    inv s (cells (heap g') (board g')) = cells (heap g) (board g).

(** Every notation of a move between squares of the board reads back. *)
Definition notationRoundTrips : bool :=
  forallb (λ t,
    forallb (λ cap,
      forallb (λ from,
        forallb (λ to_,
          bool_decide (parseNotation (notation from to_ t cap)
                       = Some (from, cap, to_)))
          allSquares) allSquares) [true; false])
    [Pawn; Rook; Knight; Bishop; Queen; King].

(** A white rook on a1, selected, facing a black piece of type [t] on a5;
    kings on e1 and e8. *)
Definition rookFacing (t : PieceType) : ChessGame :=
  afterClicks [(0, 7)]
    (newGame [((0, 7), mkPiece White Rook true);
              ((0, 3), mkPiece Black t true);
              ((4, 7), mkPiece White King true);
              ((4, 0), mkPiece Black King true)] White noCards).

(** A white knight on b1 that has already moved, selected; kings on e1
    and e8. *)
Definition knightSelected : ChessGame :=
  afterClicks [(1, 7)]
    (newGame [((1, 7), mkPiece White Knight true);
              ((4, 7), mkPiece White King true);
              ((4, 0), mkPiece Black King true)] White noCards).

(** 1. e4 a6 2. Qh5 f6, click by click. *)
Definition exposingClicks : list Square :=
  [(4, 6); (4, 4); (0, 1); (0, 2); (3, 7); (7, 3); (5, 1); (5, 2)].

(** The game a sequence of clicks leaves in revision v2.5. *)
Definition afterClicksV25 (cs : list Square) (g : ChessGame) : ChessGame :=
  match clicks V25.handleLocalClick cs g with
  | Done g' => g'
  | TypeError g' => g'
  end.

(** The local game of revision v2.5 after 1. e4 a6 2. Qh5, with Black's
    f-pawn selected, and after the click on f6. *)
Definition beforeExposure : ChessGame :=
  afterClicksV25 (take 7 exposingClicks) (startLocalGame noCards).

Definition afterExposure : ChessGame :=
  afterClicksV25 exposingClicks (startLocalGame noCards).

(** ** Vocabulary of the further properties *)

(** The cell [sq] is on the board and holds a piece of the other colour
    than [piece]. *)
Definition enemyOn (h : Heap) (b : Board) (piece : Piece) (sq : Square)
    : Prop :=
  onBoard sq.1 sq.2 = true
  ∧ ∃ t, getCell h b sq.1 sq.2 = Some t ∧ color t ≠ color piece.

(** The cell [sq] is on the board and empty. *)
Definition freeOn (h : Heap) (b : Board) (sq : Square) : Prop :=
  onBoard sq.1 sq.2 = true ∧ getCell h b sq.1 sq.2 = None.

(** The fixed offsets the [switch] gives a knight or a king. *)
Definition jumps (t : PieceType) : list Offset :=
  match t with
  | Knight => knightJumps
  | King => kingSteps
  | _ => []
  end.

(** Relocating the reference [l] from [sq] to [m] leaves colour [c] out of
    check: the test both simulations make on the live board. *)
Definition safeAfter (h : Heap) (b : Board) (c : Color) (sq : Square)
    (l : loc) (m : Square) : bool :=
  negb (isInCheck h (<[m := l]> (delete sq b)) c).

(** The game an outcome leaves, whether the handler returned or threw. *)
Definition outcomeGame (o : Outcome) : ChessGame :=
  match o with
  | Done g => g
  | TypeError g => g
  end.

(** Every reference on the board sits on one of the 64 squares. *)
Definition wfBoard (b : Board) : Prop :=
  ∀ sq l, b !! sq = Some l → onBoard sq.1 sq.2 = true.

(** The entries of the log are numbered 1, 2, 3, ... in order. *)
Definition numbered (mh : list HistoryEntry) : Prop :=
  ∀ i e, mh !! i = Some e → number e = Z.of_nat i + 1.

(** The counters of [stats] add up. *)
Definition statsConsistent (s : Stats) : Prop :=
  total s = whiteWins s + blackWins s + draws s.

(** [getDisplayCoords(x, y)] *)
Definition getDisplayCoords (boardFlipped : bool) (x y : Z) : Square :=
  if boardFlipped then (7 - x, 7 - y) else (x, y).

(** [getLogicalCoords(x, y)] *)
Definition getLogicalCoords (boardFlipped : bool) (x y : Z) : Square :=
  if boardFlipped then (7 - x, 7 - y) else (x, y).

(** [handleClick(event)] in a local game, from the display cell
    [(displayX, displayY)] that the two [Math.floor] lines compute from the
    pointer position (that arithmetic on pixels is not modelled). *)
Definition handleClick (boardFlipped : bool) (displayX displayY : Z)
    (g : ChessGame) : Outcome :=
  if (displayX <? 0) || (displayX >? 7) || (displayY <? 0) || (displayY >? 7)
  then Done g
  else
    let sq := getLogicalCoords boardFlipped displayX displayY in
    handleLocalClick sq.1 sq.2 g.

(** What [requestUndo] does besides touching the log: one of its two
    alerts, the request sent to the server, or nothing. *)
Inductive UndoEffect :=
  | UndoTooFewMoves
  | UndoNotImplemented
  | UndoRequestSent
  | UndoNothing.

(** [requestUndo()] on [moveHistory]; [wsOpen] stands for
    [this.ws && this.ws.readyState === WebSocket.OPEN]. *)
Definition requestUndo (isLocalGame wsOpen : bool) (mh : list HistoryEntry)
    : list HistoryEntry * UndoEffect :=
  if isLocalGame then
    if Z.of_nat (length mh) <? 2 then (mh, UndoTooFewMoves)
    else (removelast (removelast mh), UndoNotImplemented)
  else if wsOpen then (mh, UndoRequestSent)
  else (mh, UndoNothing).

(** [pieceValues[piece.type] || 0], signed by colour. *)
Definition signedValue (p : Piece) : Z :=
  let v := match type p with
           | Pawn => 1 | Knight => 3 | Bishop => 3
           | Rook => 5 | Queen => 9 | King => 0
           end in
  match color p with White => v | Black => - v end.

(** [evaluatePosition()] on an existing board (it returns 0 when
    [this.board] is still [null]). *)
Definition evaluatePosition (h : Heap) (b : Board) : Z :=
  foldl (λ evaluation sq,
           match getCell h b sq.1 sq.2 with
           | Some piece => evaluation + signedValue piece
           | None => evaluation
           end) 0 allSquares.

(** [wfBoard] as a test on the occupied cells. *)
Definition wfBoardb (b : Board) : bool :=
  forallb (λ e : Square * loc, onBoard e.1.1 e.1.2) (map_to_list b).

(** What one cell adds to [evaluation]. *)
Definition cellValue (h : Heap) (b : Board) (sq : Square) : Z :=
  match getCell h b sq.1 sq.2 with
  | Some piece => signedValue piece
  | None => 0
  end.

(** ** Ability cards: saving, the move board *)

(** Whether a property name is an array index (a canonical decimal below
    [2^32 - 1]): [Object.entries] lists such keys first, in ascending
    order, and all other keys after them in insertion order. *)
Definition digitValue (a : Ascii.ascii) : option N :=
  let n := Ascii.N_of_ascii a in
  if (48 <=? n)%N && (n <=? 57)%N then Some (n - 48)%N else None.

Fixpoint decimalValue (s : string) (acc : N) : option N :=
  match s with
  | EmptyString => Some acc
  | String a rest =>
      match digitValue a with
      | Some d => decimalValue rest (10 * acc + d)%N
      | None => None
      end
  end.

Definition arrayIndex (name : string) : option N :=
  match name with
  | EmptyString => None
  | String a rest =>
      if Ascii.eqb a "0" && negb (String.eqb rest "") then None
      else if (10 <? N.of_nat (String.length name))%N then None
      else match decimalValue name 0 with
           | Some n => if (n <? 4294967295)%N then Some n else None
           | None => None
           end
  end.

(** The place of a new array-index key among the entries: before the first
    key that is not an array index or is a larger one. *)
Fixpoint insertIndexKey (n : N) (e : string * Card)
    (cards : list (string * Card)) : list (string * Card) :=
  match cards with
  | [] => [e]
  | e0 :: rest =>
      match arrayIndex e0.1 with
      | Some n0 => if (n0 <? n)%N then e0 :: insertIndexKey n e rest
                   else e :: cards
      | None => e :: cards
      end
  end.

(** [this.abilityCards[color][name] = card], in the order of
    [Object.entries]: an existing key keeps its place, a new array-index
    key goes among the array indices, any other new key goes last.  The
    key [__proto__] that the object does not own is the setter of
    [Object.prototype]: the assignment then creates no entry. *)
Definition assignCard (name : string) (card : Card)
    (cards : list (string * Card)) : list (string * Card) :=
  match lookupCard name cards with
  | Some _ => updateCard name (λ _, card) cards
  | None =>
      if String.eqb name "__proto__" then cards
      else
        match arrayIndex name with
        | Some n => insertIndexKey n (name, card) cards
        | None => cards ++ [(name, card)]
        end
  end.

(** The message [saveCard] hands to [ws.send]. *)
Inductive CardMessage :=
  | MsgSaveCard (c : Color) (name : string) (card : Card).

(** [saveCard()]: [name] is the trimmed input, [pt] is
    [mbPieceTypes[mbPieceIndex]], [c] is [newCardData.color], [ms] and
    [ats] are [mbAddedMoves] and [mbAddedAttacks].  Returns the registry
    and the message sent, if any.  The stored card has no [enabled]
    property. *)
Definition saveCard (c : Color) (name : string) (pt : PieceType)
    (ms ats : list Offset) (r : Registry) : Registry * option CardMessage :=
  if String.eqb name "" then (r, None)
  else
    let card := mkCard pt ms ats None in
    let cards := setColor c (assignCard name card (ofColor (abilityCards r) c))
                          (abilityCards r) in
    let tbl := ofColor (customMoves r) c in
    let cur := default (mkCustom [] []) (tbl !! pt) in
    let tbl' := <[pt := mkCustom (foldl pushNew (cmoves cur) ms)
                                 (foldl pushNew (cattacks cur) ats)]> tbl in
    (mkRegistry (setColor c tbl' (customMoves r)) cards (online r) (outbox r),
     if online r then Some (MsgSaveCard c name card) else None).

(** [handleMbClick(e, isAttack)] on the pair
    [(mbAddedMoves, mbAddedAttacks)], from the cell [(x, y)] of the move
    board that its two [Math.floor] lines compute. *)
Definition handleMbClick (x y : Z) (isAttack : bool)
    (added : list Offset * list Offset) : list Offset * list Offset :=
  if (x <? 0) || (x >? 7) || (y <? 0) || (y >? 7) then added
  else
    let dx := x - 4 in
    let dy := y - 4 in
    if (dx =? 0) && (dy =? 0) then added
    else if isAttack then (added.1, pushNew added.2 (dx, dy))
    else (pushNew added.1 (dx, dy), added.2).

(** A sequence of clicks on the move board: cell, and whether it was the
    right button. *)
Definition mbClicks (cs : list (Square * bool))
    (added : list Offset * list Offset) : list Offset * list Offset :=
  foldl (λ a c, handleMbClick c.1.1 c.1.2 c.2 a) added cs.

(** What the move board can produce: no offset twice, none of them the
    null offset, each between four squares left or up and three squares
    right or down. *)
Definition boardOffsets (l : list Offset) : Prop :=
  NoDup l
  ∧ ∀ o, o ∈ l → -4 ≤ o.1 ≤ 3 ∧ -4 ≤ o.2 ≤ 3 ∧ o ≠ (0, 0).

(** No list of the table holds an offset twice. *)
Definition tableNoDup (t : CustomMoveTable) : Prop :=
  ∀ c pt cu, ofColor t c !! pt = Some cu →
             NoDup (cmoves cu) ∧ NoDup (cattacks cu).

(** ** The move board's preview of the standard moves *)

(** The closure [addMove] of [getStandardMoves]. *)
Definition addPreview (moves : list Square) (sq : Square) : list Square :=
  if (0 <=? sq.1) && (sq.1 <? 8) && (0 <=? sq.2) && (sq.2 <? 8)
  then moves ++ [sq] else moves.

(** [getStandardMoves(type, px, py).moves]; [mbColor] is [this.mbColor]. *)
Definition getStandardMoves (mbColor : Color) (t : PieceType) (px py : Z)
    : list Square :=
  let moves :=
    match t with
    | Pawn =>
        let dir := match mbColor with White => -1 | Black => 1 end in
        foldl addPreview [] [(px, py + dir); (px, py + 2 * dir)]
    | Rook =>
        foldl addPreview []
          (i ← seqZ 1 7; [(px + i, py); (px - i, py); (px, py + i); (px, py - i)])
    | Knight =>
        foldl addPreview []
          ((λ d : Offset, (px + d.1, py + d.2)) <$>
             [(-2,-1); (-2,1); (-1,-2); (-1,2); (1,-2); (1,2); (2,-1); (2,1)])
    | Bishop =>
        foldl addPreview []
          (i ← seqZ 1 7; [(px + i, py + i); (px - i, py - i);
                          (px + i, py - i); (px - i, py + i)])
    | Queen =>
        foldl addPreview []
          (i ← seqZ 1 7; [(px + i, py); (px - i, py); (px, py + i); (px, py - i);
                          (px + i, py + i); (px - i, py - i);
                          (px + i, py - i); (px - i, py + i)])
    | King =>
        foldl addPreview []
          ((λ d : Offset, (px + d.1, py + d.2)) <$>
             [(-1,-1); (-1,0); (-1,1); (0,-1); (0,1); (1,-1); (1,0); (1,1)])
    end in
  List.filter (λ sq, negb ((sq.1 =? px) && (sq.2 =? py))) moves.

(** Two lists of squares with the same elements. *)
Definition sameSquares (l1 l2 : list Square) : bool :=
  forallb (λ s, hasSquare s l2) l1 && forallb (λ s, hasSquare s l1) l2.

(** The pieces the preview can stand for: any piece but a pawn, and a pawn
    of the preview colour that has not moved and has both pushes on the
    board. *)
Definition previewable (mbColor : Color) (piece : Piece) (py : Z) : bool :=
  match type piece with
  | Pawn => bool_decide (color piece = mbColor) && negb (moved piece)
            && (2 <=? py) && (py <=? 5)
  | _ => true
  end.

(** The preview against [getPieceMoves] for the piece alone on the board,
    on every square and for every piece. *)
Definition previewAgrees : bool :=
  forallb (λ sq : Square,
    forallb (λ mbColor : Color,
      forallb (λ piece : Piece,
        let hb := place [(sq, piece)] in
        let r := getPieceMoves hb.1 hb.2 sq.1 sq.2 in
        negb (previewable mbColor piece sq.2)
        || (sameSquares (getStandardMoves mbColor (type piece) sq.1 sq.2) r.1
            && bool_decide (r.2 = [])))
        (c ← [White; Black];
         t ← [Pawn; Rook; Knight; Bishop; Queen; King];
         m ← [false; true]; [mkPiece c t m]))
      [White; Black])
    allSquares.

(** ** Reconnecting *)

(** The fields of [this] that [connectWebSocket] and [attemptReconnect]
    use; [scheduled] lists the delays handed to [setTimeout], oldest
    first. *)
Record Connection := mkConnection {
  reconnectAttempts : Z;
  maxReconnectAttempts : Z;
  baseReconnectDelay : Z;
  isReconnecting : bool;
  scheduled : list Z
}.

(** The values the constructor sets. *)
Definition newConnection : Connection := mkConnection 0 10 1000 false [].

(** [ws.onopen] *)
Definition onopen (s : Connection) : Connection :=
  mkConnection 0 (maxReconnectAttempts s) (baseReconnectDelay s) false
               (scheduled s).

(** [attemptReconnect()] up to the call of [setTimeout].  The counter is
    only ever reset to 0 or incremented, so the exponent is not negative
    and [Math.pow] gives an integer. *)
Definition attemptReconnect (s : Connection) : Connection :=
  let n := reconnectAttempts s + 1 in
  mkConnection n (maxReconnectAttempts s) (baseReconnectDelay s) true
    (scheduled s ++ [Z.min (baseReconnectDelay s * 2 ^ (n - 1)) 30000]).

(** [ws.onclose] *)
Definition onclose (s : Connection) : Connection :=
  if negb (isReconnecting s)
     && (reconnectAttempts s <? maxReconnectAttempts s)
  then attemptReconnect s else s.

(** What the browser can deliver: a socket opened, a socket closed, a
    socket error, a reconnect timer running out.  The timer's callback
    calls [connectWebSocket], which writes none of the fields above; so
    does [ws.onerror]. *)
Inductive SocketEvent := Opened | Closed | Errored | TimerFired.

Definition socketEvent (s : Connection) (e : SocketEvent) : Connection :=
  match e with
  | Opened => onopen s
  | Closed => onclose s
  | Errored => s
  | TimerFired => s
  end.

(** The number of [Opened] events of a sequence. *)
Definition opens (evs : list SocketEvent) : nat :=
  length (List.filter (λ e, match e with Opened => true | _ => false end) evs).

(** ** A black move after [requestUndo] *)

(** 1. Nf3 Nf6 2. Ng1, click by click. *)
Definition undoClicks : list Square :=
  [(6, 7); (5, 5); (6, 0); (5, 2); (5, 5); (6, 7)].

(** The local game after these clicks and a call of [requestUndo()], which
    pops both entries of the log, with Black's knight on f6 selected. *)
Definition afterUndo : ChessGame :=
  let g := afterClicks undoClicks (startLocalGame noCards) in
  afterClicks [(5, 2)]
    (setMoveHistory (requestUndo true false (moveHistory g)).1 g).
(** * Properties *)

(** ** The embedding on known positions *)

(** 1. e4 from the initial position: the pawn has moved, Black is to move,
    nothing is reported. *)
Example opening_e2_e4 :
  let g := afterClicks [(4, 6); (4, 4)] (startLocalGame noCards) in
  getCell (heap g) (board g) 4 4 = Some (mkPiece White Pawn true)
  ∧ getCell (heap g) (board g) 4 6 = None
  ∧ currentPlayer g = Black
  ∧ status g = StatusLocalGame
  ∧ gameOverModal g = None
  ∧ moveHistory g = [mkEntry 1 "e2-e4" ""].
Proof. vm_compute. repeat split; reflexivity. Qed.

(** 1. f3 e5 2. g4 Qh4 is reported as mate, won by Black. *)
Example fools_mate :
  let g := afterClicks [(5, 6); (5, 5); (4, 1); (4, 3);
                        (6, 6); (6, 4); (3, 0); (7, 4)]
                       (startLocalGame noCards) in
  gameOverModal g = Some (Winner Black, Mate)
  ∧ moveHistory g = [mkEntry 1 "f2-f3" "e7-e5"; mkEntry 2 "g2-g4" "Qd8-h4"].
Proof. vm_compute. split; reflexivity. Qed.

(** After 1. e4 a6 2. Qh5 revision v2.7 does not offer f7-f6: the click on
    f6 only clears the selection. *)
Example pinned_pawn_stays :
  let g := afterClicks exposingClicks (startLocalGame noCards) in
  getCell (heap g) (board g) 5 1 = Some (mkPiece Black Pawn false)
  ∧ getCell (heap g) (board g) 5 2 = None
  ∧ currentPlayer g = Black.
Proof. vm_compute. repeat split; reflexivity. Qed.

(** ** The king-safety simulation restores the board *)

Section Restore.
Context (h : Heap) (c : Color).

Lemma simulate_board (from : Square) (l : loc) (to_ : Square) (b : Board) :
  b !! from = Some l → (simulate h c from l to_ b).2 = b.
Proof.
  intros Hfrom. unfold simulate; simpl.
  apply map_eq; intros k. unfold setCell.
  destruct (b !! to_) as [o|] eqn:Hto.
  - destruct (decide (k = to_)) as [-> |Hk1]; [by rewrite lookup_insert_eq|].
    rewrite lookup_insert_ne by done.
    destruct (decide (k = from)) as [-> |Hk2]; [by rewrite lookup_insert_eq|].
    rewrite !lookup_insert_ne by done. by rewrite lookup_delete_ne.
  - destruct (decide (k = to_)) as [-> |Hk1]; [by rewrite lookup_delete_eq|].
    rewrite lookup_delete_ne by done.
    destruct (decide (k = from)) as [-> |Hk2]; [by rewrite lookup_insert_eq|].
    rewrite !lookup_insert_ne by done. by rewrite lookup_delete_ne.
Qed.

Lemma simulate_result (from : Square) (l : loc) (to_ : Square) (b : Board) :
  (simulate h c from l to_ b).1 = isInCheck h (<[to_ := l]> (delete from b)) c.
Proof. reflexivity. Qed.

Lemma tryMoves_board (from : Square) (l : loc) (ms : list Square)
    (b : Board) :
  b !! from = Some l → (tryMoves h c from l ms b).2 = b.
Proof.
  intros Hfrom. induction ms as [|m ms IH]; cbn [tryMoves]; [done|].
  rewrite (simulate_board from l m b Hfrom).
  destruct (negb _); [done | exact IH].
Qed.

Lemma tryMoves_result (from : Square) (l : loc) (ms : list Square)
    (b : Board) :
  b !! from = Some l →
  (tryMoves h c from l ms b).1
  = existsb (λ m, negb (isInCheck h (<[m := l]> (delete from b)) c)) ms.
Proof.
  intros Hfrom. induction ms as [|m ms IH]; cbn [tryMoves existsb]; [done|].
  rewrite (simulate_board from l m b Hfrom), simulate_result.
  destruct (negb _); [done | exact IH].
Qed.

Lemma hasValidMovesFrom_board (sqs : list Square) (b : Board) :
  (hasValidMovesFrom h c sqs b).2 = b.
Proof.
  induction sqs as [|sq sqs IH]; cbn [hasValidMovesFrom]; [done|].
  destruct (b !! sq) as [l|] eqn:Hsq; [|exact IH].
  destruct (bool_decide _); [|exact IH].
  pose proof (tryMoves_board sq l
    ((getPieceMoves h b sq.1 sq.2).1 ++ (getPieceMoves h b sq.1 sq.2).2)
    b Hsq) as Hb.
  destruct (tryMoves _ _ _ _ _ _) as [found b'] eqn:Ht; simpl in *.
  subst b'. destruct found; [done | exact IH].
Qed.

Lemma filterSim_board (from : Square) (l : loc) (cands : list Square)
    (b : Board) (kept : list Square) :
  b !! from = Some l → (filterSim h c from l cands b kept).2 = b.
Proof.
  intros Hfrom. revert kept.
  induction cands as [|m cands IH]; intros kept; cbn [filterSim]; [done|].
  rewrite (simulate_board from l m b Hfrom). apply IH.
Qed.

Lemma filterSim_kept (from : Square) (l : loc) (cands : list Square)
    (b : Board) (kept : list Square) :
  b !! from = Some l →
  (filterSim h c from l cands b kept).1
  = kept ++ List.filter
              (λ m, negb (isInCheck h (<[m := l]> (delete from b)) c)) cands.
Proof.
  intros Hfrom. revert kept.
  induction cands as [|m cands IH]; intros kept;
    cbn [filterSim List.filter].
  - by rewrite app_nil_r.
  - rewrite (simulate_board from l m b Hfrom), IH, simulate_result.
    destruct (negb _); simpl; [by rewrite <- app_assoc | done].
Qed.
End Restore.

Lemma hasValidMoves_board (h : Heap) (b : Board) (c : Color) :
  (hasValidMoves h b c).2 = b.
Proof. apply hasValidMovesFrom_board. Qed.

Lemma isCheckmate_board (h : Heap) (b : Board) (c : Color) :
  (isCheckmate h b c).2 = b.
Proof.
  unfold isCheckmate. destruct (isInCheck h b c); simpl; [|done].
  apply hasValidMoves_board.
Qed.

Lemma isStalemate_board (h : Heap) (b : Board) (c : Color) :
  (isStalemate h b c).2 = b.
Proof.
  unfold isStalemate. destruct (isInCheck h b c); simpl; [done|].
  apply hasValidMoves_board.
Qed.

(** The report that ends a move asks all three queries and leaves the
    board, the heap and the turn alone. *)
Lemma reportPosition_frame (who mover : Color) (g : ChessGame) :
  let g' := reportPosition who mover g in
  heap g' = heap g ∧ board g' = board g
  ∧ currentPlayer g' = currentPlayer g
  ∧ moveHistory g' = moveHistory g
  ∧ pendingPromotion g' = pendingPromotion g
  ∧ promotionModalHidden g' = promotionModalHidden g
  ∧ selectedPiece g' = selectedPiece g
  ∧ lastMove g' = lastMove g.
Proof.
  cbv zeta. unfold reportPosition.
  pose proof (isCheckmate_board (heap g) (board g) who) as Hcm.
  destruct (isCheckmate (heap g) (board g) who) as [cm b1].
  cbn [fst snd] in *. subst b1.
  destruct cm; [done|].
  pose proof (isStalemate_board (heap g) (board g) who) as Hsm.
  destruct (isStalemate (heap g) (board g) who) as [sm b2].
  cbn [fst snd] in *. subst b2.
  destruct sm; [done|].
  by destruct (isInCheck (heap g) (board g) who).
Qed.

(** C9.  [hasValidMoves] and [filterMovesInCheck] move a piece on the live
    board for every candidate and write both cells back, so the board they
    leave is, cell for cell, the board they were given; the same holds for
    [isCheckmate] and [isStalemate], which call [hasValidMoves], and for the
    report after a move, which asks them and [isInCheck] in turn.
    [filterMovesInCheck] raises only when nothing is selected, before any
    write.  [isInCheck] itself contains no assignment to the board: it is
    embedded as a function of the board and returns no new one. *)
Theorem queries_restore_board (h : Heap) (b : Board) (c c' : Color)
    (g : ChessGame) :
  (hasValidMoves h b c).2 = b
  ∧ (isCheckmate h b c).2 = b
  ∧ (isStalemate h b c).2 = b
  ∧ board (reportPosition c c' g) = board g
  ∧ heap (reportPosition c c' g) = heap g
  ∧ match filterMovesInCheck g with
    | Some g' => board g' = board g ∧ heap g' = heap g
                 ∧ cells (heap g') (board g') = cells (heap g) (board g)
    | None => selectedPiece g = None
    end.
Proof.
  split; [apply hasValidMoves_board|].
  split; [apply isCheckmate_board|].
  split; [apply isStalemate_board|].
  destruct (reportPosition_frame c c' g) as (Hh & Hb & _).
  split; [exact Hb|]. split; [exact Hh|].
  unfold filterMovesInCheck.
  destruct (selectedPiece g) as [sq|]; [|done].
  destruct (board g !! sq) as [l|] eqn:Hsq; [|done].
  cbn [board heap setSelection setBoard].
  rewrite (filterSim_board _ _ sq l (validMoves g) (board g) [] Hsq).
  by rewrite (filterSim_board _ _ sq l (validAttacks g) (board g) [] Hsq).
Qed.

(** ** Checkmate, stalemate and having a move *)

(** C3.  Asked one after the other on the live board, as the handlers do,
    exactly one of [isCheckmate(color)], [isStalemate(color)] and
    [hasValidMoves(color)] answers [true], for every board and colour. *)
Theorem exactly_one_of_checkmate_stalemate_moves (h : Heap) (b : Board)
    (c : Color) :
  let cm := isCheckmate h b c in
  let sm := isStalemate h cm.2 c in
  let hv := hasValidMoves h sm.2 c in
  (cm.1 = true ∧ sm.1 = false ∧ hv.1 = false)
  ∨ (cm.1 = false ∧ sm.1 = true ∧ hv.1 = false)
  ∨ (cm.1 = false ∧ sm.1 = false ∧ hv.1 = true).
Proof.
  cbv zeta. rewrite isCheckmate_board, isStalemate_board.
  unfold isCheckmate, isStalemate.
  destruct (isInCheck h b c); simpl;
    destruct (hasValidMoves h b c).1; simpl; auto.
Qed.

(** ** Sliding pieces *)

Section Rays.
Context (h : Heap) (b : Board) (piece : Piece) (x y : Z).

Lemma clearRay_first (d : Offset) (i k : Z) :
  i ≤ k → clearRay h b x y d i k → freeAt h b x y d i.
Proof. intros Hik Hc. apply Hc. lia. Qed.

Lemma clearRay_step (d : Offset) (i k : Z) :
  freeAt h b x y d i → clearRay h b x y d (i + 1) k → clearRay h b x y d i k.
Proof.
  intros Hi Hc j Hj. destruct (decide (j = i)) as [-> |Hne]; [done|].
  apply Hc. lia.
Qed.

Lemma clearRay_tail (d : Offset) (i k : Z) :
  clearRay h b x y d i k → clearRay h b x y d (i + 1) k.
Proof. intros Hc j Hj. apply Hc. lia. Qed.

(** The loop of one ray, from any start index and accumulator. *)
Lemma slide_spec (d : Offset) (n : nat) :
  ∀ (i : Z) (acc : list Square * list Square),
    let r := slide h b piece x y d.1 d.2 n i acc in
    (∀ sq, sq ∈ r.1 ↔
           sq ∈ acc.1
           ∨ ∃ k, i ≤ k < i + Z.of_nat n ∧ sq = raySquare x y d k
                  ∧ clearRay h b x y d i k)
    ∧ (∀ sq, sq ∈ r.2 ↔
             sq ∈ acc.2
             ∨ ∃ k, i ≤ k < i + Z.of_nat n ∧ sq = raySquare x y d k
                    ∧ clearRay h b x y d i (k - 1)
                    ∧ enemyAt h b piece x y d k).
Proof.
  induction n as [|n IH]; intros i acc; cbn [slide]; cbv zeta.
  { split; intros sq; (split; [by left | intros [?|(k & ? & _)]; [done | lia]]). }
  unfold addMove.
  destruct (onBoard (x + d.1 * i) (y + d.2 * i)) eqn:Hon; cbn [negb].
  2:{ (* the square is off the board: the loop breaks *)
    cbn [fst snd].
    split; intros sq; (split; [by left|]); intros [?|(k & Hk & _ & Hrest)];
      try done; exfalso.
    - apply (clearRay_first d i k) in Hrest; [|lia].
      destruct Hrest as [Hon' _]. congruence.
    - destruct Hrest as [Hc He].
      destruct (decide (k = i)) as [-> |Hne].
      + destruct He as [Hon' _]. congruence.
      + apply (clearRay_first d i (k - 1)) in Hc; [|lia].
        destruct Hc as [Hon' _]. congruence. }
  destruct (getCell h b (x + d.1 * i) (y + d.2 * i)) as [t|] eqn:Hcell.
  - (* occupied: the loop breaks, an enemy is recorded *)
    assert (Hnofree : ∀ k, i ≤ k → ¬ clearRay h b x y d i k).
    { intros k Hk Hc. apply (clearRay_first d i k) in Hc; [|done].
      destruct Hc as [_ Hc]. congruence. }
    destruct (bool_decide (color t ≠ color piece)) eqn:Hcol; cbn [fst snd].
    + apply bool_decide_eq_true in Hcol.
      split; intros sq.
      * split; [by left|]. intros [?|(k & Hk & _ & Hc)]; [done|].
        exfalso. apply (Hnofree k); [lia | done].
      * rewrite elem_of_app, list_elem_of_singleton. split.
        -- intros [?| ->]; [by left|]. right. exists i.
           split; [lia|]. split; [done|]. split.
           ++ intros j Hj. lia.
           ++ split; [done|]. by exists t.
        -- intros [?|(k & Hk & -> & Hc & He)]; [by left|].
           destruct (decide (k = i)) as [-> |Hne]; [by right|].
           exfalso. apply (Hnofree (k - 1)); [lia | done].
    + apply bool_decide_eq_false in Hcol.
      split; intros sq; (split; [by left|]).
      * intros [?|(k & Hk & _ & Hc)]; [done|].
        exfalso. apply (Hnofree k); [lia | done].
      * intros [?|(k & Hk & _ & Hc & He)]; [done|]. exfalso.
        destruct (decide (k = i)) as [-> |Hne].
        -- destruct He as (_ & t' & Ht' & Hne').
           rewrite Hcell in Ht'. injection Ht' as <-. by apply Hcol.
        -- apply (Hnofree (k - 1)); [lia | done].
  - (* empty: the square is a move and the loop goes on *)
    cbn [fst snd].
    assert (Hfree : freeAt h b x y d i) by done.
    destruct (IH (i + 1) (acc.1 ++ [(x + d.1 * i, y + d.2 * i)], acc.2))
      as [IHm IHa].
    cbv zeta in IHm, IHa. cbn [fst snd] in IHm, IHa.
    split; intros sq.
    + rewrite IHm, elem_of_app, list_elem_of_singleton. split.
      * intros [[?| ->]|(k & Hk & -> & Hc)]; [by left| |].
        -- right. exists i. split; [lia|]. split; [done|].
           intros j Hj. by replace j with i by lia.
        -- right. exists k. split; [lia|]. split; [done|].
           by apply clearRay_step.
      * intros [?|(k & Hk & -> & Hc)]; [by left; left|].
        destruct (decide (k = i)) as [-> |Hne]; [by left; right|].
        right. exists k. split; [lia|]. split; [done|].
        by apply clearRay_tail.
    + rewrite IHa. split.
      * intros [?|(k & Hk & -> & Hc & He)]; [by left|].
        right. exists k. split; [lia|]. split; [done|]. split; [|done].
        by apply clearRay_step.
      * intros [?|(k & Hk & -> & Hc & He)]; [by left|].
        destruct (decide (k = i)) as [-> |Hne].
        -- exfalso. destruct He as (_ & t' & Ht' & _). congruence.
        -- right. exists k. split; [lia|]. split; [done|]. split; [|done].
           by apply clearRay_tail.
Qed.
End Rays.

Section AllRays.
Context (h : Heap) (b : Board) (piece : Piece) (x y : Z).

(** The [forEach] over the directions, from any accumulator. *)
Lemma slideAll_spec (dirs : list Offset) :
  ∀ acc : list Square * list Square,
    let r := slideAll h b piece x y dirs acc in
    (∀ sq, sq ∈ r.1 ↔
           sq ∈ acc.1
           ∨ ∃ d k, d ∈ dirs ∧ 1 ≤ k ≤ 7 ∧ sq = raySquare x y d k
                    ∧ clearRay h b x y d 1 k)
    ∧ (∀ sq, sq ∈ r.2 ↔
             sq ∈ acc.2
             ∨ ∃ d k, d ∈ dirs ∧ 1 ≤ k ≤ 7 ∧ sq = raySquare x y d k
                      ∧ clearRay h b x y d 1 (k - 1)
                      ∧ enemyAt h b piece x y d k).
Proof.
  unfold slideAll.
  induction dirs as [|d dirs IH]; intros acc; cbn [foldl]; cbv zeta.
  { split; intros sq; (split; [by left|]);
      intros [?|(d & k & Hd & _)]; try done; by apply elem_of_nil in Hd. }
  destruct (IH (slide h b piece x y d.1 d.2 7 1 acc)) as [IHm IHa].
  destruct (slide_spec h b piece x y d 7 1 acc) as [Sm Sa].
  cbv zeta in IHm, IHa, Sm, Sa.
  split; intros sq.
  - rewrite IHm, Sm. split.
    + intros [[?|(k & Hk & Hsq & Hc)]|(d' & k & Hd & Hrest)].
      * by left.
      * right. exists d, k. split; [apply elem_of_cons; by left|].
        split; [lia | done].
      * right. exists d', k. split; [apply elem_of_cons; by right | done].
    + intros [?|(d' & k & Hd & Hk & Hsq & Hc)]; [by left; left|].
      apply elem_of_cons in Hd as [-> |Hd].
      * left; right. exists k. split; [lia | done].
      * right. by exists d', k.
  - rewrite IHa, Sa. split.
    + intros [[?|(k & Hk & Hsq & Hc)]|(d' & k & Hd & Hrest)].
      * by left.
      * right. exists d, k. split; [apply elem_of_cons; by left|].
        split; [lia | done].
      * right. exists d', k. split; [apply elem_of_cons; by right | done].
    + intros [?|(d' & k & Hd & Hk & Hsq & Hc)]; [by left; left|].
      apply elem_of_cons in Hd as [-> |Hd].
      * left; right. exists k. split; [lia | done].
      * right. by exists d', k.
Qed.
End AllRays.

Lemma rays_queenDirs (t : PieceType) (d : Offset) :
  d ∈ rays t → d ∈ queenDirs.
Proof.
  destruct t; cbn [rays]; unfold rookDirs, bishopDirs, queenDirs;
    rewrite ?elem_of_cons, ?elem_of_nil; tauto.
Qed.

(** Two squares on rays of the same origin coincide only when they are the
    same step of the same ray. *)
Lemma raySquare_inj (x y : Z) (d d' : Offset) (k k' : Z) :
  d ∈ queenDirs → d' ∈ queenDirs → 1 ≤ k ≤ 7 → 1 ≤ k' ≤ 7 →
  raySquare x y d k = raySquare x y d' k' → d = d' ∧ k = k'.
Proof.
  unfold queenDirs, raySquare. intros Hd Hd' Hk Hk' Heq.
  injection Heq as H1 H2.
  repeat (apply elem_of_cons in Hd as [-> |Hd]);
    try (by apply elem_of_nil in Hd);
    repeat (apply elem_of_cons in Hd' as [-> |Hd']);
    try (by apply elem_of_nil in Hd');
    cbn [fst snd] in H1, H2;
    first [ split; [reflexivity | lia] | exfalso; lia ].
Qed.

Lemma baseMoves_slider (h : Heap) (b : Board) (piece : Piece) (x y : Z) :
  type piece = Rook ∨ type piece = Bishop ∨ type piece = Queen →
  baseMoves h b piece x y = slideAll h b piece x y (rays (type piece)) ([], []).
Proof. unfold baseMoves. by intros [-> |[-> | ->]]. Qed.

(** C7.  For a rook, bishop or queen on [(x, y)] and each of its rays: the
    [k]-th square of the ray is a generated move exactly when the squares
    [1..k] of the ray are all on the board and empty, and a generated
    attack exactly when the squares [1..k-1] are on the board and empty and
    the [k]-th holds a piece of the other colour; so the walk takes every
    empty square up to the first occupied one, stops there, and keeps that
    square only if its occupant is an enemy.  Nothing but ray squares is
    generated, and [calculateValidMoves] computes the same two lists when
    the custom move table has no entry for the piece. *)
Theorem sliding_rays_stop_at_first_piece (h : Heap) (b : Board) (x y : Z)
    (piece : Piece) :
  getCell h b x y = Some piece →
  type piece = Rook ∨ type piece = Bishop ∨ type piece = Queen →
  let r := getPieceMoves h b x y in
  (∀ d k, d ∈ rays (type piece) → 1 ≤ k ≤ 7 →
     (raySquare x y d k ∈ r.1 ↔ clearRay h b x y d 1 k)
     ∧ (raySquare x y d k ∈ r.2 ↔
        clearRay h b x y d 1 (k - 1) ∧ enemyAt h b piece x y d k))
  ∧ (∀ sq, sq ∈ r.1 ++ r.2 →
       ∃ d k, d ∈ rays (type piece) ∧ 1 ≤ k ≤ 7 ∧ sq = raySquare x y d k)
  ∧ (∀ cm : CustomMoveTable,
       ofColor cm (color piece) !! type piece = None →
       augmentedMoves h b cm piece x y = r).
Proof.
  intros Hcell Hty. cbv zeta. unfold getPieceMoves, augmentedMoves.
  rewrite Hcell, (baseMoves_slider h b piece x y Hty).
  destruct (slideAll_spec h b piece x y (rays (type piece)) ([], []))
    as [Sm Sa].
  cbv zeta in Sm, Sa. cbn [fst snd] in Sm, Sa.
  split; [|split].
  - intros d k Hd Hk. split.
    + rewrite Sm. split.
      * intros [Hnil|(d' & k' & Hd' & Hk' & Heq & Hc)];
          [by apply elem_of_nil in Hnil|].
        apply raySquare_inj in Heq as [-> ->];
          eauto using rays_queenDirs.
      * intros Hc. right. by exists d, k.
    + rewrite Sa. split.
      * intros [Hnil|(d' & k' & Hd' & Hk' & Heq & Hc)];
          [by apply elem_of_nil in Hnil|].
        apply raySquare_inj in Heq as [-> ->];
          eauto using rays_queenDirs.
      * intros Hc. right. by exists d, k.
  - intros sq Hsq. apply elem_of_app in Hsq as [Hsq|Hsq].
    + apply Sm in Hsq as [Hnil|(d & k & Hd & Hk & Heq & _)];
        [by apply elem_of_nil in Hnil|]. by exists d, k.
    + apply Sa in Hsq as [Hnil|(d & k & Hd & Hk & Heq & _)];
        [by apply elem_of_nil in Hnil|]. by exists d, k.
  - intros cm Hcm. by rewrite Hcm.
Qed.

Lemma sliding_rays_witness :
  getCell (place rookPosition).1 (place rookPosition).2 0 7
  = Some (mkPiece White Rook true)
  ∧ (raySquare 0 7 (1, 0) 3
       ∈ (getPieceMoves (place rookPosition).1 (place rookPosition).2 0 7).2
     ↔ clearRay (place rookPosition).1 (place rookPosition).2 0 7 (1, 0) 1 (3 - 1)
       ∧ enemyAt (place rookPosition).1 (place rookPosition).2
                 (mkPiece White Rook true) 0 7 (1, 0) 3).
Proof.
  split; [vm_compute; reflexivity|].
  refine (proj2 (proj1 (sliding_rays_stop_at_first_piece
            (place rookPosition).1 (place rookPosition).2 0 7
            (mkPiece White Rook true) _ _) (1, 0) 3 _ _)).
  - vm_compute; reflexivity.
  - left; reflexivity.
  - apply elem_of_cons; right. apply elem_of_cons; right.
    apply elem_of_cons; left. reflexivity.
  - lia.
Defined.

(** ** Check *)

Lemma hasSquare_elem (sq : Square) (l : list Square) :
  hasSquare sq l = true ↔ sq ∈ l.
Proof.
  unfold hasSquare. rewrite existsb_exists. split.
  - intros (m & Hin & Heq). apply andb_true_iff in Heq as [H1 H2].
    apply Z.eqb_eq in H1, H2. apply list_elem_of_In in Hin.
    destruct m as [m1 m2], sq as [s1 s2]; simpl in *. by subst.
  - intros Hin. exists sq. split; [by apply list_elem_of_In|].
    by rewrite !Z.eqb_refl.
Qed.

Lemma findKing_holds_king (h : Heap) (b : Board) (c : Color) (k : Square) :
  findKing h b c = Some k →
  ∃ p, getCell h b k.1 k.2 = Some p ∧ type p = King ∧ color p = c.
Proof.
  unfold findKing. intros Hf. apply find_some in Hf as [_ Hf].
  destruct (getCell h b k.1 k.2) as [p|]; [|done].
  apply andb_true_iff in Hf as [H1 H2].
  apply bool_decide_eq_true in H1, H2. by exists p.
Qed.

(** C1, as the code has it.  [isInCheck(color)] answers [true] exactly
    when the first king of that colour in scan order stands on a square
    that [getPieceMoves] lists among the attacks of some piece of the other
    colour.  [getPieceMoves] is base geometry only: the custom move table
    is not an input of [isInCheck]. *)
Theorem isInCheck_iff_base_attack (h : Heap) (b : Board) (c : Color) :
  isInCheck h b c = true ↔
  ∃ k sq p,
    findKing h b c = Some k
    ∧ sq ∈ allSquares
    ∧ getCell h b sq.1 sq.2 = Some p
    ∧ color p = otherColor c
    ∧ k ∈ (getPieceMoves h b sq.1 sq.2).2.
Proof.
  unfold isInCheck. destruct (findKing h b c) as [k|] eqn:Hk.
  - rewrite existsb_exists. split.
    + intros (sq & Hin & Hatt). unfold attacksSquare in Hatt.
      destruct (getCell h b sq.1 sq.2) as [p|] eqn:Hp; [|done].
      apply andb_true_iff in Hatt as [Hc Hs].
      apply bool_decide_eq_true in Hc. apply hasSquare_elem in Hs.
      exists k, sq, p. by rewrite list_elem_of_In.
    + intros (k' & sq & p & Hk' & Hin & Hp & Hc & Hs).
      injection Hk' as <-. exists sq. split; [by apply list_elem_of_In|].
      unfold attacksSquare. rewrite Hp. apply andb_true_iff. split.
      * by apply bool_decide_eq_true.
      * by apply hasSquare_elem.
  - split; [done|]. by intros (k' & sq & p & Hk' & _).
Qed.

(** C1, as stated, fails: in [leapGame] an enabled card lets the black
    knight on a8 attack e1, where the white king stands, yet [isInCheck]
    answers [false] for White. *)
Lemma checkCountsCards_counterexample : ¬ checkCountsCards leapGame White.
Proof.
  unfold checkCountsCards. intros [_ Hcards].
  assert (Hchk : isInCheck (heap leapGame) (board leapGame) White = true).
  { apply Hcards. exists (4, 7), (0, 0), (mkPiece Black Knight false).
    split; [vm_compute; reflexivity|].
    split; [apply hasSquare_elem; vm_compute; reflexivity|].
    split; [vm_compute; reflexivity|].
    split; [reflexivity|].
    apply hasSquare_elem. vm_compute. reflexivity. }
  vm_compute in Hchk. discriminate Hchk.
Qed.

(** ** King capture *)

(** C6.  When the clicked destination of an accepted local move holds a
    king, [handleLocalClick] records a win for the colour of the moving
    piece, shows the game-over modal with the reason "king eaten" and
    returns: the board, the heap, the side to move, the selection, the
    move log and the status line are left as they were, and no check,
    checkmate or stalemate query is made.  The test is on the type of the
    captured piece alone, so it covers the opponent's king in particular. *)
Theorem king_capture_ends_game (g : ChessGame) (sx sy x y : Z) (l k : loc) :
  selectedPiece g = Some (sx, sy) →
  hasSquare (x, y) (validMoves g) || hasSquare (x, y) (validAttacks g) = true →
  board g !! (sx, sy) = Some l →
  board g !! (x, y) = Some k →
  type (heap g !!! k) = King →
  color (heap g !!! k) = otherColor (color (heap g !!! l)) →
  let mover := color (heap g !!! l) in
  handleLocalClick x y g = Done (endGame (Winner mover) KingEaten g)
  ∧ gameOverModal (endGame (Winner mover) KingEaten g)
    = Some (Winner mover, KingEaten)
  ∧ stats (endGame (Winner mover) KingEaten g)
    = recordResult (Winner mover) (stats g)
  ∧ board (endGame (Winner mover) KingEaten g) = board g
  ∧ heap (endGame (Winner mover) KingEaten g) = heap g
  ∧ currentPlayer (endGame (Winner mover) KingEaten g) = currentPlayer g
  ∧ moveHistory (endGame (Winner mover) KingEaten g) = moveHistory g
  ∧ status (endGame (Winner mover) KingEaten g) = status g.
Proof.
  intros Hsel Hdest Hl Hk Hking _. cbv zeta.
  split; [|done].
  unfold handleLocalClick. rewrite Hsel, Hdest.
  unfold commitMove. rewrite Hk, Hl, Hking.
  by rewrite bool_decide_eq_true_2.
Qed.

Lemma king_capture_witness :
  selectedPiece rookTakesKing = Some (0, 0)
  ∧ hasSquare (4, 0) (validMoves rookTakesKing)
    || hasSquare (4, 0) (validAttacks rookTakesKing) = true
  ∧ board rookTakesKing !! (0, 0) = Some 1%positive
  ∧ board rookTakesKing !! (4, 0) = Some 2%positive
  ∧ handleLocalClick 4 0 rookTakesKing
    = Done (endGame (Winner (color (heap rookTakesKing !!! 1%positive)))
                    KingEaten rookTakesKing).
Proof.
  split; [vm_compute; reflexivity|].
  split; [vm_compute; reflexivity|].
  split; [vm_compute; reflexivity|].
  split; [vm_compute; reflexivity|].
  refine (proj1 (king_capture_ends_game rookTakesKing 0 0 4 0
                   1%positive 2%positive _ _ _ _ _ _));
    vm_compute; reflexivity.
Defined.

(** ** Promotion *)

(** A click on a piece that is not of the side to move, outside the
    destination lists, only clears the selection. *)
Lemma other_side_not_selectable (g : ChessGame) (x y : Z) (q : Piece) :
  getCell (heap g) (board g) x y = Some q →
  color q ≠ currentPlayer g →
  hasSquare (x, y) (validMoves g) || hasSquare (x, y) (validAttacks g) = false →
  handleLocalClick x y g = Done (deselectPiece g).
Proof.
  intros Hq Hcol Hdest. unfold handleLocalClick.
  assert (Hsel : selectOrDeselect x y g = Done (deselectPiece g)).
  { unfold selectOrDeselect. rewrite Hq. by rewrite bool_decide_eq_false_2. }
  destruct (selectedPiece g) as [[sx sy]|]; [|done]. by rewrite Hdest.
Qed.

(** The promotion branch of [handleLocalClick]. *)
Lemma commitMove_promotion (g : ChessGame) (sx sy x y : Z) (l : loc) :
  selectedPiece g = Some (sx, sy) →
  hasSquare (x, y) (validMoves g) || hasSquare (x, y) (validAttacks g) = true →
  board g !! (sx, sy) = Some l →
  type (heap g !!! l) = Pawn →
  y = 0 ∨ y = 7 →
  (∀ k, board g !! (x, y) = Some k → type (heap g !!! k) ≠ King) →
  handleLocalClick x y g
  = Done (setPromotion (Some (mkPending x y l (sx, sy) (board g !! (x, y))))
            false
            (setLastMove (Some ((sx, sy), (x, y)))
               (setHeap (<[l := setMoved (heap g !!! l)]> (heap g))
                  (setBoard (<[(x, y) := l]> (delete (sx, sy) (board g)))
                     g)))).
Proof.
  intros Hsel Hdest Hl Hpawn Hy Hnoking.
  assert (Hrank : ((y =? 0) || (y =? 7)) = true).
  { destruct Hy as [-> | ->]; reflexivity. }
  assert (Hk : match board g !! (x, y) with
               | Some k => bool_decide (type (heap g !!! k) = King)
               | None => false
               end = false).
  { destruct (board g !! (x, y)) as [k|] eqn:Hk; [|reflexivity].
    apply bool_decide_eq_false_2. by apply Hnoking. }
  unfold handleLocalClick. rewrite Hsel, Hdest. unfold commitMove.
  rewrite Hl, Hk. cbn [setCell heap setLastMove setHeap setBoard].
  rewrite lookup_total_insert_eq. cbn [type setMoved].
  rewrite Hpawn, Hrank, bool_decide_eq_true_2 by reflexivity.
  reflexivity.
Qed.

(** What [selectPromotion] writes when a promotion is pending. *)
Lemma selectPromotion_frame (t : PieceType) (g : ChessGame) (pend : Pending) :
  pendingPromotion g = Some pend →
  heap (selectPromotion t g)
  = <[pendPiece pend := setType t (heap g !!! pendPiece pend)]> (heap g)
  ∧ board (selectPromotion t g) = board g
  ∧ currentPlayer (selectPromotion t g) = otherColor (currentPlayer g)
  ∧ pendingPromotion (selectPromotion t g) = None
  ∧ promotionModalHidden (selectPromotion t g) = true
  ∧ moveHistory (selectPromotion t g)
    = addMoveToHistory (pendFrom pend) (pendX pend, pendY pend)
        (setType t (heap g !!! pendPiece pend))
        (bool_decide (is_Some (pendCaptured pend))) (moveHistory g).
Proof.
  intros Hpend. unfold selectPromotion. rewrite Hpend.
  match goal with
  | |- context [reportPosition ?w ?m ?g0] =>
      destruct (reportPosition_frame w m g0)
        as (Hh & Hb & Hc & Hm & Hp & Hmod & _);
      revert Hh Hb Hc Hm Hp Hmod;
      generalize (reportPosition w m g0)
  end.
  intros g5 Hh Hb Hc Hm Hp Hmod.
  cbn [heap board currentPlayer moveHistory pendingPromotion
       promotionModalHidden setSelection].
  rewrite Hh, Hb, Hc, Hm, Hp, Hmod.
  cbn [heap board currentPlayer moveHistory pendingPromotion
       promotionModalHidden setCurrentPlayer setPromotion
       setMoveHistory setHeap].
  rewrite lookup_total_insert_eq. done.
Qed.

(** C5, the part the handlers carry out.  When an accepted local move puts
    a pawn on [y = 0] or [y = 7] without taking a king, [handleLocalClick]
    relocates the pawn, marks it moved, records [pendingPromotion], shows
    the promotion modal and returns with the side to move and the move log
    unchanged and the piece still a pawn.  In that state a click on a piece
    of the other side, outside the destination lists left over from the
    pawn, only clears the selection.  [selectPromotion(t)] then overwrites
    the type of that same piece object with [t], leaves the board's cells
    where they are, logs the move, hides the modal and passes the turn. *)
Theorem promotion_pending_then_chosen (g : ChessGame) (sx sy x y : Z)
    (l : loc) (t : PieceType) :
  selectedPiece g = Some (sx, sy) →
  hasSquare (x, y) (validMoves g) || hasSquare (x, y) (validAttacks g) = true →
  board g !! (sx, sy) = Some l →
  type (heap g !!! l) = Pawn →
  y = 0 ∨ y = 7 →
  (∀ k, board g !! (x, y) = Some k → type (heap g !!! k) ≠ King) →
  ∃ g',
    handleLocalClick x y g = Done g'
    ∧ pendingPromotion g'
      = Some (mkPending x y l (sx, sy) (board g !! (x, y)))
    ∧ promotionModalHidden g' = false
    ∧ currentPlayer g' = currentPlayer g
    ∧ moveHistory g' = moveHistory g
    ∧ board g' = <[(x, y) := l]> (delete (sx, sy) (board g))
    ∧ heap g' = <[l := mkPiece (color (heap g !!! l)) Pawn true]> (heap g)
    ∧ (∀ x' y' q,
         getCell (heap g') (board g') x' y' = Some q →
         color q ≠ currentPlayer g' →
         hasSquare (x', y') (validMoves g')
         || hasSquare (x', y') (validAttacks g') = false →
         handleLocalClick x' y' g' = Done (deselectPiece g'))
    ∧ heap (selectPromotion t g')
      = <[l := mkPiece (color (heap g !!! l)) t true]> (heap g')
    ∧ board (selectPromotion t g') = board g'
    ∧ currentPlayer (selectPromotion t g') = otherColor (currentPlayer g)
    ∧ pendingPromotion (selectPromotion t g') = None
    ∧ promotionModalHidden (selectPromotion t g') = true
    ∧ moveHistory (selectPromotion t g')
      = addMoveToHistory (sx, sy) (x, y)
          (mkPiece (color (heap g !!! l)) t true)
          (bool_decide (is_Some (board g !! (x, y)))) (moveHistory g).
Proof.
  intros Hsel Hdest Hl Hpawn Hy Hnoking.
  pose proof (commitMove_promotion g sx sy x y l Hsel Hdest Hl Hpawn Hy
                Hnoking) as Hcommit.
  eexists. split; [exact Hcommit|].
  assert (Hmoved : setMoved (heap g !!! l)
                   = mkPiece (color (heap g !!! l)) Pawn true).
  { unfold setMoved. by rewrite Hpawn. }
  split; [reflexivity|]. split; [reflexivity|]. split; [reflexivity|].
  split; [reflexivity|]. split; [reflexivity|].
  split; [cbn [heap setPromotion setLastMove setHeap]; by rewrite Hmoved|].
  split; [intros x' y' q Hq Hcol Hd;
          by apply (other_side_not_selectable _ x' y' q)|].
  match goal with
  | |- context [selectPromotion t ?g0] =>
      destruct (selectPromotion_frame t g0 _ eq_refl)
        as (Hh & Hb & Hc & Hp & Hmod & Hm)
  end.
  rewrite Hh, Hb, Hc, Hp, Hmod, Hm.
  cbn [heap board currentPlayer moveHistory pendPiece pendX pendY pendFrom
       pendCaptured setPromotion setLastMove setHeap setBoard].
  rewrite lookup_total_insert_eq, Hmoved. cbn [setType color moved].
  done.
Qed.

Lemma promotion_pending_witness :
  selectedPiece pawnSelected = Some (0, 1)
  ∧ hasSquare (0, 0) (validMoves pawnSelected)
    || hasSquare (0, 0) (validAttacks pawnSelected) = true
  ∧ board pawnSelected !! (0, 1) = Some 1%positive
  ∧ type (heap pawnSelected !!! 1%positive) = Pawn
  ∧ ∃ g', handleLocalClick 0 0 pawnSelected = Done g'
          ∧ currentPlayer g' = White
          ∧ type (heap g' !!! 1%positive) = Pawn
          ∧ currentPlayer (selectPromotion Queen g') = Black
          ∧ heap (selectPromotion Queen g') !!! 1%positive
            = mkPiece White Queen true.
Proof.
  split; [vm_compute; reflexivity|].
  split; [vm_compute; reflexivity|].
  split; [vm_compute; reflexivity|].
  split; [vm_compute; reflexivity|].
  destruct (promotion_pending_then_chosen pawnSelected 0 1 0 0 1%positive Queen)
    as (g' & Hclick & _ & _ & Hcur & _ & _ & Hheap & _ & Hheap' & _ & Hcur' & _).
  - vm_compute; reflexivity.
  - vm_compute; reflexivity.
  - vm_compute; reflexivity.
  - vm_compute; reflexivity.
  - left; reflexivity.
  - intros k Hk. vm_compute in Hk. discriminate Hk.
  - exists g'. split; [exact Hclick|].
    split; [rewrite Hcur; vm_compute; reflexivity|].
    split; [rewrite Hheap, lookup_total_insert_eq; reflexivity|].
    split; [rewrite Hcur'; vm_compute; reflexivity|].
    rewrite Hheap', lookup_total_insert_eq. vm_compute; reflexivity.
Defined.

(** C5, where the code departs from it.  A local game is played from the
    initial position, click by click: 1. a4 b5 2. axb5 a6 3. b6 a5 4. bxc7
    a4 5. cxd8.  Every click returns, White's pawn stands on d8 with the
    promotion pending and White to move.  No promotion piece is chosen;
    [handleLocalClick] does not test [pendingPromotion], so h2-h3 is
    accepted and the turn passes to Black, and Ke8xd8 is accepted and takes
    the pawn, which is still a pawn; [pendingPromotion] stays set.
    [selectPromotion] called afterwards leaves the black king on d8 and
    gives the turn, which was White's, to Black again. *)
Theorem pending_promotion_turn_passes :
  clicks handleLocalClick promotionClicks (startLocalGame noCards)
  = Done promotionReached
  ∧ pendingPromotion promotionReached
    = Some (mkPending 3 0 3%positive (2, 1) (Some 13%positive))
  ∧ currentPlayer promotionReached = White
  ∧ getCell (heap promotionReached) (board promotionReached) 3 0
    = Some (mkPiece White Pawn true)
  ∧ currentPlayer (afterClicks (take 2 pendingClicks) promotionReached)
    = Black
  ∧ clicks handleLocalClick pendingClicks promotionReached
    = Done movedWhilePending
  ∧ getCell (heap movedWhilePending) (board movedWhilePending) 3 0
    = Some (mkPiece Black King true)
  ∧ heap movedWhilePending !!! 3%positive = mkPiece White Pawn true
  ∧ lastNotation Black (moveHistory movedWhilePending) = Some "Ke8xd8"
  ∧ pendingPromotion movedWhilePending = pendingPromotion promotionReached
  ∧ currentPlayer movedWhilePending = White
  ∧ currentPlayer (selectPromotion Queen movedWhilePending) = Black
  ∧ getCell (heap (selectPromotion Queen movedWhilePending))
            (board (selectPromotion Queen movedWhilePending)) 3 0
    = Some (mkPiece Black King true)
  ∧ ¬ promotionHoldsTurn promotionReached.
Proof.
  split; [vm_compute; reflexivity|].
  split; [vm_compute; reflexivity|].
  split; [vm_compute; reflexivity|].
  split; [vm_compute; reflexivity|].
  split; [vm_compute; reflexivity|].
  split; [vm_compute; reflexivity|].
  split; [vm_compute; reflexivity|].
  split; [vm_compute; reflexivity|].
  split; [vm_compute; reflexivity|].
  split; [vm_compute; reflexivity|].
  split; [vm_compute; reflexivity|].
  split; [vm_compute; reflexivity|].
  split; [vm_compute; reflexivity|].
  intros Hturn.
  assert (Hrun : clicks handleLocalClick (take 2 pendingClicks)
                   promotionReached
                 = Done (afterClicks (take 2 pendingClicks) promotionReached))
    by (vm_compute; reflexivity).
  apply Hturn in Hrun. vm_compute in Hrun. discriminate Hrun.
Qed.
(** ** Ability cards *)

Lemma ofColor_setColor {A} (c : Color) (v : A) (p : PerColor A) :
  ofColor (setColor c v p) c = v.
Proof. by destruct c. Qed.

Lemma setColor_setColor {A} (c : Color) (v w : A) (p : PerColor A) :
  setColor c v (setColor c w p) = setColor c v p.
Proof. by destruct c. Qed.

Lemma setColor_ofColor {A} (c : Color) (p : PerColor A) :
  setColor c (ofColor p c) p = p.
Proof. by destruct c, p. Qed.

Lemma lookupCard_updateCard (name : string) (f : Card → Card)
    (cards : list (string * Card)) :
  lookupCard name (updateCard name f cards) = f <$> lookupCard name cards.
Proof.
  unfold lookupCard.
  induction cards as [|e cards IH]; cbn [updateCard find]; [done|].
  destruct (bool_decide (e.1 = name)) eqn:He.
  - cbn [find fst]. by rewrite He.
  - cbn [find]. by rewrite He.
Qed.

Lemma updateCard_updateCard (name : string) (f k : Card → Card)
    (cards : list (string * Card)) :
  updateCard name f (updateCard name k cards)
  = updateCard name (f ∘ k) cards.
Proof.
  induction cards as [|e cards IH]; cbn [updateCard]; [done|].
  destruct (bool_decide (e.1 = name)) eqn:He; cbn [updateCard fst snd].
  - by rewrite He.
  - by rewrite He, IH.
Qed.

Lemma addCard_sameContribution (tbl : gmap PieceType Custom) (n n' : string)
    (d d' : Card) :
  sameContribution d d' → addCard tbl (n, d) = addCard tbl (n', d').
Proof.
  intros (Ht & Hm & Ha & He). unfold addCard. cbn [snd].
  by rewrite Ht, Hm, Ha, He.
Qed.

Lemma foldl_addCard_updateCard (name : string) (f : Card → Card)
    (cards : list (string * Card)) :
  (∀ d, lookupCard name cards = Some d → sameContribution (f d) d) →
  ∀ tbl, foldl addCard tbl (updateCard name f cards) = foldl addCard tbl cards.
Proof.
  unfold lookupCard.
  induction cards as [|e cards IH]; intros Hf tbl;
    cbn [updateCard foldl]; [done|].
  cbn [find] in Hf.
  destruct (bool_decide (e.1 = name)) eqn:He; cbn [foldl].
  - f_equal. destruct e as [n d]. apply addCard_sameContribution.
    by apply Hf.
  - by apply IH.
Qed.

Lemma toggle_twice_sameContribution (d : Card) :
  sameContribution
    ((setEnabled (Some (toggleEnabled (Some (toggleEnabled (enabled d)))))
      ∘ setEnabled (Some (toggleEnabled (enabled d)))) d) d.
Proof. by destruct d as [pt ms ats [[]|]]. Qed.

Lemma toggleCard_unknown (c : Color) (name : string) (r : Registry) :
  lookupCard name (ofColor (abilityCards r) c) = None →
  toggleCard c name r = r.
Proof. intros Hcard. unfold toggleCard. by rewrite Hcard. Qed.

Lemma toggleCard_online (c : Color) (name : string) (r : Registry)
    (card : Card) :
  lookupCard name (ofColor (abilityCards r) c) = Some card →
  online r = true →
  toggleCard c name r
  = mkRegistry (customMoves r)
      (setColor c (updateCard name
                     (setEnabled (Some (toggleEnabled (enabled card))))
                     (ofColor (abilityCards r) c))
                (abilityCards r))
      true
      (outbox r ++ [MsgToggleCard c name (toggleEnabled (enabled card))]).
Proof. intros Hcard Hon. unfold toggleCard. by rewrite Hcard, Hon. Qed.

Lemma toggleCard_local (c : Color) (name : string) (r : Registry)
    (card : Card) :
  lookupCard name (ofColor (abilityCards r) c) = Some card →
  online r = false →
  toggleCard c name r
  = mkRegistry
      (derivedTable
         (setColor c (updateCard name
                        (setEnabled (Some (toggleEnabled (enabled card))))
                        (ofColor (abilityCards r) c))
                   (abilityCards r)))
      (setColor c (updateCard name
                     (setEnabled (Some (toggleEnabled (enabled card))))
                     (ofColor (abilityCards r) c))
                (abilityCards r))
      false (outbox r).
Proof. intros Hcard Hon. unfold toggleCard. by rewrite Hcard, Hon. Qed.

(** C4.  In a registry whose table is the one derived from its cards,
    [toggleCard(color, name)] applied twice leaves the custom move table as
    it was: locally each call rebuilds the table from the cards that are not
    disabled, and the second call undoes the flag change of the first; with
    an open connection neither call touches the table; for an unknown name
    both calls return at once. *)
Theorem toggleCard_twice_restores_table (r : Registry) (c : Color)
    (name : string) :
  customMoves r = derivedTable (abilityCards r) →
  customMoves (toggleCard c name (toggleCard c name r)) = customMoves r.
Proof.
  intros Hderived.
  destruct (lookupCard name (ofColor (abilityCards r) c)) as [card|] eqn:Hcard.
  2:{ by rewrite !(toggleCard_unknown c name r Hcard). }
  destruct (online r) eqn:Hon.
  - rewrite (toggleCard_online c name r card Hcard Hon).
    erewrite toggleCard_online; [reflexivity| |reflexivity].
    cbn [abilityCards]. rewrite ofColor_setColor, lookupCard_updateCard.
    by rewrite Hcard.
  - rewrite (toggleCard_local c name r card Hcard Hon).
    erewrite toggleCard_local; [| |reflexivity].
    2:{ cbn [abilityCards]. rewrite ofColor_setColor, lookupCard_updateCard.
        by rewrite Hcard. }
    cbn [customMoves abilityCards enabled setEnabled].
    rewrite ofColor_setColor, setColor_setColor, updateCard_updateCard, Hderived.
    assert (Hsame : rebuildColor
              (updateCard name
                 (setEnabled (Some (toggleEnabled (Some (toggleEnabled (enabled card)))))
                  ∘ setEnabled (Some (toggleEnabled (enabled card))))
                 (ofColor (abilityCards r) c))
            = rebuildColor (ofColor (abilityCards r) c)).
    { apply foldl_addCard_updateCard. intros d Hd.
      rewrite Hcard in Hd. injection Hd as <-.
      apply toggle_twice_sameContribution. }
    unfold derivedTable. destruct c; cbn [setColor white black ofColor] in *;
      by rewrite Hsame.
Qed.

Lemma toggleCard_twice_witness :
  customMoves leapRegistry = derivedTable (abilityCards leapRegistry)
  ∧ customMoves (toggleCard Black "leap" (toggleCard Black "leap" leapRegistry))
    = customMoves leapRegistry.
Proof.
  split; [reflexivity|].
  apply (toggleCard_twice_restores_table leapRegistry Black "leap").
  reflexivity.
Defined.

Lemma pushNew_keeps (l : list Offset) (o o' : Offset) :
  o ∈ l → o ∈ pushNew l o'.
Proof.
  intros Hin. unfold pushNew. destruct (hasSquare o' l); [done|].
  apply elem_of_app. by left.
Qed.

Lemma pushNew_adds (l : list Offset) (o : Offset) : o ∈ pushNew l o.
Proof.
  unfold pushNew. destruct (hasSquare o l) eqn:Hh.
  - by apply hasSquare_elem.
  - apply elem_of_app. right. by apply list_elem_of_singleton.
Qed.

Lemma foldl_pushNew_keeps (os l : list Offset) (o : Offset) :
  o ∈ l → o ∈ foldl pushNew l os.
Proof.
  revert l. induction os as [|o' os IH]; intros l Hin; cbn [foldl]; [done|].
  by apply IH, pushNew_keeps.
Qed.

Lemma foldl_pushNew_adds (os l : list Offset) (o : Offset) :
  o ∈ os → o ∈ foldl pushNew l os.
Proof.
  revert l. induction os as [|o' os IH]; intros l Hin; cbn [foldl].
  - by apply elem_of_nil in Hin.
  - apply elem_of_cons in Hin as [-> |Hin].
    + apply foldl_pushNew_keeps, pushNew_adds.
    + by apply IH.
Qed.

(** An offset present in the entry of a piece type stays there while
    further cards are added. *)
Lemma addCard_keeps (tbl : gmap PieceType Custom) (e : string * Card)
    (pt : PieceType) (o : Offset) :
  (∃ cu, tbl !! pt = Some cu ∧ o ∈ cmoves cu) →
  ∃ cu, addCard tbl e !! pt = Some cu ∧ o ∈ cmoves cu.
Proof.
  intros (cu & Hcu & Ho). unfold addCard.
  destruct (bool_decide (enabled e.2 = Some false)); [by exists cu|].
  destruct (decide (pieceType e.2 = pt)) as [<- |Hne].
  - rewrite lookup_insert_eq, Hcu. eexists. split; [done|].
    cbn [cmoves default]. by apply foldl_pushNew_keeps.
  - rewrite lookup_insert_ne by done. by exists cu.
Qed.

Lemma foldl_addCard_keeps (cards : list (string * Card))
    (tbl : gmap PieceType Custom) (pt : PieceType) (o : Offset) :
  (∃ cu, tbl !! pt = Some cu ∧ o ∈ cmoves cu) →
  ∃ cu, foldl addCard tbl cards !! pt = Some cu ∧ o ∈ cmoves cu.
Proof.
  revert tbl. induction cards as [|e cards IH]; intros tbl Hin;
    cbn [foldl]; [done|].
  by apply IH, addCard_keeps.
Qed.

(** The rebuilt table holds every move offset of every card that is not
    disabled. *)
Lemma rebuildColor_contains (cards : list (string * Card)) (n : string)
    (d : Card) (o : Offset) :
  (n, d) ∈ cards → enabled d ≠ Some false → o ∈ moves d →
  ∃ cu, rebuildColor cards !! pieceType d = Some cu ∧ o ∈ cmoves cu.
Proof.
  unfold rebuildColor. generalize (∅ : gmap PieceType Custom).
  induction cards as [|e cards IH]; intros tbl Hin Hen Ho.
  - by apply elem_of_nil in Hin.
  - cbn [foldl]. apply elem_of_cons in Hin as [<- |Hin]; [|by apply IH].
    apply foldl_addCard_keeps. unfold addCard. cbn [snd].
    rewrite bool_decide_eq_false_2 by done.
    rewrite lookup_insert_eq. eexists. split; [done|].
    cbn [cmoves]. by apply foldl_pushNew_adds.
Qed.

Lemma lookupCard_elem (name : string) (cards : list (string * Card))
    (d : Card) :
  lookupCard name cards = Some d → (name, d) ∈ cards.
Proof.
  unfold lookupCard. intros Hl.
  destruct (find _ cards) as [[n d']|] eqn:Hf; [|done].
  injection Hl as <-. apply find_some in Hf as [Hin Hn].
  apply bool_decide_eq_true in Hn. cbn [fst] in Hn. subst n.
  by apply list_elem_of_In.
Qed.

Lemma lookupCard_removeCard_ne (n1 n2 : string)
    (cards : list (string * Card)) :
  n1 ≠ n2 → lookupCard n2 (removeCard n1 cards) = lookupCard n2 cards.
Proof.
  intros Hne. unfold lookupCard, removeCard.
  induction cards as [|e cards IH]; cbn [List.filter find]; [done|].
  destruct (bool_decide (e.1 = n1)) eqn:H1; cbn [negb].
  - apply bool_decide_eq_true in H1.
    rewrite (bool_decide_eq_false_2 (e.1 = n2)) by congruence. exact IH.
  - cbn [find]. destruct (bool_decide (e.1 = n2)); [done | exact IH].
Qed.

Lemma removeOffsets_subset (rm l : list Offset) (o : Offset) :
  o ∈ removeOffsets rm l → o ∈ l.
Proof.
  unfold removeOffsets. revert l.
  induction rm as [|o' rm IH]; intros l Hin; cbn [foldl] in *; [done|].
  apply IH in Hin. apply list_elem_of_In, filter_In in Hin as [Hin _].
  by apply list_elem_of_In.
Qed.

(** The subtraction removes every offset of the deleted card by value. *)
Lemma removeOffsets_removes (rm l : list Offset) (o : Offset) :
  o ∈ rm → o ∉ removeOffsets rm l.
Proof.
  unfold removeOffsets. revert l.
  induction rm as [|o' rm IH]; intros l Hin; cbn [foldl].
  - by apply elem_of_nil in Hin.
  - apply elem_of_cons in Hin as [<- |Hin]; [|by apply IH].
    intros Hout. apply (removeOffsets_subset rm) in Hout.
    apply list_elem_of_In, filter_In in Hout as [_ Hout].
    by rewrite !Z.eqb_refl in Hout.
Qed.

(** C2, where the code departs from it.  In a local registry whose table is
    derived from its cards, let two cards of one colour and piece type, both
    enabled, grant the same move offset.  After [deleteCard] of the first,
    the second is still registered and enabled, yet the offset is gone from
    the table entry, while the table rebuilt from the remaining cards still
    holds it: the subtraction is by value and removes what the other card
    contributes as well. *)
Theorem deleteCard_drops_shared_offset (r : Registry) (c : Color)
    (n1 n2 : string) (c1 c2 : Card) (o : Offset) :
  online r = false →
  customMoves r = derivedTable (abilityCards r) →
  n1 ≠ n2 →
  lookupCard n1 (ofColor (abilityCards r) c) = Some c1 →
  lookupCard n2 (ofColor (abilityCards r) c) = Some c2 →
  pieceType c1 = pieceType c2 →
  enabled c1 ≠ Some false →
  enabled c2 ≠ Some false →
  o ∈ moves c1 →
  o ∈ moves c2 →
  lookupCard n1 (ofColor (abilityCards (deleteCard c n1 r)) c) = None
  ∧ lookupCard n2 (ofColor (abilityCards (deleteCard c n1 r)) c) = Some c2
  ∧ (∃ cu, ofColor (customMoves r) c !! pieceType c2 = Some cu
           ∧ o ∈ cmoves cu)
  ∧ (∃ cu, ofColor (customMoves (deleteCard c n1 r)) c !! pieceType c2 = Some cu
           ∧ o ∉ cmoves cu)
  ∧ (∃ cu, ofColor (derivedTable (abilityCards (deleteCard c n1 r))) c
             !! pieceType c2 = Some cu
           ∧ o ∈ cmoves cu).
Proof.
  intros Hlocal Hderived Hne H1 H2 Hpt He1 He2 Ho1 Ho2.
  assert (Hrebuilt : ∀ cards, ofColor (derivedTable cards) c
                              = rebuildColor (ofColor cards c)).
  { intros cards. by destruct c. }
  assert (Hbefore : ∃ cu, ofColor (customMoves r) c !! pieceType c2 = Some cu
                          ∧ o ∈ cmoves cu).
  { rewrite Hderived, Hrebuilt.
    apply (rebuildColor_contains _ n2); [by apply lookupCard_elem | done | done]. }
  unfold deleteCard. rewrite Hlocal.
  cbn [abilityCards customMoves]. rewrite ofColor_setColor.
  split.
  { unfold lookupCard, removeCard.
    destruct (find _ (List.filter _ _)) as [e|] eqn:Hf; [|done].
    apply find_some in Hf as [Hin Hn]. apply filter_In in Hin as [_ Hin].
    by rewrite Hn in Hin. }
  split; [by rewrite lookupCard_removeCard_ne|].
  split; [exact Hbefore|].
  split.
  - destruct Hbefore as (cu & Hcu & _).
    unfold subtractCard. rewrite H1, Hpt, Hcu, ofColor_setColor.
    rewrite lookup_insert_eq. eexists. split; [done|].
    cbn [cmoves]. by apply removeOffsets_removes.
  - rewrite Hrebuilt, ofColor_setColor.
    apply (rebuildColor_contains _ n2); [|done..].
    apply lookupCard_elem. by rewrite lookupCard_removeCard_ne.
Qed.

Lemma deleteCard_shared_witness :
  online sharedRegistry = false
  ∧ customMoves sharedRegistry = derivedTable (abilityCards sharedRegistry)
  ∧ lookupCard "A" (ofColor (abilityCards sharedRegistry) White)
    = Some (mkCard Rook [(1, 1)] [] None)
  ∧ lookupCard "B" (ofColor (abilityCards sharedRegistry) White)
    = Some (mkCard Rook [(1, 1); (2, 2)] [] (Some true))
  ∧ ofColor (customMoves sharedRegistry) White !! Rook
    = Some (mkCustom [(1, 1); (2, 2)] [])
  ∧ ofColor (customMoves (deleteCard White "A" sharedRegistry)) White !! Rook
    = Some (mkCustom [(2, 2)] [])
  ∧ ∃ cu, ofColor (customMoves (deleteCard White "A" sharedRegistry)) White
            !! pieceType (mkCard Rook [(1, 1); (2, 2)] [] (Some true)) = Some cu
          ∧ (1, 1) ∉ cmoves cu.
Proof.
  split; [reflexivity|].
  split; [reflexivity|].
  split; [vm_compute; reflexivity|].
  split; [vm_compute; reflexivity|].
  split; [vm_compute; reflexivity|].
  split; [vm_compute; reflexivity|].
  refine (proj1 (proj2 (proj2 (proj2
    (deleteCard_drops_shared_offset sharedRegistry White "A" "B"
       (mkCard Rook [(1, 1)] [] None)
       (mkCard Rook [(1, 1); (2, 2)] [] (Some true)) (1, 1)
       _ _ _ _ _ _ _ _ _ _))))).
  - reflexivity.
  - reflexivity.
  - discriminate.
  - vm_compute; reflexivity.
  - vm_compute; reflexivity.
  - reflexivity.
  - discriminate.
  - discriminate.
  - apply elem_of_cons; by left.
  - apply elem_of_cons; by left.
Defined.

(** ** The move log *)

Lemma onBoard_bounds (x y : Z) :
  onBoard x y = true ↔ 0 ≤ x ≤ 7 ∧ 0 ≤ y ≤ 7.
Proof.
  unfold onBoard. rewrite negb_true_iff, !orb_false_iff.
  rewrite !Z.ltb_ge, !Z.gtb_ltb, !Z.ltb_ge. lia.
Qed.

Lemma onBoard_allSquares (x y : Z) :
  onBoard x y = true → (x, y) ∈ allSquares.
Proof.
  rewrite onBoard_bounds. intros [Hx Hy]. unfold allSquares.
  apply list_elem_of_bind. exists x. split; [|apply elem_of_seqZ; lia].
  apply list_elem_of_bind. exists y. split; [|apply elem_of_seqZ; lia].
  by apply list_elem_of_singleton.
Qed.

Lemma notationRoundTrips_true : notationRoundTrips = true.
Proof. vm_compute. reflexivity. Qed.

(** The notation of a move between squares of the board records both
    squares and the capture flag. *)
Lemma parseNotation_notation (from to_ : Square) (t : PieceType)
    (cap : bool) :
  onBoard from.1 from.2 = true → onBoard to_.1 to_.2 = true →
  parseNotation (notation from to_ t cap) = Some (from, cap, to_).
Proof.
  intros Hf Ht. destruct from as [fx fy], to_ as [tx ty].
  apply onBoard_allSquares, list_elem_of_In in Hf, Ht.
  pose proof notationRoundTrips_true as Hall. unfold notationRoundTrips in Hall.
  rewrite forallb_forall in Hall.
  assert (Hin : In t [Pawn; Rook; Knight; Bishop; Queen; King]).
  { destruct t; simpl; tauto. }
  specialize (Hall t Hin). rewrite forallb_forall in Hall.
  assert (Hcap : In cap [true; false]) by (destruct cap; simpl; tauto).
  specialize (Hall cap Hcap). rewrite forallb_forall in Hall.
  specialize (Hall (fx, fy) Hf). rewrite forallb_forall in Hall.
  specialize (Hall (tx, ty) Ht). by apply bool_decide_eq_true in Hall.
Qed.

Lemma last_setLastBlack (s : string) (mh : list HistoryEntry) :
  mh ≠ [] → blackMove <$> last (setLastBlack s mh) = Some s.
Proof.
  induction mh as [|e mh IH]; [done|]. intros _.
  destruct mh as [|e' mh]; [reflexivity|].
  change (setLastBlack s (e :: e' :: mh)) with (e :: setLastBlack s (e' :: mh)).
  assert (Hne : setLastBlack s (e' :: mh) ≠ []) by (by destruct mh).
  destruct (setLastBlack s (e' :: mh)) as [|e'' rest] eqn:Hs; [done|].
  rewrite last_cons_cons. by apply IH.
Qed.

(** After [addMoveToHistory] the log ends with the notation of the move,
    except for a black move into an empty log, which is not recorded. *)
Lemma lastNotation_addMoveToHistory (from to_ : Square) (p : Piece)
    (cap : bool) (mh : list HistoryEntry) :
  (color p = Black → mh ≠ []) →
  lastNotation (color p) (addMoveToHistory from to_ p cap mh)
  = Some (notation from to_ (type p) cap).
Proof.
  intros Hmh. unfold lastNotation, addMoveToHistory.
  destruct (color p).
  - by rewrite last_snoc.
  - by apply last_setLastBlack, Hmh.
Qed.

Lemma cells_insert_same (h : Heap) (b : Board) (l : loc) :
  cells (<[l := h !!! l]> h) b = cells h b.
Proof.
  unfold cells. apply map_fmap_ext. intros k l' _.
  destruct (decide (l = l')) as [-> |Hne].
  - by rewrite lookup_total_insert_eq.
  - by rewrite lookup_total_insert_ne.
Qed.

(** Putting the piece back where it came from gives the earlier cells. *)
Lemma cells_move_back (h : Heap) (b : Board) (from to_ : Square) (l : loc) :
  b !! from = Some l → b !! to_ = None →
  <[from := h !!! l]> (delete to_ (cells h (<[to_ := l]> (delete from b))))
  = cells h b.
Proof.
  intros Hfrom Hto. unfold cells. apply map_eq. intros k.
  destruct (decide (k = from)) as [-> |Hk1].
  { by rewrite lookup_insert_eq, lookup_fmap, Hfrom. }
  rewrite lookup_insert_ne by done.
  destruct (decide (k = to_)) as [-> |Hk2].
  { by rewrite lookup_delete_eq, lookup_fmap, Hto. }
  rewrite lookup_delete_ne by done. rewrite !lookup_fmap.
  by rewrite lookup_insert_ne, lookup_delete_ne.
Qed.

(** The branch of [handleLocalClick] for a move onto an empty square that
    is not a promotion. *)
Lemma commitMove_quiet (g : ChessGame) (sx sy x y : Z) (l : loc) :
  selectedPiece g = Some (sx, sy) →
  hasSquare (x, y) (validMoves g) || hasSquare (x, y) (validAttacks g) = true →
  board g !! (sx, sy) = Some l →
  board g !! (x, y) = None →
  (type (heap g !!! l) = Pawn → y ≠ 0 ∧ y ≠ 7) →
  ∃ g', handleLocalClick x y g = Done g'
        ∧ heap g' = <[l := setMoved (heap g !!! l)]> (heap g)
        ∧ board g' = <[(x, y) := l]> (delete (sx, sy) (board g))
        ∧ currentPlayer g' = otherColor (currentPlayer g)
        ∧ moveHistory g'
          = addMoveToHistory (sx, sy) (x, y) (setMoved (heap g !!! l)) false
              (moveHistory g).
Proof.
  intros Hsel Hdest Hl Hxy Hnopromo.
  assert (Hp : bool_decide (type (setMoved (heap g !!! l)) = Pawn)
               && ((y =? 0) || (y =? 7)) = false).
  { cbn [type setMoved].
    destruct (decide (type (heap g !!! l) = Pawn)) as [Hpawn|Hpawn].
    - destruct (Hnopromo Hpawn) as [H0 H7].
      apply Z.eqb_neq in H0, H7. rewrite H0, H7. apply andb_false_r.
    - by rewrite bool_decide_eq_false_2. }
  unfold handleLocalClick. rewrite Hsel, Hdest. unfold commitMove.
  rewrite Hl, Hxy. cbn [setCell heap setLastMove setHeap setBoard].
  rewrite lookup_total_insert_eq, Hp.
  match goal with
  | |- context [reportPosition ?w ?m ?g0] =>
      destruct (reportPosition_frame w m g0)
        as (Hh & Hb & Hc & Hm & _);
      revert Hh Hb Hc Hm;
      generalize (reportPosition w m g0)
  end.
  intros g5 Hh Hb Hc Hm. exists g5. split; [reflexivity|].
  rewrite Hh, Hb, Hc, Hm. repeat split.
Qed.

(** C8, as the code allows it.  For an accepted local move onto an empty
    square, by a piece whose [moved] flag is already set, that is not a
    pawn reaching rank 0 or 7, and that gets a log entry, which a White
    move always does and a Black move does when the log is not empty: the
    entry holds the move's notation, the notation reads back as the
    from-square, no capture, and the to-square, and putting the piece on
    the to-square back on the from-square gives, cell for cell, the board
    before the move. *)
Theorem undoFromLog_restores_quiet_move (g : ChessGame) (sx sy x y : Z)
    (l : loc) :
  selectedPiece g = Some (sx, sy) →
  hasSquare (x, y) (validMoves g) || hasSquare (x, y) (validAttacks g) = true →
  onBoard sx sy = true →
  onBoard x y = true →
  board g !! (sx, sy) = Some l →
  board g !! (x, y) = None →
  moved (heap g !!! l) = true →
  (type (heap g !!! l) = Pawn → y ≠ 0 ∧ y ≠ 7) →
  (color (heap g !!! l) = Black → moveHistory g ≠ []) →
  ∃ g' s,
    handleLocalClick x y g = Done g'
    ∧ lastNotation (color (heap g !!! l)) (moveHistory g') = Some s
    ∧ parseNotation s = Some ((sx, sy), false, (x, y))
    ∧ undoFromLog s (cells (heap g') (board g'))
      = Some (cells (heap g) (board g)).
Proof.
  intros Hsel Hdest Hfrom Hto Hl Hxy Hmoved Hnopromo Hlog.
  destruct (commitMove_quiet g sx sy x y l Hsel Hdest Hl Hxy Hnopromo)
    as (g' & Hclick & Hh & Hb & _ & Hm).
  assert (Hsame : setMoved (heap g !!! l) = heap g !!! l).
  { unfold setMoved. destruct (heap g !!! l) as [c t m].
    cbn [moved color type] in *. by subst m. }
  rewrite Hsame in Hh, Hm.
  pose proof (parseNotation_notation (sx, sy) (x, y) (type (heap g !!! l))
                false Hfrom Hto) as Hparse.
  exists g', (notation (sx, sy) (x, y) (type (heap g !!! l)) false).
  split; [exact Hclick|].
  split; [rewrite Hm; by apply lastNotation_addMoveToHistory|].
  split; [exact Hparse|].
  unfold undoFromLog. rewrite Hparse, Hh, Hb, cells_insert_same.
  assert (Hat : cells (heap g) (<[(x, y) := l]> (delete (sx, sy) (board g)))
                  !! (x, y) = Some (heap g !!! l)).
  { unfold cells. by rewrite lookup_fmap, lookup_insert_eq. }
  rewrite Hat. f_equal. by apply cells_move_back.
Qed.

Lemma undoFromLog_witness :
  selectedPiece knightSelected = Some (1, 7)
  ∧ board knightSelected !! (1, 7) = Some 1%positive
  ∧ board knightSelected !! (2, 5) = None
  ∧ moved (heap knightSelected !!! 1%positive) = true
  ∧ ∃ g' s,
      handleLocalClick 2 5 knightSelected = Done g'
      ∧ lastNotation (color (heap knightSelected !!! 1%positive))
                     (moveHistory g') = Some s
      ∧ parseNotation s = Some ((1, 7), false, (2, 5))
      ∧ undoFromLog s (cells (heap g') (board g'))
        = Some (cells (heap knightSelected) (board knightSelected)).
Proof.
  split; [vm_compute; reflexivity|].
  split; [vm_compute; reflexivity|].
  split; [vm_compute; reflexivity|].
  split; [vm_compute; reflexivity|].
  apply (undoFromLog_restores_quiet_move knightSelected 1 7 2 5 1%positive).
  - vm_compute; reflexivity.
  - vm_compute; reflexivity.
  - reflexivity.
  - reflexivity.
  - vm_compute; reflexivity.
  - vm_compute; reflexivity.
  - vm_compute; reflexivity.
  - intros Hpawn. vm_compute in Hpawn. discriminate Hpawn.
  - intros Hblack. vm_compute in Hblack. discriminate Hblack.
Defined.

(** C8, as stated, fails.  The rook on a1 takes on a5, once a black rook
    and once a black knight.  Both moves are accepted, leave the same board
    and write the same entry "Ra1xa5", although the boards before them
    differ on a5: no reconstruction from the entry and the board after the
    move can give back both.  And a move can be left without an entry:
    after 1. Nf3 Nf6 2. Ng1 and [requestUndo], which empties the log,
    Black's Nf6-g8 is accepted and the log stays empty. *)
Lemma logInverts_counterexample :
  cells (heap (rookFacing Rook)) (board (rookFacing Rook))
  ≠ cells (heap (rookFacing Knight)) (board (rookFacing Knight))
  ∧ (∃ gA gB,
       handleLocalClick 0 3 (rookFacing Rook) = Done gA
       ∧ handleLocalClick 0 3 (rookFacing Knight) = Done gB
       ∧ lastNotation White (moveHistory gA) = Some "Ra1xa5"
       ∧ lastNotation White (moveHistory gB) = Some "Ra1xa5"
       ∧ cells (heap gA) (board gA) = cells (heap gB) (board gB))
  ∧ (¬ ∃ inv, logInverts inv)
  ∧ (moveHistory afterUndo = []
     ∧ currentPlayer afterUndo = Black
     ∧ selectedPiece afterUndo = Some (5, 2)
     ∧ getCell (heap afterUndo) (board afterUndo) 5 2
       = Some (mkPiece Black Knight true)
     ∧ getCell (heap afterUndo) (board afterUndo) 6 0 = None
     ∧ ∃ g', handleLocalClick 6 0 afterUndo = Done g'
             ∧ currentPlayer g' = White
             ∧ getCell (heap g') (board g') 6 0
               = Some (mkPiece Black Knight true)
             ∧ getCell (heap g') (board g') 5 2 = None
             ∧ moveHistory g' = []
             ∧ lastNotation Black (moveHistory g') = None).
Proof.
  assert (Hundo : moveHistory afterUndo = []
     ∧ currentPlayer afterUndo = Black
     ∧ selectedPiece afterUndo = Some (5, 2)
     ∧ getCell (heap afterUndo) (board afterUndo) 5 2
       = Some (mkPiece Black Knight true)
     ∧ getCell (heap afterUndo) (board afterUndo) 6 0 = None
     ∧ ∃ g', handleLocalClick 6 0 afterUndo = Done g'
             ∧ currentPlayer g' = White
             ∧ getCell (heap g') (board g') 6 0
               = Some (mkPiece Black Knight true)
             ∧ getCell (heap g') (board g') 5 2 = None
             ∧ moveHistory g' = []
             ∧ lastNotation Black (moveHistory g') = None).
  { split; [vm_compute; reflexivity|].
    split; [vm_compute; reflexivity|].
    split; [vm_compute; reflexivity|].
    split; [vm_compute; reflexivity|].
    split; [vm_compute; reflexivity|].
    exists (afterClicks [(6, 0)] afterUndo).
    split; [vm_compute; reflexivity|].
    split; [vm_compute; reflexivity|].
    split; [vm_compute; reflexivity|].
    split; [vm_compute; reflexivity|].
    split; [vm_compute; reflexivity|].
    vm_compute; reflexivity. }
  assert (Hdiff : cells (heap (rookFacing Rook)) (board (rookFacing Rook))
                  ≠ cells (heap (rookFacing Knight)) (board (rookFacing Knight))).
  { intros Heq. apply (f_equal (λ m, m !! (0, 3))) in Heq.
    vm_compute in Heq. discriminate Heq. }
  assert (Hruns : ∃ gA gB,
       handleLocalClick 0 3 (rookFacing Rook) = Done gA
       ∧ handleLocalClick 0 3 (rookFacing Knight) = Done gB
       ∧ currentPlayer gA = Black ∧ currentPlayer gB = Black
       ∧ lastNotation White (moveHistory gA) = Some "Ra1xa5"
       ∧ lastNotation White (moveHistory gB) = Some "Ra1xa5"
       ∧ cells (heap gA) (board gA) = cells (heap gB) (board gB)).
  { eexists _, _. split; [vm_compute; reflexivity|].
    split; [vm_compute; reflexivity|].
    repeat split; vm_compute; reflexivity. }
  split; [exact Hdiff|].
  destruct Hruns as (gA & gB & HA & HB & HcA & HcB & HsA & HsB & Hsame).
  split; [exists gA, gB; split; [exact HA|]; split; [exact HB|];
          split; [exact HsA|]; split; [exact HsB | exact Hsame]|].
  split; [|exact Hundo].
  intros (inv & Hinv). apply Hdiff.
  rewrite <- (Hinv (rookFacing Rook) 0 3 gA "Ra1xa5" HA);
    [|rewrite HcA; vm_compute; reflexivity|exact HsA].
  rewrite <- (Hinv (rookFacing Knight) 0 3 gB "Ra1xa5" HB);
    [|rewrite HcB; vm_compute; reflexivity|exact HsB].
  rewrite Hsame. reflexivity.
Qed.

(** ** Revision v2.5: no king-safety filter *)

Lemma getCell_lookup (h : Heap) (b : Board) (x y : Z) (l : loc) :
  b !! (x, y) = Some l → getCell h b x y = Some (h !!! l).
Proof. intros Hl. unfold getCell. by rewrite Hl. Qed.

Lemma calculateValidMoves_frame (x y : Z) (g : ChessGame) :
  board (calculateValidMoves x y g) = board g
  ∧ heap (calculateValidMoves x y g) = heap g
  ∧ currentPlayer (calculateValidMoves x y g) = currentPlayer g
  ∧ selectedPiece (calculateValidMoves x y g) = selectedPiece g.
Proof.
  unfold calculateValidMoves.
  by destruct (getCell (heap g) (board g) x y).
Qed.

(** A click that is not on a listed destination moves nothing. *)
Lemma V25_click_elsewhere (g : ChessGame) (x y : Z) :
  hasSquare (x, y) (validMoves g) || hasSquare (x, y) (validAttacks g) = false →
  ∃ g', V25.handleLocalClick x y g = Done g'
        ∧ board g' = board g ∧ heap g' = heap g
        ∧ currentPlayer g' = currentPlayer g.
Proof.
  intros Hdest. unfold V25.handleLocalClick.
  assert (Hsel : ∃ g',
    match getCell (heap g) (board g) x y with
    | Some clicked =>
        if bool_decide (color clicked = currentPlayer g)
        then Done (calculateValidMoves x y
                     (setSelection (Some (x, y)) (validMoves g)
                                   (validAttacks g) g))
        else Done (deselectPiece g)
    | None => Done (deselectPiece g)
    end = Done g'
    ∧ board g' = board g ∧ heap g' = heap g
    ∧ currentPlayer g' = currentPlayer g).
  { destruct (getCell (heap g) (board g) x y) as [clicked|];
      [|by eexists].
    destruct (bool_decide (color clicked = currentPlayer g)); [|by eexists].
    eexists. split; [reflexivity|].
    destruct (calculateValidMoves_frame x y
                (setSelection (Some (x, y)) (validMoves g) (validAttacks g) g))
      as (Hb & Hh & Hc & _).
    by rewrite Hb, Hh, Hc. }
  destruct (selectedPiece g) as [[sx sy]|]; [|exact Hsel].
  by rewrite Hdest.
Qed.

(** C10.  In revision v2.5 a click on a piece of the side to move leaves in
    [validMoves] and [validAttacks] the output of [calculateValidMoves] as
    it is, a click on any square of those lists commits the move and passes
    the turn, and a click on any other square moves nothing: no destination
    is tested for the safety of the mover's king.  Accordingly, in the local
    game 1. e4 a6 2. Qh5 the move f7-f6 is offered and committed, and it
    leaves the black king on e8, not attacked before, among the attacks of
    the white queen on h5. *)
Theorem v25_commits_unfiltered_moves (g : ChessGame) (x y x' y' : Z)
    (l : loc) :
  selectedPiece g = None →
  board g !! (x, y) = Some l →
  color (heap g !!! l) = currentPlayer g →
  (x', y') ∈ (augmentedMoves (heap g) (board g) (customMoves (registry g))
                             (heap g !!! l) x y).1
             ++ (augmentedMoves (heap g) (board g) (customMoves (registry g))
                                (heap g !!! l) x y).2 →
  (∃ g1 g2,
     V25.handleLocalClick x y g = Done g1
     ∧ selectedPiece g1 = Some (x, y)
     ∧ validMoves g1
       = (augmentedMoves (heap g) (board g) (customMoves (registry g))
                         (heap g !!! l) x y).1
     ∧ validAttacks g1
       = (augmentedMoves (heap g) (board g) (customMoves (registry g))
                         (heap g !!! l) x y).2
     ∧ board g1 = board g
     ∧ V25.handleLocalClick x' y' g1 = Done g2
     ∧ board g2 = <[(x', y') := l]> (delete (x, y) (board g))
     ∧ currentPlayer g2 = otherColor (currentPlayer g)
     ∧ ∀ x'' y'',
         (x'', y'') ∉ validMoves g1 ++ validAttacks g1 →
         ∃ g3, V25.handleLocalClick x'' y'' g1 = Done g3
               ∧ board g3 = board g
               ∧ currentPlayer g3 = currentPlayer g)
  ∧ clicks V25.handleLocalClick (take 7 exposingClicks)
           (startLocalGame noCards) = Done beforeExposure
  ∧ currentPlayer beforeExposure = Black
  ∧ isInCheck (heap beforeExposure) (board beforeExposure) Black = false
  ∧ (5, 2) ∈ validMoves beforeExposure
  ∧ V25.handleLocalClick 5 2 beforeExposure = Done afterExposure
  ∧ currentPlayer afterExposure = White
  ∧ findKing (heap afterExposure) (board afterExposure) Black = Some (4, 0)
  ∧ getCell (heap afterExposure) (board afterExposure) 7 3
    = Some (mkPiece White Queen true)
  ∧ (4, 0) ∈ (augmentedMoves (heap afterExposure) (board afterExposure)
                             (customMoves (registry afterExposure))
                             (mkPiece White Queen true) 7 3).2.
Proof.
  intros Hsel Hl Hcol Hdest. split.
  - set (cand := augmentedMoves (heap g) (board g) (customMoves (registry g))
                                (heap g !!! l) x y) in *.
    exists (setSelection (Some (x, y)) cand.1 cand.2 g).
    eexists.
    assert (Hfirst : V25.handleLocalClick x y g
                     = Done (setSelection (Some (x, y)) cand.1 cand.2 g)).
    { unfold V25.handleLocalClick. rewrite Hsel.
      rewrite (getCell_lookup _ _ x y l Hl).
      rewrite bool_decide_eq_true_2 by exact Hcol.
      unfold calculateValidMoves.
      cbn [heap board setSelection registry selectedPiece].
      by rewrite (getCell_lookup _ _ x y l Hl). }
    split; [exact Hfirst|].
    split; [reflexivity|]. split; [reflexivity|]. split; [reflexivity|].
    split; [reflexivity|].
    assert (Hhas : hasSquare (x', y') cand.1 || hasSquare (x', y') cand.2
                   = true).
    { apply elem_of_app in Hdest as [Hd|Hd];
        apply hasSquare_elem in Hd; rewrite Hd; [reflexivity|].
      apply orb_true_r. }
    split; [|split; [|split]].
    + unfold V25.handleLocalClick.
      cbn [selectedPiece validMoves validAttacks setSelection board heap].
      rewrite Hhas, Hl. reflexivity.
    + reflexivity.
    + reflexivity.
    + intros x'' y'' Hout.
      cbn [validMoves validAttacks setSelection] in Hout.
      destruct (V25_click_elsewhere
                  (setSelection (Some (x, y)) cand.1 cand.2 g) x'' y'')
        as (g3 & Hclick & Hb & _ & Hc).
      * cbn [validMoves validAttacks setSelection].
        apply orb_false_iff. split.
        -- apply not_true_is_false. intros Hin. apply hasSquare_elem in Hin.
           apply Hout, elem_of_app. by left.
        -- apply not_true_is_false. intros Hin. apply hasSquare_elem in Hin.
           apply Hout, elem_of_app. by right.
      * exists g3. split; [exact Hclick|]. split; [exact Hb | exact Hc].
  - split; [vm_compute; reflexivity|].
    split; [vm_compute; reflexivity|].
    split; [vm_compute; reflexivity|].
    split; [apply hasSquare_elem; vm_compute; reflexivity|].
    split; [vm_compute; reflexivity|].
    split; [vm_compute; reflexivity|].
    split; [vm_compute; reflexivity|].
    split; [vm_compute; reflexivity|].
    apply hasSquare_elem. vm_compute. reflexivity.
Qed.

Lemma v25_commits_witness :
  selectedPiece (startLocalGame noCards) = None
  ∧ board (startLocalGame noCards) !! (4, 6) = Some 19%positive
  ∧ color (heap (startLocalGame noCards) !!! 19%positive)
    = currentPlayer (startLocalGame noCards)
  ∧ ∃ g1 g2,
      V25.handleLocalClick 4 6 (startLocalGame noCards) = Done g1
      ∧ V25.handleLocalClick 4 4 g1 = Done g2
      ∧ board g2
        = <[(4, 4) := 19%positive]> (delete (4, 6) (board (startLocalGame noCards)))
      ∧ currentPlayer g2 = otherColor (currentPlayer (startLocalGame noCards)).
Proof.
  split; [vm_compute; reflexivity|].
  split; [vm_compute; reflexivity|].
  split; [vm_compute; reflexivity|].
  destruct (v25_commits_unfiltered_moves (startLocalGame noCards) 4 6 4 4
              19%positive)
    as [(g1 & g2 & H1 & _ & _ & _ & _ & H2 & Hb & Hc & _) _].
  - vm_compute; reflexivity.
  - vm_compute; reflexivity.
  - vm_compute; reflexivity.
  - apply hasSquare_elem. vm_compute. reflexivity.
  - exists g1, g2. split; [exact H1|]. split; [exact H2|].
    split; [exact Hb | exact Hc].
Defined.

(** ** Move generation, piece by piece *)

Section Generation.
Context (h : Heap) (b : Board) (piece : Piece).

Lemma addMove_spec (nx ny : Z) (acc : list Square * list Square) :
  (∀ sq, sq ∈ (addMove h b piece nx ny acc).2.1 ↔
         sq ∈ acc.1 ∨ (sq = (nx, ny) ∧ freeOn h b (nx, ny)))
  ∧ (∀ sq, sq ∈ (addMove h b piece nx ny acc).2.2 ↔
           sq ∈ acc.2 ∨ (sq = (nx, ny) ∧ enemyOn h b piece (nx, ny))).
Proof.
  unfold addMove, freeOn, enemyOn. cbn [fst snd].
  destruct (onBoard nx ny) eqn:Hon; cbn [negb fst snd].
  2:{ split; intros sq; (split; [by left|]);
        intros [?|(_ & Hf & _)]; done. }
  destruct (getCell h b nx ny) as [t|] eqn:Hcell; cbn [fst snd].
  - destruct (bool_decide (color t ≠ color piece)) eqn:Hcol; cbn [fst snd].
    + apply bool_decide_eq_true in Hcol. split; intros sq.
      * split; [by left|]. intros [?|(_ & _ & Hf)]; done.
      * rewrite elem_of_app, list_elem_of_singleton. split.
        -- intros [?| ->]; [by left|]. right. split; [done|].
           split; [done|]. by exists t.
        -- intros [?|(-> & _)]; [by left | by right].
    + apply bool_decide_eq_false in Hcol. split; intros sq;
        (split; [by left|]).
      * intros [?|(_ & _ & Hf)]; done.
      * intros [?|(_ & _ & t' & Ht' & Hne)]; [done|].
        injection Ht' as <-. by destruct Hcol.
  - split; intros sq.
    + rewrite elem_of_app, list_elem_of_singleton. split.
      * intros [?| ->]; [by left | by right].
      * intros [?|(-> & _)]; [by left | by right].
    + split; [by left|]. intros [?|(_ & _ & t & Ht & _)]; done.
Qed.

Lemma addAttack_spec (nx ny : Z) (acc : list Square * list Square) :
  (addAttack h b piece nx ny acc).1 = acc.1
  ∧ (∀ sq, sq ∈ (addAttack h b piece nx ny acc).2 ↔
           sq ∈ acc.2 ∨ (sq = (nx, ny) ∧ enemyOn h b piece (nx, ny))).
Proof.
  unfold addAttack, enemyOn. cbn [fst snd].
  destruct (onBoard nx ny) eqn:Hon; cbn [negb].
  2:{ split; [done|]. intros sq. split; [by left|].
      intros [?|(_ & Hf & _)]; done. }
  destruct (getCell h b nx ny) as [t|] eqn:Hcell.
  2:{ split; [done|]. intros sq. split; [by left|].
      intros [?|(_ & _ & t & Ht & _)]; done. }
  destruct (bool_decide (color t ≠ color piece)) eqn:Hcol; cbn [fst snd].
  - apply bool_decide_eq_true in Hcol. split; [done|]. intros sq.
    rewrite elem_of_app, list_elem_of_singleton. split.
    + intros [?| ->]; [by left|]. right. split; [done|].
      split; [done|]. by exists t.
    + intros [?|(-> & _)]; [by left | by right].
  - apply bool_decide_eq_false in Hcol. split; [done|]. intros sq.
    split; [by left|]. intros [?|(_ & _ & t' & Ht' & Hne)]; [done|].
    injection Ht' as <-. by destruct Hcol.
Qed.

(** The [forEach] over fixed offsets, from any accumulator. *)
Lemma stepAll_spec (x y : Z) (offs : list Offset) :
  ∀ acc : list Square * list Square,
    (∀ sq, sq ∈ (stepAll h b piece x y offs acc).1 ↔
           sq ∈ acc.1
           ∨ ∃ d, d ∈ offs ∧ sq = (x + d.1, y + d.2)
                  ∧ freeOn h b (x + d.1, y + d.2))
    ∧ (∀ sq, sq ∈ (stepAll h b piece x y offs acc).2 ↔
             sq ∈ acc.2
             ∨ ∃ d, d ∈ offs ∧ sq = (x + d.1, y + d.2)
                    ∧ enemyOn h b piece (x + d.1, y + d.2)).
Proof.
  unfold stepAll.
  induction offs as [|d offs IH]; intros acc; cbn [foldl].
  { split; intros sq; (split; [by left|]);
      intros [?|(d & Hd & _)]; try done; by apply elem_of_nil in Hd. }
  destruct (IH (addMove h b piece (x + d.1) (y + d.2) acc).2) as [IHm IHa].
  destruct (addMove_spec (x + d.1) (y + d.2) acc) as [Am Aa].
  split; intros sq.
  - rewrite IHm, Am. split.
    + intros [[?|[-> Hf]]|(d' & Hd & Hrest)].
      * by left.
      * right. exists d. split; [apply elem_of_cons; by left | done].
      * right. exists d'. split; [apply elem_of_cons; by right | done].
    + intros [?|(d' & Hd & Hsq & Hf)]; [by left; left|].
      apply elem_of_cons in Hd as [-> |Hd].
      * left; right. done.
      * right. by exists d'.
  - rewrite IHa, Aa. split.
    + intros [[?|[-> Hf]]|(d' & Hd & Hrest)].
      * by left.
      * right. exists d. split; [apply elem_of_cons; by left | done].
      * right. exists d'. split; [apply elem_of_cons; by right | done].
    + intros [?|(d' & Hd & Hsq & Hf)]; [by left; left|].
      apply elem_of_cons in Hd as [-> |Hd].
      * left; right. done.
      * right. by exists d'.
Qed.

Lemma pawnPushes_spec (x y : Z) :
  (pawnPushes h b piece x y ([], [])).2 = []
  ∧ ∀ sq, sq ∈ (pawnPushes h b piece x y ([], [])).1 ↔
          (sq = (x, y + pawnDir (color piece))
           ∧ getCell h b x (y + pawnDir (color piece)) = None)
          ∨ (sq = (x, y + 2 * pawnDir (color piece))
             ∧ getCell h b x (y + pawnDir (color piece)) = None
             ∧ getCell h b x (y + 2 * pawnDir (color piece)) = None
             ∧ moved piece = false).
Proof.
  unfold pawnPushes. cbv zeta. simpl.
  destruct (getCell h b x (y + pawnDir (color piece))) as [t|] eqn:H1.
  { split; [done|]. intros sq. split; [by intros ?%elem_of_nil|].
    intros [[_ ?]|(_ & ? & _)]; done. }
  destruct (moved piece) eqn:Hm; simpl.
  { split; [done|]. intros sq. rewrite list_elem_of_singleton. split.
    - intros ->. by left.
    - intros [[-> _]|(_ & _ & _ & ?)]; done. }
  destruct (getCell h b x (y + 2 * pawnDir (color piece))) as [t|] eqn:H2.
  - rewrite bool_decide_eq_true_2 by eauto. simpl.
    split; [done|]. intros sq. rewrite list_elem_of_singleton. split.
    + intros ->. by left.
    + intros [[-> _]|(_ & _ & ? & _)]; done.
  - rewrite bool_decide_eq_false_2 by (by intros [? ?]). simpl.
    split; [done|]. intros sq.
    rewrite elem_of_cons, list_elem_of_singleton. split.
    + intros [-> | ->]; [by left | by right].
    + intros [[-> _]|(-> & _)]; [by left | by right].
Qed.
End Generation.

Lemma inRange_onBoard (nx ny : Z) :
  (0 <=? nx) && (nx <? 8) && (0 <=? ny) && (ny <? 8) = onBoard nx ny.
Proof.
  unfold onBoard. rewrite !Z.gtb_ltb.
  destruct (Z.leb_spec 0 nx), (Z.ltb_spec nx 8), (Z.leb_spec 0 ny),
    (Z.ltb_spec ny 8), (Z.ltb_spec nx 0), (Z.ltb_spec 7 nx),
    (Z.ltb_spec ny 0), (Z.ltb_spec 7 ny); simpl; try reflexivity; lia.
Qed.

Section Custom.
Context (h : Heap) (b : Board) (piece : Piece) (x y : Z).

Lemma addCustomMoves_spec (offs : list Offset) :
  ∀ (vm : list Square) (sq : Square),
    sq ∈ addCustomMoves h b x y offs vm ↔
    sq ∈ vm ∨ ∃ d, d ∈ offs ∧ sq = (x + d.1, y + d.2)
                   ∧ freeOn h b (x + d.1, y + d.2).
Proof.
  unfold addCustomMoves, freeOn. cbn [fst snd].
  induction offs as [|d offs IH]; intros vm sq; cbn [foldl].
  { split; [by left|]. intros [?|(d & Hd & _)]; [done|].
    by apply elem_of_nil in Hd. }
  rewrite IH. clear IH. cbv zeta. rewrite inRange_onBoard.
  split.
  - intros [Hin|(d' & Hd & Hrest)].
    + destruct (onBoard (x + d.1) (y + d.2)) eqn:Hon; cbn [andb] in Hin;
        [|by left].
      destruct (getCell h b (x + d.1) (y + d.2)) as [t|] eqn:Hc.
      { rewrite bool_decide_eq_true_2 in Hin by eauto. by left. }
      rewrite bool_decide_eq_false_2 in Hin by (by intros [? ?]).
      cbn [negb] in Hin.
      destruct (hasSquare (x + d.1, y + d.2) vm); cbn [negb] in Hin;
        [by left|].
      apply elem_of_app in Hin as [?|Hin]; [by left|].
      apply list_elem_of_singleton in Hin as ->.
      right. exists d. split; [apply elem_of_cons; by left | done].
    + right. exists d'. split; [apply elem_of_cons; by right | done].
  - intros [Hin|(d' & Hd & -> & Hon & Hc)].
    + left. destruct (_ && _); [|done].
      destruct (negb _); [|done]. apply elem_of_app. by left.
    + apply elem_of_cons in Hd as [-> |Hd]; [|right; by exists d'].
      left. rewrite Hon, Hc.
      rewrite bool_decide_eq_false_2 by (by intros [? ?]). cbn [andb negb].
      destruct (hasSquare (x + d.1, y + d.2) vm) eqn:Hh; cbn [negb].
      * by apply hasSquare_elem.
      * apply elem_of_app. right. by apply list_elem_of_singleton.
Qed.

Lemma addCustomAttacks_spec (offs : list Offset) :
  ∀ (va : list Square) (sq : Square),
    sq ∈ addCustomAttacks h b piece x y offs va ↔
    sq ∈ va ∨ ∃ d, d ∈ offs ∧ sq = (x + d.1, y + d.2)
                   ∧ enemyOn h b piece (x + d.1, y + d.2).
Proof.
  unfold addCustomAttacks, enemyOn. cbn [fst snd].
  induction offs as [|d offs IH]; intros va sq; cbn [foldl].
  { split; [by left|]. intros [?|(d & Hd & _)]; [done|].
    by apply elem_of_nil in Hd. }
  rewrite IH. clear IH. cbv zeta. rewrite inRange_onBoard.
  split.
  - intros [Hin|(d' & Hd & Hrest)].
    + destruct (onBoard (x + d.1) (y + d.2)) eqn:Hon; [|by left].
      destruct (getCell h b (x + d.1) (y + d.2)) as [t|] eqn:Hc; [|by left].
      destruct (bool_decide (color t ≠ color piece)) eqn:Hcol;
        cbn [andb] in Hin; [|by left].
      apply bool_decide_eq_true in Hcol.
      destruct (hasSquare (x + d.1, y + d.2) va); cbn [negb] in Hin;
        [by left|].
      apply elem_of_app in Hin as [?|Hin]; [by left|].
      apply list_elem_of_singleton in Hin as ->.
      right. exists d. split; [apply elem_of_cons; by left|].
      split; [done|]. split; [done|]. by exists t.
    + right. exists d'. split; [apply elem_of_cons; by right | done].
  - intros [Hin|(d' & Hd & -> & Hon & t & Hc & Hcol)].
    + left. destruct (onBoard _ _); [|done].
      destruct (getCell _ _ _ _); [|done].
      destruct (_ && _); [|done]. apply elem_of_app. by left.
    + apply elem_of_cons in Hd as [-> |Hd].
      2:{ right. exists d'. split; [done|]. split; [done|].
          split; [done|]. by exists t. }
      left. rewrite Hon, Hc.
      rewrite bool_decide_eq_true_2 by done. cbn [andb].
      destruct (hasSquare (x + d.1, y + d.2) va) eqn:Hh; cbn [negb].
      * by apply hasSquare_elem.
      * apply elem_of_app. right. by apply list_elem_of_singleton.
Qed.
End Custom.

(** X10.  A knight or a king on [(x, y)]: each of its fixed offsets leads to a
    listed move exactly when the target is on the board and empty, and to
    a listed attack exactly when it is on the board and holds a piece of
    the other colour; nothing else is listed, so a square of its own side
    or off the board is never a destination. *)
Theorem stepping_piece_targets (h : Heap) (b : Board) (x y : Z)
    (piece : Piece) :
  getCell h b x y = Some piece →
  type piece = Knight ∨ type piece = King →
  (∀ sq, sq ∈ (getPieceMoves h b x y).1 ↔
         ∃ d, d ∈ jumps (type piece) ∧ sq = (x + d.1, y + d.2)
              ∧ freeOn h b sq)
  ∧ (∀ sq, sq ∈ (getPieceMoves h b x y).2 ↔
           ∃ d, d ∈ jumps (type piece) ∧ sq = (x + d.1, y + d.2)
                ∧ enemyOn h b piece sq).
Proof.
  intros Hcell Hty. unfold getPieceMoves. rewrite Hcell.
  assert (Hbase : baseMoves h b piece x y
                  = stepAll h b piece x y (jumps (type piece)) ([], [])).
  { unfold baseMoves. by destruct Hty as [-> | ->]. }
  rewrite Hbase.
  destruct (stepAll_spec h b piece x y (jumps (type piece)) ([], []))
    as [Sm Sa].
  cbn [fst snd] in Sm, Sa. split; intros sq.
  - rewrite Sm. split.
    + intros [Hnil|(d & Hd & -> & Hf)]; [by apply elem_of_nil in Hnil|].
      by exists d.
    + intros (d & Hd & -> & Hf). right. by exists d.
  - rewrite Sa. split.
    + intros [Hnil|(d & Hd & -> & Hf)]; [by apply elem_of_nil in Hnil|].
      by exists d.
    + intros (d & Hd & -> & Hf). right. by exists d.
Qed.

Lemma stepping_piece_witness :
  getCell (heap leapGame) (board leapGame) 0 0
  = Some (mkPiece Black Knight false)
  ∧ ∀ sq, sq ∈ (getPieceMoves (heap leapGame) (board leapGame) 0 0).1 ↔
          ∃ d, d ∈ jumps Knight ∧ sq = (0 + d.1, 0 + d.2)
               ∧ freeOn (heap leapGame) (board leapGame) sq.
Proof.
  split; [vm_compute; reflexivity|].
  refine (proj1 (stepping_piece_targets (heap leapGame) (board leapGame) 0 0
                   (mkPiece Black Knight false) _ _)).
  - vm_compute; reflexivity.
  - left; reflexivity.
Defined.

(** X11.  A pawn on [(x, y)] moving in direction [dir] (-1 for White, +1 for
    Black): the square ahead is a move exactly when that cell is empty, the
    square two ahead exactly when both cells are empty and the pawn has not
    moved, and the two diagonal squares ahead are attacks exactly when they
    are on the board and hold a piece of the other colour.  The pushes are
    not bounds-checked: a cell beyond the last rank reads as empty, so a
    pawn standing on the last rank is given the square beyond the board. *)
Theorem pawn_targets (h : Heap) (b : Board) (x y : Z) (piece : Piece) :
  getCell h b x y = Some piece →
  type piece = Pawn →
  (∀ sq, sq ∈ (getPieceMoves h b x y).1 ↔
         (sq = (x, y + pawnDir (color piece))
          ∧ getCell h b x (y + pawnDir (color piece)) = None)
         ∨ (sq = (x, y + 2 * pawnDir (color piece))
            ∧ getCell h b x (y + pawnDir (color piece)) = None
            ∧ getCell h b x (y + 2 * pawnDir (color piece)) = None
            ∧ moved piece = false))
  ∧ (∀ sq, sq ∈ (getPieceMoves h b x y).2 ↔
           ∃ dx, (dx = -1 ∨ dx = 1)
                 ∧ sq = (x + dx, y + pawnDir (color piece))
                 ∧ enemyOn h b piece sq)
  ∧ (onBoard x (y + pawnDir (color piece)) = false →
     getCell h b x (y + pawnDir (color piece)) = None →
     (x, y + pawnDir (color piece)) ∈ (getPieceMoves h b x y).1).
Proof.
  intros Hcell Hty. unfold getPieceMoves. rewrite Hcell.
  unfold baseMoves. rewrite Hty. cbv zeta. cbn [foldl].
  destruct (pawnPushes_spec h b piece x y) as [P2 P1].
  destruct (addAttack_spec h b piece (x + -1) (y + pawnDir (color piece))
              (pawnPushes h b piece x y ([], []))) as [A1 A2].
  destruct (addAttack_spec h b piece (x + 1) (y + pawnDir (color piece))
              (addAttack h b piece (x + -1) (y + pawnDir (color piece))
                 (pawnPushes h b piece x y ([], [])))) as [B1 B2].
  assert (Hmoves : ∀ sq,
    sq ∈ (addAttack h b piece (x + 1) (y + pawnDir (color piece))
            (addAttack h b piece (x + -1) (y + pawnDir (color piece))
               (pawnPushes h b piece x y ([], [])))).1 ↔
    (sq = (x, y + pawnDir (color piece))
     ∧ getCell h b x (y + pawnDir (color piece)) = None)
    ∨ (sq = (x, y + 2 * pawnDir (color piece))
       ∧ getCell h b x (y + pawnDir (color piece)) = None
       ∧ getCell h b x (y + 2 * pawnDir (color piece)) = None
       ∧ moved piece = false)).
  { intros sq. rewrite B1, A1. apply P1. }
  split; [exact Hmoves|]. split.
  - intros sq. rewrite B2, A2, P2. split.
    + intros [[Hnil|[-> He]]|[-> He]].
      * by apply elem_of_nil in Hnil.
      * exists (-1). split; [by left | done].
      * exists 1. split; [by right | done].
    + intros (dx & [-> | ->] & -> & He).
      * left; right. done.
      * right. done.
  - intros _ Hfree. apply Hmoves. by left.
Qed.

Lemma pawn_targets_witness :
  getCell (heap promotionPending) (board promotionPending) 0 0
  = Some (mkPiece White Pawn true)
  ∧ onBoard 0 (0 + pawnDir White) = false
  ∧ (0, 0 + pawnDir White)
      ∈ (getPieceMoves (heap promotionPending) (board promotionPending) 0 0).1.
Proof.
  split; [vm_compute; reflexivity|].
  split; [reflexivity|].
  refine (proj2 (proj2 (pawn_targets (heap promotionPending)
                          (board promotionPending) 0 0
                          (mkPiece White Pawn true) _ _)) _ _).
  - vm_compute; reflexivity.
  - reflexivity.
  - reflexivity.
  - vm_compute; reflexivity.
Defined.

(** The base geometry only lists empty cells as moves and enemy pieces on
    the board as attacks. *)
Lemma baseMoves_sound (h : Heap) (b : Board) (piece : Piece) (x y : Z) :
  (∀ sq, sq ∈ (baseMoves h b piece x y).1 →
         getCell h b sq.1 sq.2 = None
         ∧ (type piece ≠ Pawn → onBoard sq.1 sq.2 = true))
  ∧ (∀ sq, sq ∈ (baseMoves h b piece x y).2 → enemyOn h b piece sq).
Proof.
  assert (Hslide : ∀ dirs,
    (∀ sq, sq ∈ (slideAll h b piece x y dirs ([], [])).1 →
           getCell h b sq.1 sq.2 = None
           ∧ (type piece ≠ Pawn → onBoard sq.1 sq.2 = true))
    ∧ (∀ sq, sq ∈ (slideAll h b piece x y dirs ([], [])).2 →
             enemyOn h b piece sq)).
  { intros dirs.
    destruct (slideAll_spec h b piece x y dirs ([], [])) as [Sm Sa].
    cbv zeta in Sm, Sa. cbn [fst snd] in Sm, Sa. split; intros sq Hsq.
    - apply Sm in Hsq as [Hnil|(d & k & _ & Hk & -> & Hc)];
        [by apply elem_of_nil in Hnil|].
      destruct (Hc k) as [Hon Hfree]; [lia|]. by split.
    - apply Sa in Hsq as [Hnil|(d & k & _ & _ & -> & _ & He)];
        [by apply elem_of_nil in Hnil|]. exact He. }
  assert (Hstep : ∀ offs,
    (∀ sq, sq ∈ (stepAll h b piece x y offs ([], [])).1 →
           getCell h b sq.1 sq.2 = None
           ∧ (type piece ≠ Pawn → onBoard sq.1 sq.2 = true))
    ∧ (∀ sq, sq ∈ (stepAll h b piece x y offs ([], [])).2 →
             enemyOn h b piece sq)).
  { intros offs.
    destruct (stepAll_spec h b piece x y offs ([], [])) as [Sm Sa].
    cbn [fst snd] in Sm, Sa. split; intros sq Hsq.
    - apply Sm in Hsq as [Hnil|(d & _ & -> & Hon & Hfree)];
        [by apply elem_of_nil in Hnil|]. by split.
    - apply Sa in Hsq as [Hnil|(d & _ & -> & He)];
        [by apply elem_of_nil in Hnil|]. exact He. }
  unfold baseMoves. destruct (type piece) eqn:Hty; try apply Hslide;
    try apply Hstep.
  cbv zeta. cbn [foldl].
  destruct (pawnPushes_spec h b piece x y) as [P2 P1].
  destruct (addAttack_spec h b piece (x + -1) (y + pawnDir (color piece))
              (pawnPushes h b piece x y ([], []))) as [A1 A2].
  destruct (addAttack_spec h b piece (x + 1) (y + pawnDir (color piece))
              (addAttack h b piece (x + -1) (y + pawnDir (color piece))
                 (pawnPushes h b piece x y ([], [])))) as [B1 B2].
  split; intros sq Hsq.
  - rewrite B1, A1 in Hsq. apply P1 in Hsq as [[-> Hf]|(-> & _ & Hf & _)];
      (split; [exact Hf | done]).
  - apply B2 in Hsq as [Hsq|[-> He]]; [|exact He].
    apply A2 in Hsq as [Hsq|[-> He]]; [|exact He].
    rewrite P2 in Hsq. by apply elem_of_nil in Hsq.
Qed.

(** X12.  With a table entry for the piece, [calculateValidMoves] lists the base
    destinations and, for each custom move offset, the target when it is on
    the board and empty, and for each custom attack offset, the target when
    it is on the board and holds a piece of the other colour.  An offset is
    never moved from one list to the other: a move offset onto an occupied
    cell and an attack offset onto an empty cell give nothing. *)
Theorem custom_offsets_targets (g : ChessGame) (x y : Z) (piece : Piece)
    (custom : Custom) :
  getCell (heap g) (board g) x y = Some piece →
  ofColor (customMoves (registry g)) (color piece) !! type piece
  = Some custom →
  (∀ sq, sq ∈ validMoves (calculateValidMoves x y g) ↔
         sq ∈ (getPieceMoves (heap g) (board g) x y).1
         ∨ ∃ d, d ∈ cmoves custom ∧ sq = (x + d.1, y + d.2)
                ∧ freeOn (heap g) (board g) sq)
  ∧ (∀ sq, sq ∈ validAttacks (calculateValidMoves x y g) ↔
           sq ∈ (getPieceMoves (heap g) (board g) x y).2
           ∨ ∃ d, d ∈ cattacks custom ∧ sq = (x + d.1, y + d.2)
                  ∧ enemyOn (heap g) (board g) piece sq).
Proof.
  intros Hcell Hcustom.
  unfold calculateValidMoves, getPieceMoves, augmentedMoves.
  rewrite Hcell, Hcustom. cbn [validMoves validAttacks setSelection fst snd].
  split; intros sq.
  - rewrite addCustomMoves_spec. split.
    + intros [?|(d & Hd & -> & Hf)]; [by left|]. right. by exists d.
    + intros [?|(d & Hd & -> & Hf)]; [by left|]. right. by exists d.
  - rewrite addCustomAttacks_spec. split.
    + intros [?|(d & Hd & -> & Hf)]; [by left|]. right. by exists d.
    + intros [?|(d & Hd & -> & Hf)]; [by left|]. right. by exists d.
Qed.

Lemma custom_offsets_witness :
  getCell (heap leapGame) (board leapGame) 0 0
  = Some (mkPiece Black Knight false)
  ∧ ofColor (customMoves (registry leapGame)) Black !! Knight
    = Some (mkCustom [] [(4, 7)])
  ∧ ∀ sq, sq ∈ validAttacks (calculateValidMoves 0 0 leapGame) ↔
          sq ∈ (getPieceMoves (heap leapGame) (board leapGame) 0 0).2
          ∨ ∃ d, d ∈ cattacks (mkCustom [] [(4, 7)])
                 ∧ sq = (0 + d.1, 0 + d.2)
                 ∧ enemyOn (heap leapGame) (board leapGame)
                           (mkPiece Black Knight false) sq.
Proof.
  split; [vm_compute; reflexivity|].
  split; [vm_compute; reflexivity|].
  refine (proj2 (custom_offsets_targets leapGame 0 0
                   (mkPiece Black Knight false) (mkCustom [] [(4, 7)]) _ _)).
  - vm_compute; reflexivity.
  - vm_compute; reflexivity.
Defined.

(** X13.  Whatever the piece and the custom table, every square
    [calculateValidMoves] lists as a move is an empty cell (on the board,
    unless the piece is a pawn), and every square it lists as an attack is
    on the board and holds a piece of the other colour: a piece of the
    mover's own side is never a destination, and no square is in both
    lists.  The board itself is not written. *)
Theorem calculateValidMoves_targets (g : ChessGame) (x y : Z)
    (piece : Piece) :
  getCell (heap g) (board g) x y = Some piece →
  (∀ sq, sq ∈ validMoves (calculateValidMoves x y g) →
         getCell (heap g) (board g) sq.1 sq.2 = None
         ∧ (type piece ≠ Pawn → onBoard sq.1 sq.2 = true))
  ∧ (∀ sq, sq ∈ validAttacks (calculateValidMoves x y g) →
           enemyOn (heap g) (board g) piece sq)
  ∧ (∀ sq, sq ∈ validMoves (calculateValidMoves x y g) →
           sq ∉ validAttacks (calculateValidMoves x y g))
  ∧ board (calculateValidMoves x y g) = board g
  ∧ heap (calculateValidMoves x y g) = heap g.
Proof.
  intros Hcell.
  destruct (baseMoves_sound (heap g) (board g) piece x y) as [Bm Ba].
  assert (Hm : ∀ sq, sq ∈ validMoves (calculateValidMoves x y g) →
             getCell (heap g) (board g) sq.1 sq.2 = None
             ∧ (type piece ≠ Pawn → onBoard sq.1 sq.2 = true)).
  { unfold calculateValidMoves, augmentedMoves. rewrite Hcell.
    destruct (ofColor _ _ !! _) as [custom|];
      cbn [validMoves setSelection fst snd]; [|exact Bm].
    intros sq Hsq.
    apply addCustomMoves_spec in Hsq as [?|(d & _ & -> & Hon & Hf)];
      [by apply Bm | by split]. }
  assert (Ha : ∀ sq, sq ∈ validAttacks (calculateValidMoves x y g) →
             enemyOn (heap g) (board g) piece sq).
  { unfold calculateValidMoves, augmentedMoves. rewrite Hcell.
    destruct (ofColor _ _ !! _) as [custom|];
      cbn [validAttacks setSelection fst snd]; [|exact Ba].
    intros sq Hsq.
    apply addCustomAttacks_spec in Hsq as [?|(d & _ & -> & He)];
      [by apply Ba | exact He]. }
  split; [exact Hm|]. split; [exact Ha|]. split.
  - intros sq Hsq Hatt. apply Hm in Hsq as [Hnone _].
    apply Ha in Hatt as (_ & t & Ht & _). congruence.
  - destruct (calculateValidMoves_frame x y g) as (Hb & Hh & _).
    by split.
Qed.

Lemma calculateValidMoves_targets_witness :
  getCell (heap leapGame) (board leapGame) 0 0
  = Some (mkPiece Black Knight false)
  ∧ ∀ sq, sq ∈ validAttacks (calculateValidMoves 0 0 leapGame) →
          enemyOn (heap leapGame) (board leapGame)
                  (mkPiece Black Knight false) sq.
Proof.
  split; [vm_compute; reflexivity|].
  refine (proj1 (proj2 (calculateValidMoves_targets leapGame 0 0
                          (mkPiece Black Knight false) _))).
  vm_compute; reflexivity.
Defined.

(** ** The king-safety filter and the search for a move *)

(** X14.  With a piece on the selected square, [filterMovesInCheck] keeps, in
    order, exactly the listed moves and attacks after which the colour of
    that piece is not in check on the board with the piece relocated, and
    changes nothing else. *)
Theorem filterMovesInCheck_exact (g : ChessGame) (sq : Square) (l : loc) :
  selectedPiece g = Some sq →
  board g !! sq = Some l →
  ∃ g',
    filterMovesInCheck g = Some g'
    ∧ validMoves g'
      = List.filter (safeAfter (heap g) (board g) (color (heap g !!! l)) sq l)
                    (validMoves g)
    ∧ validAttacks g'
      = List.filter (safeAfter (heap g) (board g) (color (heap g !!! l)) sq l)
                    (validAttacks g)
    ∧ board g' = board g ∧ heap g' = heap g
    ∧ selectedPiece g' = Some sq
    ∧ currentPlayer g' = currentPlayer g
    ∧ moveHistory g' = moveHistory g.
Proof.
  intros Hsel Hl. unfold filterMovesInCheck. rewrite Hsel, Hl.
  eexists. split; [reflexivity|].
  cbn [validMoves validAttacks board heap selectedPiece currentPlayer
       moveHistory setSelection setBoard].
  rewrite (filterSim_board _ _ sq l (validMoves g) (board g) [] Hl).
  rewrite (filterSim_board _ _ sq l (validAttacks g) (board g) [] Hl).
  rewrite !filterSim_kept by exact Hl.
  repeat split; reflexivity.
Qed.

Lemma filterMovesInCheck_exact_witness :
  selectedPiece pawnSelected = Some (0, 1)
  ∧ board pawnSelected !! (0, 1) = Some 1%positive
  ∧ ∃ g', filterMovesInCheck pawnSelected = Some g'
          ∧ board g' = board pawnSelected.
Proof.
  split; [vm_compute; reflexivity|].
  split; [vm_compute; reflexivity|].
  destruct (filterMovesInCheck_exact pawnSelected (0, 1) 1%positive)
    as (g' & Hf & _ & _ & Hb & _).
  - vm_compute; reflexivity.
  - vm_compute; reflexivity.
  - exists g'. split; [exact Hf | exact Hb].
Defined.

Lemma hasValidMovesFrom_result (h : Heap) (c : Color) (sqs : list Square)
    (b : Board) :
  (hasValidMovesFrom h c sqs b).1
  = existsb (λ sq,
      match b !! sq with
      | Some l =>
          bool_decide (color (h !!! l) = c)
          && existsb (safeAfter h b c sq l)
                     ((getPieceMoves h b sq.1 sq.2).1
                      ++ (getPieceMoves h b sq.1 sq.2).2)
      | None => false
      end) sqs.
Proof.
  induction sqs as [|sq sqs IH]; cbn [hasValidMovesFrom existsb]; [done|].
  destruct (b !! sq) as [l|] eqn:Hsq; [|exact IH].
  destruct (bool_decide (color (h !!! l) = c)); cbn [andb orb]; [|exact IH].
  pose proof (tryMoves_board h c sq l
    ((getPieceMoves h b sq.1 sq.2).1 ++ (getPieceMoves h b sq.1 sq.2).2)
    b Hsq) as Hb.
  pose proof (tryMoves_result h c sq l
    ((getPieceMoves h b sq.1 sq.2).1 ++ (getPieceMoves h b sq.1 sq.2).2)
    b Hsq) as Hr.
  destruct (tryMoves _ _ _ _ _ _) as [found b'] eqn:Ht.
  cbn [fst snd] in *. subst b'. unfold safeAfter. rewrite <- Hr.
  destruct found; [done | exact IH].
Qed.

(** X15.  [hasValidMoves(color)] answers [true] exactly when some piece of that
    colour has, among the moves and attacks [getPieceMoves] gives it, a
    destination after which the colour is not in check.  Only the base
    geometry is searched: destinations that exist through an ability card
    alone are not tried. *)
Theorem hasValidMoves_iff_safe_move (h : Heap) (b : Board) (c : Color) :
  (hasValidMoves h b c).1 = true ↔
  ∃ sq l m,
    sq ∈ allSquares
    ∧ b !! sq = Some l
    ∧ color (h !!! l) = c
    ∧ m ∈ (getPieceMoves h b sq.1 sq.2).1 ++ (getPieceMoves h b sq.1 sq.2).2
    ∧ isInCheck h (<[m := l]> (delete sq b)) c = false.
Proof.
  unfold hasValidMoves. rewrite hasValidMovesFrom_result, existsb_exists.
  split.
  - intros (sq & Hin & Hsq).
    destruct (b !! sq) as [l|] eqn:Hl; [|done].
    apply andb_true_iff in Hsq as [Hc Hex].
    apply bool_decide_eq_true in Hc.
    apply existsb_exists in Hex as (m & Hm & Hsafe).
    exists sq, l, m. rewrite !list_elem_of_In.
    unfold safeAfter in Hsafe. apply negb_true_iff in Hsafe. done.
  - intros (sq & l & m & Hin & Hl & Hc & Hm & Hsafe).
    exists sq. split; [by apply list_elem_of_In|].
    rewrite Hl. apply andb_true_iff. split; [by apply bool_decide_eq_true|].
    apply existsb_exists. exists m. split; [by apply list_elem_of_In|].
    unfold safeAfter. by rewrite Hsafe.
Qed.

(** X16.  A colour with no king on the board is never in check and never
    checkmated; it is stalemated exactly when it has no move. *)
Theorem no_king_no_check (h : Heap) (b : Board) (c : Color) :
  (∀ sq p, sq ∈ allSquares → getCell h b sq.1 sq.2 = Some p →
           ¬ (type p = King ∧ color p = c)) →
  findKing h b c = None
  ∧ isInCheck h b c = false
  ∧ (isCheckmate h b c).1 = false
  ∧ (isStalemate h b c).1 = negb (hasValidMoves h b c).1.
Proof.
  intros Hnoking.
  assert (Hfind : findKing h b c = None).
  { destruct (findKing h b c) as [k|] eqn:Hk; [|done]. exfalso.
    pose proof (findKing_holds_king h b c k Hk) as (p & Hp & Hty & Hcol).
    unfold findKing in Hk. apply find_some in Hk as [Hin _].
    apply list_elem_of_In in Hin. by apply (Hnoking k p). }
  assert (Hchk : isInCheck h b c = false).
  { unfold isInCheck. by rewrite Hfind. }
  split; [exact Hfind|]. split; [exact Hchk|].
  unfold isCheckmate, isStalemate. by rewrite Hchk.
Qed.

Lemma no_king_no_check_witness :
  isInCheck (place rookPosition).1 (place rookPosition).2 Black = false
  ∧ (isCheckmate (place rookPosition).1 (place rookPosition).2 Black).1
    = false.
Proof.
  destruct (no_king_no_check (place rookPosition).1 (place rookPosition).2
              Black) as (_ & Hc & Hm & _).
  - intros sq p Hin Hp [Hty Hcol].
    assert (Hnone : findKing (place rookPosition).1 (place rookPosition).2
                             Black = None) by (vm_compute; reflexivity).
    unfold findKing in Hnone. apply list_elem_of_In in Hin.
    pose proof (find_none _ _ Hnone sq Hin) as Hf. cbv beta in Hf.
    rewrite Hp in Hf. rewrite !bool_decide_eq_true_2 in Hf by done.
    discriminate Hf.
  - split; [exact Hc | exact Hm].
Defined.

(** ** What a click can change *)

Lemma filterMovesInCheck_frame (g : ChessGame) :
  match filterMovesInCheck g with
  | Some g' =>
      board g' = board g ∧ heap g' = heap g
      ∧ currentPlayer g' = currentPlayer g
      ∧ moveHistory g' = moveHistory g
      ∧ stats g' = stats g
      ∧ pendingPromotion g' = pendingPromotion g
      ∧ selectedPiece g' = selectedPiece g
  | None => selectedPiece g = None
  end.
Proof.
  unfold filterMovesInCheck.
  destruct (selectedPiece g) as [sq|] eqn:Hsel; [|done].
  destruct (board g !! sq) as [l|] eqn:Hsq; [|by rewrite ?Hsel].
  cbn [board heap currentPlayer moveHistory stats pendingPromotion
       selectedPiece setSelection setBoard].
  rewrite (filterSim_board _ _ sq l (validMoves g) (board g) [] Hsq).
  rewrite (filterSim_board _ _ sq l (validAttacks g) (board g) [] Hsq).
  rewrite ?Hsel. repeat split; reflexivity.
Qed.

Lemma reportPosition_stats (who mover : Color) (g : ChessGame) :
  stats (reportPosition who mover g) = stats g
  ∨ ∃ r, stats (reportPosition who mover g) = recordResult r (stats g).
Proof.
  unfold reportPosition.
  destruct (isCheckmate (heap g) (board g) who) as [cm b1].
  cbn [fst snd]. destruct cm; [right; by eexists|].
  destruct (isStalemate (heap g) b1 who) as [sm b2].
  cbn [fst snd]. destruct sm; [right; by eexists|].
  left. by destruct (isInCheck (heap g) b2 who).
Qed.

Lemma reportPosition_lists (who mover : Color) (g : ChessGame) :
  validMoves (reportPosition who mover g) = validMoves g
  ∧ validAttacks (reportPosition who mover g) = validAttacks g.
Proof.
  unfold reportPosition.
  destruct (isCheckmate (heap g) (board g) who) as [cm b1].
  cbn [fst snd]. destruct cm; [done|].
  destruct (isStalemate (heap g) b1 who) as [sm b2].
  cbn [fst snd]. destruct sm; [done|].
  by destruct (isInCheck (heap g) b2 who).
Qed.

(** The select-or-deselect tail never writes the position. *)
Lemma selectOrDeselect_frame (x y : Z) (g : ChessGame) :
  ∃ g', selectOrDeselect x y g = Done g'
        ∧ board g' = board g ∧ heap g' = heap g
        ∧ currentPlayer g' = currentPlayer g
        ∧ moveHistory g' = moveHistory g
        ∧ stats g' = stats g
        ∧ pendingPromotion g' = pendingPromotion g.
Proof.
  unfold selectOrDeselect.
  destruct (getCell (heap g) (board g) x y) as [clicked|] eqn:Hcell;
    [|by eexists].
  destruct (bool_decide (color clicked = currentPlayer g)); [|by eexists].
  pose proof (filterMovesInCheck_frame
    (calculateValidMoves x y
       (setSelection (Some (x, y)) (validMoves g) (validAttacks g) g)))
    as Hf.
  unfold calculateValidMoves in *.
  cbn [heap board setSelection] in *. rewrite Hcell in *.
  destruct (filterMovesInCheck _) as [g2|].
  - exists g2. split; [reflexivity|].
    cbn [board heap currentPlayer moveHistory stats pendingPromotion
         setSelection] in Hf.
    destruct Hf as (H1 & H2 & H3 & H4 & H5 & H6 & _).
    split; [exact H1|]. split; [exact H2|]. split; [exact H3|].
    split; [exact H4|]. split; [exact H5 | exact H6].
  - discriminate Hf.
Qed.

(** Every outcome of [handleLocalClick], returned or thrown: the board is
    untouched or the selected cell's content has been written onto the
    clicked square; the log is untouched or one move longer; the statistics
    are untouched or one result richer. *)
Lemma handleLocalClick_effects (x y : Z) (g : ChessGame) :
  (board (outcomeGame (handleLocalClick x y g)) = board g
   ∨ ∃ sx sy, board (outcomeGame (handleLocalClick x y g))
              = setCell (x, y) (board g !! (sx, sy))
                        (delete (sx, sy) (board g)))
  ∧ (moveHistory (outcomeGame (handleLocalClick x y g)) = moveHistory g
     ∨ ∃ from to_ p cap,
         moveHistory (outcomeGame (handleLocalClick x y g))
         = addMoveToHistory from to_ p cap (moveHistory g))
  ∧ (stats (outcomeGame (handleLocalClick x y g)) = stats g
     ∨ ∃ r, stats (outcomeGame (handleLocalClick x y g))
            = recordResult r (stats g)).
Proof.
  assert (Hsel : (board (outcomeGame (selectOrDeselect x y g)) = board g
      ∨ ∃ sx sy, board (outcomeGame (selectOrDeselect x y g))
                 = setCell (x, y) (board g !! (sx, sy))
                           (delete (sx, sy) (board g)))
    ∧ (moveHistory (outcomeGame (selectOrDeselect x y g)) = moveHistory g
       ∨ ∃ from to_ p cap,
           moveHistory (outcomeGame (selectOrDeselect x y g))
           = addMoveToHistory from to_ p cap (moveHistory g))
    ∧ (stats (outcomeGame (selectOrDeselect x y g)) = stats g
       ∨ ∃ r, stats (outcomeGame (selectOrDeselect x y g))
              = recordResult r (stats g))).
  { destruct (selectOrDeselect_frame x y g)
      as (g' & -> & Hb & _ & _ & Hm & Hs & _).
    cbn [outcomeGame]. by repeat split; left. }
  unfold handleLocalClick.
  destruct (selectedPiece g) as [[sx sy]|]; [|exact Hsel].
  destruct (hasSquare (x, y) (validMoves g)
            || hasSquare (x, y) (validAttacks g)); [|exact Hsel].
  clear Hsel. unfold commitMove.
  destruct (match board g !! (x, y) with
            | Some k => bool_decide (type (heap g !!! k) = King)
            | None => false
            end).
  { destruct (board g !! (sx, sy)) as [l|]; cbn [outcomeGame].
    - split; [by left|]. split; [by left|]. right. by eexists.
    - by repeat split; left. }
  destruct (board g !! (sx, sy)) as [l|] eqn:Hl.
  2:{ cbn [outcomeGame board moveHistory stats setBoard].
      split; [right; exists sx, sy; by rewrite Hl|]. by split; left. }
  cbn [heap setLastMove setHeap setBoard].
  destruct (bool_decide _ && _).
  { cbn [outcomeGame board moveHistory stats setPromotion setLastMove
         setHeap setBoard].
    split; [right; exists sx, sy; by rewrite Hl|]. by split; left. }
  match goal with
  | |- context [reportPosition ?w ?m ?g0] =>
      destruct (reportPosition_frame w m g0) as (_ & Hb & _ & Hm & _);
      pose proof (reportPosition_stats w m g0) as Hs;
      revert Hb Hm Hs;
      generalize (reportPosition w m g0)
  end.
  intros g5 Hb Hm Hs. cbn [outcomeGame].
  cbn [board moveHistory stats setCurrentPlayer setSelection setMoveHistory
       setLastMove setHeap setBoard] in Hb, Hm, Hs.
  split; [right; exists sx, sy; by rewrite Hl, Hb|].
  split; [right; rewrite Hm; by eexists _, _, _, _|].
  exact Hs.
Qed.

(** X17.  A click on a square that is not a listed destination of the current
    selection never throws and never changes the position: board, pieces,
    side to move, log, statistics and pending promotion stay as they are
    (only the selection and its lists are rewritten). *)
Theorem click_elsewhere_keeps_position (g : ChessGame) (x y : Z) :
  selectedPiece g = None
  ∨ hasSquare (x, y) (validMoves g) || hasSquare (x, y) (validAttacks g)
    = false →
  ∃ g', handleLocalClick x y g = Done g'
        ∧ board g' = board g ∧ heap g' = heap g
        ∧ currentPlayer g' = currentPlayer g
        ∧ moveHistory g' = moveHistory g
        ∧ stats g' = stats g
        ∧ pendingPromotion g' = pendingPromotion g.
Proof.
  intros Hno. unfold handleLocalClick.
  destruct (selectedPiece g) as [[sx sy]|].
  - destruct Hno as [Hno|Hno]; [discriminate Hno|]. rewrite Hno.
    apply selectOrDeselect_frame.
  - apply selectOrDeselect_frame.
Qed.

Lemma click_elsewhere_witness :
  selectedPiece pawnOnSeventh = None
  ∧ ∃ g', handleLocalClick 3 3 pawnOnSeventh = Done g'
          ∧ board g' = board pawnOnSeventh.
Proof.
  split; [reflexivity|].
  destruct (click_elsewhere_keeps_position pawnOnSeventh 3 3)
    as (g' & Hc & Hb & _).
  - left; reflexivity.
  - exists g'. split; [exact Hc | exact Hb].
Defined.

(** The selection step in full. *)
Lemma selectOrDeselect_own (g : ChessGame) (x y : Z) (l : loc) :
  board g !! (x, y) = Some l →
  color (heap g !!! l) = currentPlayer g →
  selectOrDeselect x y g
  = Done (setSelection (Some (x, y))
            (List.filter
               (safeAfter (heap g) (board g) (color (heap g !!! l)) (x, y) l)
               (augmentedMoves (heap g) (board g) (customMoves (registry g))
                               (heap g !!! l) x y).1)
            (List.filter
               (safeAfter (heap g) (board g) (color (heap g !!! l)) (x, y) l)
               (augmentedMoves (heap g) (board g) (customMoves (registry g))
                               (heap g !!! l) x y).2)
            g).
Proof.
  intros Hl Hcol. unfold selectOrDeselect.
  rewrite (getCell_lookup _ _ x y l Hl).
  rewrite bool_decide_eq_true_2 by exact Hcol.
  unfold calculateValidMoves. cbn [heap board setSelection registry].
  rewrite (getCell_lookup _ _ x y l Hl).
  unfold filterMovesInCheck.
  cbn [selectedPiece board heap validMoves validAttacks setSelection
       setBoard].
  rewrite Hl.
  rewrite (filterSim_board _ _ (x, y) l _ (board g) [] Hl).
  rewrite (filterSim_board _ _ (x, y) l _ (board g) [] Hl).
  rewrite !filterSim_kept by exact Hl.
  cbn [app]. by destruct g.
Qed.

(** X18.  A click on a piece of the side to move, when the square is not a
    listed destination: the piece becomes the selection and the two lists
    are the output of [calculateValidMoves] with, in order, exactly the
    destinations kept after which the mover is not in check.  The position
    is not changed. *)
Theorem select_own_piece (g : ChessGame) (x y : Z) (l : loc) :
  selectedPiece g = None
  ∨ hasSquare (x, y) (validMoves g) || hasSquare (x, y) (validAttacks g)
    = false →
  board g !! (x, y) = Some l →
  color (heap g !!! l) = currentPlayer g →
  ∃ g', handleLocalClick x y g = Done g'
        ∧ selectedPiece g' = Some (x, y)
        ∧ validMoves g'
          = List.filter
              (safeAfter (heap g) (board g) (currentPlayer g) (x, y) l)
              (validMoves (calculateValidMoves x y g))
        ∧ validAttacks g'
          = List.filter
              (safeAfter (heap g) (board g) (currentPlayer g) (x, y) l)
              (validAttacks (calculateValidMoves x y g))
        ∧ board g' = board g ∧ heap g' = heap g
        ∧ currentPlayer g' = currentPlayer g.
Proof.
  intros Hno Hl Hcol.
  assert (Hclick : handleLocalClick x y g = selectOrDeselect x y g).
  { unfold handleLocalClick. destruct (selectedPiece g) as [[sx sy]|];
      [|reflexivity].
    destruct Hno as [Hno|Hno]; [discriminate Hno | by rewrite Hno]. }
  rewrite Hclick, (selectOrDeselect_own g x y l Hl Hcol).
  eexists. split; [reflexivity|].
  unfold calculateValidMoves. rewrite (getCell_lookup _ _ x y l Hl).
  cbn [selectedPiece validMoves validAttacks board heap currentPlayer
       setSelection].
  rewrite Hcol. repeat split; reflexivity.
Qed.

Lemma select_own_piece_witness :
  selectedPiece pawnOnSeventh = None
  ∧ board pawnOnSeventh !! (0, 1) = Some 1%positive
  ∧ ∃ g', handleLocalClick 0 1 pawnOnSeventh = Done g'
          ∧ selectedPiece g' = Some (0, 1)
          ∧ board g' = board pawnOnSeventh.
Proof.
  split; [reflexivity|].
  split; [vm_compute; reflexivity|].
  destruct (select_own_piece pawnOnSeventh 0 1 1%positive)
    as (g' & Hc & Hs & _ & _ & Hb & _).
  - left; reflexivity.
  - vm_compute; reflexivity.
  - vm_compute; reflexivity.
  - exists g'. split; [exact Hc|]. split; [exact Hs | exact Hb].
Defined.

(** X19.  An accepted local move that takes no king and is not a pawn reaching
    rank 0 or 7: the reference of the moving piece is written on the clicked
    square (replacing what was there) and removed from the selected square,
    the piece is marked moved, the move is logged with the capture flag of
    the clicked cell, the selection is cleared and the turn passes. *)
Theorem accepted_move_commits (g : ChessGame) (sx sy x y : Z) (l : loc) :
  selectedPiece g = Some (sx, sy) →
  hasSquare (x, y) (validMoves g) || hasSquare (x, y) (validAttacks g) = true →
  board g !! (sx, sy) = Some l →
  (∀ k, board g !! (x, y) = Some k → type (heap g !!! k) ≠ King) →
  (type (heap g !!! l) = Pawn → y ≠ 0 ∧ y ≠ 7) →
  ∃ g', handleLocalClick x y g = Done g'
        ∧ heap g' = <[l := setMoved (heap g !!! l)]> (heap g)
        ∧ board g' = <[(x, y) := l]> (delete (sx, sy) (board g))
        ∧ currentPlayer g' = otherColor (currentPlayer g)
        ∧ moveHistory g'
          = addMoveToHistory (sx, sy) (x, y) (setMoved (heap g !!! l))
              (bool_decide (is_Some (board g !! (x, y)))) (moveHistory g)
        ∧ selectedPiece g' = None
        ∧ validMoves g' = [] ∧ validAttacks g' = []
        ∧ lastMove g' = Some ((sx, sy), (x, y))
        ∧ pendingPromotion g' = pendingPromotion g.
Proof.
  intros Hsel Hdest Hl Hnoking Hnopromo.
  assert (Hp : bool_decide (type (setMoved (heap g !!! l)) = Pawn)
               && ((y =? 0) || (y =? 7)) = false).
  { cbn [type setMoved].
    destruct (decide (type (heap g !!! l) = Pawn)) as [Hpawn|Hpawn].
    - destruct (Hnopromo Hpawn) as [H0 H7].
      apply Z.eqb_neq in H0, H7. rewrite H0, H7. apply andb_false_r.
    - by rewrite bool_decide_eq_false_2. }
  assert (Hk : match board g !! (x, y) with
               | Some k => bool_decide (type (heap g !!! k) = King)
               | None => false
               end = false).
  { destruct (board g !! (x, y)) as [k|] eqn:Hk; [|reflexivity].
    apply bool_decide_eq_false_2. by apply Hnoking. }
  unfold handleLocalClick. rewrite Hsel, Hdest. unfold commitMove.
  rewrite Hl, Hk. cbn [setCell heap setLastMove setHeap setBoard].
  rewrite lookup_total_insert_eq, Hp.
  match goal with
  | |- context [reportPosition ?w ?m ?g0] =>
      destruct (reportPosition_frame w m g0)
        as (Hh & Hb & Hc & Hm & Hpp & _ & Hs & Hlm);
      pose proof (reportPosition_lists w m g0) as [Hvm Hva];
      revert Hh Hb Hc Hm Hpp Hs Hlm Hvm Hva;
      generalize (reportPosition w m g0)
  end.
  intros g5 Hh Hb Hc Hm Hpp Hs Hlm Hvm Hva. exists g5.
  split; [reflexivity|].
  rewrite Hh, Hb, Hc, Hm, Hpp, Hs, Hlm, Hvm, Hva. repeat split.
Qed.

Lemma accepted_move_witness :
  selectedPiece (rookFacing Knight) = Some (0, 7)
  ∧ board (rookFacing Knight) !! (0, 7) = Some 1%positive
  ∧ board (rookFacing Knight) !! (0, 3) = Some 2%positive
  ∧ ∃ g', handleLocalClick 0 3 (rookFacing Knight) = Done g'
          ∧ board g' = <[(0, 3) := 1%positive]>
                         (delete (0, 7) (board (rookFacing Knight)))
          ∧ currentPlayer g' = otherColor (currentPlayer (rookFacing Knight)).
Proof.
  split; [vm_compute; reflexivity|].
  split; [vm_compute; reflexivity|].
  split; [vm_compute; reflexivity|].
  destruct (accepted_move_commits (rookFacing Knight) 0 7 0 3 1%positive)
    as (g' & Hc & _ & Hb & Hp & _).
  - vm_compute; reflexivity.
  - vm_compute; reflexivity.
  - vm_compute; reflexivity.
  - intros k Hk Hking. vm_compute in Hk. injection Hk as <-.
    vm_compute in Hking. discriminate Hking.
  - intros Hpawn. vm_compute in Hpawn. discriminate Hpawn.
  - exists g'. split; [exact Hc|]. split; [exact Hb | exact Hp].
Defined.

(** X20.  A stale selection: the selected square is empty (its piece has been
    moved away while the selection was kept, as after a pending promotion)
    and a listed destination is clicked.  If that destination holds a king,
    [handleLocalClick] throws at [piece.color] before writing; otherwise it
    throws at [piece.moved] after having emptied the clicked cell. *)
Theorem stale_selection_throws (g : ChessGame) (sx sy x y : Z) :
  selectedPiece g = Some (sx, sy) →
  hasSquare (x, y) (validMoves g) || hasSquare (x, y) (validAttacks g) = true →
  board g !! (sx, sy) = None →
  (∀ k, board g !! (x, y) = Some k → type (heap g !!! k) = King →
        handleLocalClick x y g = TypeError g)
  ∧ ((∀ k, board g !! (x, y) = Some k → type (heap g !!! k) ≠ King) →
     handleLocalClick x y g
     = TypeError (setBoard (delete (x, y) (delete (sx, sy) (board g))) g)).
Proof.
  intros Hsel Hdest Hl. unfold handleLocalClick. rewrite Hsel, Hdest.
  unfold commitMove. rewrite Hl. split.
  - intros k Hk Hking. rewrite Hk. by rewrite bool_decide_eq_true_2.
  - intros Hnoking.
    destruct (board g !! (x, y)) as [k|] eqn:Hk; [|reflexivity].
    rewrite bool_decide_eq_false_2 by (by apply Hnoking). reflexivity.
Qed.

Lemma stale_selection_witness :
  selectedPiece promotionPending = Some (0, 1)
  ∧ board promotionPending !! (0, 1) = None
  ∧ handleLocalClick 0 0 promotionPending
    = TypeError (setBoard (delete (0, 0) (delete (0, 1)
                   (board promotionPending))) promotionPending).
Proof.
  split; [vm_compute; reflexivity|].
  split; [vm_compute; reflexivity|].
  refine (proj2 (stale_selection_throws promotionPending 0 1 0 0 _ _ _) _).
  - vm_compute; reflexivity.
  - vm_compute; reflexivity.
  - vm_compute; reflexivity.
  - intros k Hk Hking. vm_compute in Hk. injection Hk as <-.
    vm_compute in Hking. discriminate Hking.
Defined.

(** ** Invariants of the local session *)

Lemma setLastBlack_lookup (s : string) (mh : list HistoryEntry) (i : nat)
    (e' : HistoryEntry) :
  setLastBlack s mh !! i = Some e' →
  ∃ e, mh !! i = Some e ∧ number e' = number e.
Proof.
  revert i. induction mh as [|e mh IH]; intros i Hi; [done|].
  destruct mh as [|e2 mh].
  - destruct i as [|i]; [|done]. cbn in Hi. injection Hi as <-.
    by exists e.
  - change (setLastBlack s (e :: e2 :: mh))
      with (e :: setLastBlack s (e2 :: mh)) in Hi.
    destruct i as [|i]; [|by apply IH].
    cbn [lookup list_lookup] in Hi. injection Hi as <-. by exists e.
Qed.

Lemma setLastBlack_length (s : string) (mh : list HistoryEntry) :
  length (setLastBlack s mh) = length mh.
Proof.
  induction mh as [|e mh IH]; [done|].
  destruct mh as [|e2 mh]; [done|].
  change (setLastBlack s (e :: e2 :: mh))
    with (e :: setLastBlack s (e2 :: mh)).
  cbn [length]. by rewrite IH.
Qed.

Lemma setLastBlack_snoc (s : string) (mh : list HistoryEntry)
    (e : HistoryEntry) :
  setLastBlack s (mh ++ [e]) = mh ++ [mkEntry (number e) (whiteMove e) s].
Proof.
  induction mh as [|e1 mh IH]; [done|].
  cbn [app]. destruct (mh ++ [e]) as [|e2 rest] eqn:Happ.
  { by destruct mh. }
  change (setLastBlack s (e1 :: e2 :: rest))
    with (e1 :: setLastBlack s (e2 :: rest)).
  by rewrite IH.
Qed.

Lemma addMoveToHistory_numbered (from to_ : Square) (p : Piece) (cap : bool)
    (mh : list HistoryEntry) :
  numbered mh → numbered (addMoveToHistory from to_ p cap mh).
Proof.
  intros Hn i e. unfold addMoveToHistory. destruct (color p).
  - intros Hi. apply lookup_app_Some in Hi as [Hi|[Hlen Hi]];
      [by apply Hn|].
    apply list_lookup_singleton_Some in Hi as [Hi <-]. cbn [number]. lia.
  - intros Hi. apply setLastBlack_lookup in Hi as (e0 & He0 & ->).
    by apply Hn.
Qed.

Lemma removelast_lookup {A} (l : list A) (i : nat) (x : A) :
  removelast l !! i = Some x → l !! i = Some x.
Proof.
  revert i. induction l as [|a l IH]; intros i Hi; [done|].
  destruct l as [|a2 l]; [done|].
  change (removelast (a :: a2 :: l)) with (a :: removelast (a2 :: l)) in Hi.
  destruct i as [|i]; [done|]. by apply IH.
Qed.

Lemma recordResult_consistent (r : Result) (s : Stats) :
  statsConsistent s →
  statsConsistent (recordResult r s) ∧ total (recordResult r s) = total s + 1.
Proof.
  unfold statsConsistent. intros Hs.
  destruct r as [[]|]; cbn [recordResult total whiteWins blackWins draws];
    lia.
Qed.

Lemma selectPromotion_effects (t : PieceType) (g : ChessGame) :
  board (selectPromotion t g) = board g
  ∧ (moveHistory (selectPromotion t g) = moveHistory g
     ∨ ∃ from to_ p cap,
         moveHistory (selectPromotion t g)
         = addMoveToHistory from to_ p cap (moveHistory g))
  ∧ (stats (selectPromotion t g) = stats g
     ∨ ∃ r, stats (selectPromotion t g) = recordResult r (stats g)).
Proof.
  destruct (pendingPromotion g) as [pend|] eqn:Hpend.
  2:{ unfold selectPromotion. rewrite Hpend. by repeat split; left. }
  destruct (selectPromotion_frame t g pend Hpend)
    as (_ & Hb & _ & _ & _ & Hm).
  split; [exact Hb|]. split; [right; rewrite Hm; by eexists _, _, _, _|].
  unfold selectPromotion. rewrite Hpend.
  match goal with
  | |- context [reportPosition ?w ?m ?g0] =>
      pose proof (reportPosition_stats w m g0) as Hs;
      revert Hs; generalize (reportPosition w m g0)
  end.
  intros g5 Hs. cbn [stats setSelection]. exact Hs.
Qed.

Lemma wfBoardb_true (b : Board) : wfBoardb b = true → wfBoard b.
Proof.
  unfold wfBoardb. rewrite forallb_forall. intros Hall sq l Hl.
  apply (Hall (sq, l)). apply list_elem_of_In. by apply elem_of_map_to_list.
Qed.

(** X21.  Pieces never leave the 64 squares through a click.  [handleClick]
    ignores a pointer position outside the board and maps a position on the
    board, flipped or not, to a square of the board; whatever the handler
    then does, returning or throwing, every reference on the board still
    sits on one of the 64 squares.  In particular the square beyond the
    last rank that a pawn may be given is never written, and
    [selectPromotion] leaves the board as it is. *)
Theorem clicks_keep_pieces_on_board (boardFlipped : bool) (dx dy : Z)
    (t : PieceType) (g : ChessGame) :
  wfBoard (board g) →
  wfBoard (board (outcomeGame (handleClick boardFlipped dx dy g)))
  ∧ wfBoard (board (selectPromotion t g)).
Proof.
  intros Hwf. split.
  2:{ by rewrite (proj1 (selectPromotion_effects t g)). }
  unfold handleClick.
  destruct ((dx <? 0) || (dx >? 7) || (dy <? 0) || (dy >? 7)) eqn:Hout;
    [exact Hwf|].
  assert (Hon : onBoard (getLogicalCoords boardFlipped dx dy).1
                        (getLogicalCoords boardFlipped dx dy).2 = true).
  { assert (Hd : onBoard dx dy = true) by (unfold onBoard; by rewrite Hout).
    apply onBoard_bounds in Hd. apply onBoard_bounds.
    unfold getLogicalCoords. destruct boardFlipped; cbn [fst snd]; lia. }
  destruct (getLogicalCoords boardFlipped dx dy) as [x y]. cbn [fst snd] in *.
  destruct (handleLocalClick_effects x y g) as [[Hb|(sx & sy & Hb)] _];
    rewrite Hb; [exact Hwf|].
  intros sq l Hl. unfold setCell in Hl.
  destruct (board g !! (sx, sy)) as [l0|].
  - destruct (decide (sq = (x, y))) as [-> |Hne]; [exact Hon|].
    rewrite lookup_insert_ne in Hl by done.
    apply lookup_delete_Some in Hl as [_ Hl]. by apply (Hwf sq l).
  - apply lookup_delete_Some in Hl as [_ Hl].
    apply lookup_delete_Some in Hl as [_ Hl]. by apply (Hwf sq l).
Qed.

Lemma clicks_keep_pieces_witness :
  wfBoard (board promotionPending)
  ∧ wfBoard (board (outcomeGame (handleClick true 7 7 promotionPending))).
Proof.
  assert (Hwf : wfBoard (board promotionPending)).
  { apply wfBoardb_true. vm_compute. reflexivity. }
  split; [exact Hwf|].
  apply (clicks_keep_pieces_on_board true 7 7 Queen promotionPending Hwf).
Defined.

(** X22.  The move log stays numbered 1, 2, 3, ... whatever is clicked, whatever
    promotion is chosen and when [requestUndo] drops entries. *)
Theorem log_stays_numbered (g : ChessGame) (x y : Z) (t : PieceType)
    (isLocalGame wsOpen : bool) :
  numbered (moveHistory g) →
  numbered (moveHistory (outcomeGame (handleLocalClick x y g)))
  ∧ numbered (moveHistory (selectPromotion t g))
  ∧ numbered (requestUndo isLocalGame wsOpen (moveHistory g)).1.
Proof.
  intros Hn. split; [|split].
  - destruct (handleLocalClick_effects x y g)
      as (_ & [Hm|(from & to_ & p & cap & Hm)] & _); rewrite Hm;
      [exact Hn | by apply addMoveToHistory_numbered].
  - destruct (selectPromotion_effects t g)
      as (_ & [Hm|(from & to_ & p & cap & Hm)] & _); rewrite Hm;
      [exact Hn | by apply addMoveToHistory_numbered].
  - unfold requestUndo. destruct isLocalGame; [|by destruct wsOpen].
    destruct (Z.of_nat (length (moveHistory g)) <? 2); [exact Hn|].
    cbn [fst]. intros i e Hi. apply Hn. by do 2 apply removelast_lookup.
Qed.

Lemma log_stays_numbered_witness :
  numbered (moveHistory (rookFacing Knight))
  ∧ numbered (moveHistory
                (outcomeGame (handleLocalClick 0 3 (rookFacing Knight)))).
Proof.
  assert (Hn : numbered (moveHistory (rookFacing Knight))).
  { intros i e Hi. vm_compute in Hi. destruct i; discriminate Hi. }
  split; [exact Hn|].
  apply (log_stays_numbered (rookFacing Knight) 0 3 Queen true false Hn).
Defined.

(** X23.  The statistics stay consistent (total = white + black + draws) and the
    total never decreases and grows by at most one, whatever is clicked and
    whatever promotion is chosen. *)
Theorem stats_stay_consistent (g : ChessGame) (x y : Z) (t : PieceType) :
  statsConsistent (stats g) →
  (statsConsistent (stats (outcomeGame (handleLocalClick x y g)))
   ∧ total (stats g) ≤ total (stats (outcomeGame (handleLocalClick x y g)))
     ≤ total (stats g) + 1)
  ∧ (statsConsistent (stats (selectPromotion t g))
     ∧ total (stats g) ≤ total (stats (selectPromotion t g))
       ≤ total (stats g) + 1).
Proof.
  intros Hs. split.
  - destruct (handleLocalClick_effects x y g) as (_ & _ & [He|(r & He)]);
      rewrite He; [split; [exact Hs | lia]|].
    destruct (recordResult_consistent r (stats g) Hs) as [Hc Ht].
    split; [exact Hc | lia].
  - destruct (selectPromotion_effects t g) as (_ & _ & [He|(r & He)]);
      rewrite He; [split; [exact Hs | lia]|].
    destruct (recordResult_consistent r (stats g) Hs) as [Hc Ht].
    split; [exact Hc | lia].
Qed.

Lemma stats_stay_consistent_witness :
  statsConsistent (stats rookTakesKing)
  ∧ statsConsistent (stats (outcomeGame (handleLocalClick 4 0 rookTakesKing))).
Proof.
  assert (Hs : statsConsistent (stats rookTakesKing)).
  { vm_compute. reflexivity. }
  split; [exact Hs|].
  apply (stats_stay_consistent rookTakesKing 4 0 Queen Hs).
Defined.

(** ** Notation, undo, orientation, evaluation *)

(** X24.  The notation of a move between squares of the board determines the two
    squares, the capture flag and the piece letter: two moves with the same
    notation agree on all four.  (It does not record which piece was
    taken.) *)
Theorem notation_determines_move (from to_ from' to_' : Square)
    (t t' : PieceType) (cap cap' : bool) :
  onBoard from.1 from.2 = true → onBoard to_.1 to_.2 = true →
  onBoard from'.1 from'.2 = true → onBoard to_'.1 to_'.2 = true →
  notation from to_ t cap = notation from' to_' t' cap' →
  from = from' ∧ to_ = to_' ∧ cap = cap' ∧ t = t'.
Proof.
  intros Hf Ht Hf' Ht' Heq.
  pose proof (parseNotation_notation from to_ t cap Hf Ht) as Hp.
  pose proof (parseNotation_notation from' to_' t' cap' Hf' Ht') as Hp'.
  rewrite Heq, Hp' in Hp. injection Hp as -> -> ->.
  split; [done|]. split; [done|]. split; [done|].
  destruct from as [fx fy]. apply onBoard_bounds in Hf.
  cbn [fst snd] in Hf. unfold notation, squareNotation in Heq.
  cbn [fst] in Heq.
  assert (Hfx : fx = 0 ∨ fx = 1 ∨ fx = 2 ∨ fx = 3 ∨ fx = 4 ∨ fx = 5
                ∨ fx = 6 ∨ fx = 7) by lia.
  destruct Hfx as [-> |[-> |[-> |[-> |[-> |[-> |[-> | ->]]]]]]];
    destruct t, t'; try reflexivity; cbn in Heq; discriminate Heq.
Qed.

Lemma notation_determines_witness :
  onBoard 0 7 = true ∧ onBoard 0 3 = true
  ∧ notation (0, 7) (0, 3) Rook true = notation (0, 7) (0, 3) Rook true
  ∧ ((0, 7) : Square) = (0, 7) ∧ ((0, 3) : Square) = (0, 3)
  ∧ true = true ∧ Rook = Rook.
Proof.
  split; [reflexivity|]. split; [reflexivity|]. split; [reflexivity|].
  apply (notation_determines_move (0, 7) (0, 3) (0, 7) (0, 3) Rook Rook
           true true); reflexivity.
Defined.

(** X25.  In a local game [requestUndo] removes the last two entries of the log,
    that is two full moves: after White, Black, White and Black have each
    logged a move, it returns the log to what it was before all four.  With
    fewer than two entries it changes nothing, and in an online game it
    never touches the log.  (The board is not among its inputs.) *)
Theorem requestUndo_drops_two_full_moves (mh : list HistoryEntry)
    (f1 t1 f2 t2 f3 t3 f4 t4 : Square) (w1 b1 w2 b2 : Piece)
    (c1 c2 c3 c4 wsOpen : bool) :
  color w1 = White → color b1 = Black →
  color w2 = White → color b2 = Black →
  requestUndo true wsOpen
    (addMoveToHistory f4 t4 b2 c4
       (addMoveToHistory f3 t3 w2 c3
          (addMoveToHistory f2 t2 b1 c2
             (addMoveToHistory f1 t1 w1 c1 mh))))
  = (mh, UndoNotImplemented)
  ∧ (∀ short, (length short < 2)%nat →
              requestUndo true wsOpen short = (short, UndoTooFewMoves))
  ∧ (∀ any, (requestUndo false wsOpen any).1 = any).
Proof.
  intros Hw1 Hb1 Hw2 Hb2. split; [|split].
  - unfold addMoveToHistory. rewrite Hw1, Hb1, Hw2, Hb2.
    rewrite setLastBlack_snoc. cbn [number whiteMove].
    rewrite setLastBlack_snoc. cbn [number whiteMove].
    unfold requestUndo. rewrite !length_app. cbn [length].
    destruct (Z.ltb_spec (Z.of_nat (length mh + 1 + 1)) 2) as [Hlt|_];
      [lia|].
    by rewrite !removelast_last.
  - intros short Hlen. unfold requestUndo.
    destruct (Z.ltb_spec (Z.of_nat (length short)) 2) as [_|Hge];
      [reflexivity | lia].
  - intros any. unfold requestUndo. by destruct wsOpen.
Qed.

Lemma requestUndo_witness :
  (requestUndo true false
     (addMoveToHistory (4, 1) (4, 3) (mkPiece Black Pawn true) false
        (addMoveToHistory (4, 6) (4, 4) (mkPiece White Pawn true) false
           (addMoveToHistory (0, 1) (0, 2) (mkPiece Black Pawn true) false
              (addMoveToHistory (0, 6) (0, 5) (mkPiece White Pawn true)
                 false []))))).1 = [].
Proof.
  rewrite (proj1 (requestUndo_drops_two_full_moves []
             (0, 6) (0, 5) (0, 1) (0, 2) (4, 6) (4, 4) (4, 1) (4, 3)
             (mkPiece White Pawn true) (mkPiece Black Pawn true)
             (mkPiece White Pawn true) (mkPiece Black Pawn true)
             false false false false false
             eq_refl eq_refl eq_refl eq_refl)).
  reflexivity.
Defined.

(** X26.  Flipping the board is its own inverse on coordinates: display and
    logical coordinates convert back and forth without loss, and a square
    of the board is always shown on, and read from, a cell of the board. *)
Theorem flipped_coordinates_round_trip (boardFlipped : bool) (x y : Z) :
  getLogicalCoords boardFlipped (getDisplayCoords boardFlipped x y).1
                   (getDisplayCoords boardFlipped x y).2 = (x, y)
  ∧ getDisplayCoords boardFlipped (getLogicalCoords boardFlipped x y).1
                     (getLogicalCoords boardFlipped x y).2 = (x, y)
  ∧ onBoard (getDisplayCoords boardFlipped x y).1
            (getDisplayCoords boardFlipped x y).2 = onBoard x y
  ∧ onBoard (getLogicalCoords boardFlipped x y).1
            (getLogicalCoords boardFlipped x y).2 = onBoard x y.
Proof.
  assert (Hflip : onBoard (7 - x) (7 - y) = onBoard x y).
  { destruct (onBoard x y) eqn:Hon.
    - apply onBoard_bounds in Hon. apply onBoard_bounds. lia.
    - apply not_true_is_false. intros Hon'. apply onBoard_bounds in Hon'.
      assert (Ht : onBoard x y = true) by (apply onBoard_bounds; lia).
      congruence. }
  unfold getLogicalCoords, getDisplayCoords.
  destruct boardFlipped; cbn [fst snd]; repeat split; try exact Hflip;
    f_equal; lia.
Qed.

Lemma evaluatePosition_sum (h : Heap) (b : Board) :
  evaluatePosition h b = foldr Z.add 0 (cellValue h b <$> allSquares).
Proof.
  unfold evaluatePosition.
  assert (Hgen : ∀ (l : list Square) (a : Z),
    foldl (λ evaluation sq,
             match getCell h b sq.1 sq.2 with
             | Some piece => evaluation + signedValue piece
             | None => evaluation
             end) a l
    = a + foldr Z.add 0 (cellValue h b <$> l)).
  { induction l as [|sq l IH]; intros a; cbn [foldl foldr fmap list_fmap].
    - lia.
    - rewrite IH. unfold cellValue.
      destruct (getCell h b sq.1 sq.2); lia. }
  rewrite Hgen. lia.
Qed.

(** Changing a function at one point of a duplicate-free list changes the
    sum of its values by the difference at that point. *)
Lemma sum_change_at (l : list Square) (v v' : Square → Z) (a : Square) :
  NoDup l → a ∈ l → (∀ k, k ≠ a → v' k = v k) →
  foldr Z.add 0 (v' <$> l) = foldr Z.add 0 (v <$> l) + (v' a - v a).
Proof.
  intros Hnd Hin Hsame.
  assert (Hout : ∀ l0 : list Square, a ∉ l0 →
                 foldr Z.add 0 (v' <$> l0) = foldr Z.add 0 (v <$> l0)).
  { induction l0 as [|k l0 IH]; intros Hk; [done|].
    cbn [foldr fmap list_fmap]. apply not_elem_of_cons in Hk as [Hne Hk].
    rewrite (IH Hk), (Hsame k) by done. reflexivity. }
  induction l as [|k l IH]; [by apply elem_of_nil in Hin|].
  apply NoDup_cons in Hnd as [Hk Hnd]. cbn [foldr fmap list_fmap].
  apply elem_of_cons in Hin as [<- |Hin].
  - rewrite (Hout l Hk). lia.
  - rewrite (IH Hnd Hin), (Hsame k); [lia|]. intros ->. done.
Qed.

Lemma allSquares_NoDup : NoDup allSquares.
Proof. apply (bool_decide_unpack (NoDup allSquares)). vm_compute. exact I. Qed.

(** X27.  Relocating a piece on the board, as a move does, changes the material
    evaluation by exactly the signed value of the piece that stood on the
    destination: nothing for a move onto an empty square, and always
    nothing when a king is taken.  The [moved] flag plays no part. *)
Theorem evaluatePosition_after_move (h : Heap) (b : Board) (sq m : Square)
    (l : loc) :
  b !! sq = Some l →
  onBoard sq.1 sq.2 = true →
  onBoard m.1 m.2 = true →
  sq ≠ m →
  evaluatePosition h (<[m := l]> (delete sq b))
  = evaluatePosition h b - cellValue h b m
  ∧ signedValue (setMoved (h !!! l)) = signedValue (h !!! l).
Proof.
  intros Hl Hsq Hm Hne. split; [|reflexivity].
  rewrite !evaluatePosition_sum.
  destruct sq as [sx sy], m as [mx my]. cbn [fst snd] in *.
  pose proof (onBoard_allSquares sx sy Hsq) as Hin1.
  pose proof (onBoard_allSquares mx my Hm) as Hin2.
  rewrite (sum_change_at allSquares (cellValue h (delete (sx, sy) b))
             (cellValue h (<[(mx, my) := l]> (delete (sx, sy) b))) (mx, my)
             allSquares_NoDup Hin2).
  2:{ intros [kx ky] Hk. unfold cellValue, getCell. cbn [fst snd].
      by rewrite lookup_insert_ne. }
  rewrite (sum_change_at allSquares (cellValue h b)
             (cellValue h (delete (sx, sy) b)) (sx, sy)
             allSquares_NoDup Hin1).
  2:{ intros [kx ky] Hk. unfold cellValue, getCell. cbn [fst snd].
      by rewrite lookup_delete_ne. }
  unfold cellValue, getCell. cbn [fst snd].
  rewrite lookup_insert_eq, lookup_delete_eq, Hl.
  rewrite (lookup_delete_ne b (sx, sy) (mx, my)) by done.
  cbn [fmap option_fmap option_map]. lia.
Qed.

Lemma evaluatePosition_witness :
  board (rookFacing Knight) !! (0, 7) = Some 1%positive
  ∧ evaluatePosition (heap (rookFacing Knight))
      (<[(0, 3) := 1%positive]> (delete (0, 7) (board (rookFacing Knight))))
    = evaluatePosition (heap (rookFacing Knight)) (board (rookFacing Knight))
      - cellValue (heap (rookFacing Knight)) (board (rookFacing Knight)) (0, 3).
Proof.
  split; [vm_compute; reflexivity|].
  refine (proj1 (evaluatePosition_after_move (heap (rookFacing Knight))
                   (board (rookFacing Knight)) (0, 7) (0, 3) 1%positive
                   _ _ _ _)).
  - vm_compute; reflexivity.
  - reflexivity.
  - reflexivity.
  - discriminate.
Defined.

(** ** The derived table *)

Lemma pushNew_elem (l : list Offset) (o o' : Offset) :
  o ∈ pushNew l o' ↔ o ∈ l ∨ o = o'.
Proof.
  split.
  - unfold pushNew. destruct (hasSquare o' l); [by left|].
    rewrite elem_of_app, list_elem_of_singleton. tauto.
  - intros [Hin| ->]; [by apply pushNew_keeps | apply pushNew_adds].
Qed.

Lemma foldl_pushNew_elem (os l : list Offset) (o : Offset) :
  o ∈ foldl pushNew l os ↔ o ∈ l ∨ o ∈ os.
Proof.
  revert l. induction os as [|o' os IH]; intros l; cbn [foldl].
  - split; [by left|]. intros [?|Hnil]; [done|]. by apply elem_of_nil in Hnil.
  - rewrite IH, pushNew_elem, elem_of_cons. tauto.
Qed.

Lemma pushNew_NoDup (l : list Offset) (o : Offset) :
  NoDup l → NoDup (pushNew l o).
Proof.
  intros Hnd. unfold pushNew. destruct (hasSquare o l) eqn:Hh; [done|].
  apply NoDup_app. split; [done|]. split; [|apply NoDup_singleton].
  intros x Hx Hx'. apply list_elem_of_singleton in Hx' as ->.
  apply hasSquare_elem in Hx. congruence.
Qed.

Lemma foldl_pushNew_NoDup (os l : list Offset) :
  NoDup l → NoDup (foldl pushNew l os).
Proof.
  revert l. induction os as [|o os IH]; intros l Hnd; cbn [foldl]; [done|].
  by apply IH, pushNew_NoDup.
Qed.

(** What one card adds to the entry of a piece type. *)
Lemma addCard_moves (tbl : gmap PieceType Custom) (e : string * Card)
    (pt : PieceType) (o : Offset) :
  (∃ cu, addCard tbl e !! pt = Some cu ∧ o ∈ cmoves cu) ↔
  (∃ cu, tbl !! pt = Some cu ∧ o ∈ cmoves cu)
  ∨ (enabled e.2 ≠ Some false ∧ pieceType e.2 = pt ∧ o ∈ moves e.2).
Proof.
  unfold addCard. destruct (bool_decide (enabled e.2 = Some false)) eqn:Hen.
  { apply bool_decide_eq_true in Hen. split; [by left|].
    intros [?|(Hne & _)]; done. }
  apply bool_decide_eq_false in Hen.
  destruct (decide (pieceType e.2 = pt)) as [<- |Hne].
  - rewrite lookup_insert_eq. split.
    + intros (cu & Hcu & Ho). injection Hcu as <-. cbn [cmoves] in Ho.
      apply foldl_pushNew_elem in Ho as [Ho|Ho]; [|by right].
      destruct (tbl !! pieceType e.2) as [cu0|]; cbn [default cmoves] in Ho.
      * left. by exists cu0.
      * by apply elem_of_nil in Ho.
    + intros [(cu & Hcu & Ho)|(_ & _ & Ho)]; eexists; (split; [done|]);
        cbn [cmoves]; apply foldl_pushNew_elem; [left | by right].
      by rewrite Hcu.
  - rewrite lookup_insert_ne by done. split; [by left|].
    intros [?|(_ & Heq & _)]; done.
Qed.

Lemma addCard_attacks (tbl : gmap PieceType Custom) (e : string * Card)
    (pt : PieceType) (o : Offset) :
  (∃ cu, addCard tbl e !! pt = Some cu ∧ o ∈ cattacks cu) ↔
  (∃ cu, tbl !! pt = Some cu ∧ o ∈ cattacks cu)
  ∨ (enabled e.2 ≠ Some false ∧ pieceType e.2 = pt ∧ o ∈ attacks e.2).
Proof.
  unfold addCard. destruct (bool_decide (enabled e.2 = Some false)) eqn:Hen.
  { apply bool_decide_eq_true in Hen. split; [by left|].
    intros [?|(Hne & _)]; done. }
  apply bool_decide_eq_false in Hen.
  destruct (decide (pieceType e.2 = pt)) as [<- |Hne].
  - rewrite lookup_insert_eq. split.
    + intros (cu & Hcu & Ho). injection Hcu as <-. cbn [cattacks] in Ho.
      apply foldl_pushNew_elem in Ho as [Ho|Ho]; [|by right].
      destruct (tbl !! pieceType e.2) as [cu0|]; cbn [default cattacks] in Ho.
      * left. by exists cu0.
      * by apply elem_of_nil in Ho.
    + intros [(cu & Hcu & Ho)|(_ & _ & Ho)]; eexists; (split; [done|]);
        cbn [cattacks]; apply foldl_pushNew_elem; [left | by right].
      by rewrite Hcu.
  - rewrite lookup_insert_ne by done. split; [by left|].
    intros [?|(_ & Heq & _)]; done.
Qed.

Lemma foldl_addCard_moves (cards : list (string * Card))
    (pt : PieceType) (o : Offset) :
  ∀ tbl : gmap PieceType Custom,
    (∃ cu, foldl addCard tbl cards !! pt = Some cu ∧ o ∈ cmoves cu) ↔
    (∃ cu, tbl !! pt = Some cu ∧ o ∈ cmoves cu)
    ∨ ∃ e, e ∈ cards ∧ enabled e.2 ≠ Some false ∧ pieceType e.2 = pt
           ∧ o ∈ moves e.2.
Proof.
  induction cards as [|e cards IH]; intros tbl; cbn [foldl].
  { split; [by left|]. intros [?|(e & He & _)]; [done|].
    by apply elem_of_nil in He. }
  rewrite IH, addCard_moves. split.
  - intros [[?|Hnew]|(e' & He' & Hrest)].
    + by left.
    + right. exists e. split; [apply elem_of_cons; by left | done].
    + right. exists e'. split; [apply elem_of_cons; by right | done].
  - intros [?|(e' & He' & Hrest)]; [by left; left|].
    apply elem_of_cons in He' as [-> |He']; [by left; right|].
    right. by exists e'.
Qed.

Lemma foldl_addCard_attacks (cards : list (string * Card))
    (pt : PieceType) (o : Offset) :
  ∀ tbl : gmap PieceType Custom,
    (∃ cu, foldl addCard tbl cards !! pt = Some cu ∧ o ∈ cattacks cu) ↔
    (∃ cu, tbl !! pt = Some cu ∧ o ∈ cattacks cu)
    ∨ ∃ e, e ∈ cards ∧ enabled e.2 ≠ Some false ∧ pieceType e.2 = pt
           ∧ o ∈ attacks e.2.
Proof.
  induction cards as [|e cards IH]; intros tbl; cbn [foldl].
  { split; [by left|]. intros [?|(e & He & _)]; [done|].
    by apply elem_of_nil in He. }
  rewrite IH, addCard_attacks. split.
  - intros [[?|Hnew]|(e' & He' & Hrest)].
    + by left.
    + right. exists e. split; [apply elem_of_cons; by left | done].
    + right. exists e'. split; [apply elem_of_cons; by right | done].
  - intros [?|(e' & He' & Hrest)]; [by left; left|].
    apply elem_of_cons in He' as [-> |He']; [by left; right|].
    right. by exists e'.
Qed.

Lemma ofColor_derivedTable (cards : PerColor (list (string * Card)))
    (c : Color) :
  ofColor (derivedTable cards) c = rebuildColor (ofColor cards c).
Proof. by destruct c. Qed.

(** X2.  The table [rebuildCustomMoves] builds is the union of the cards that
    are not disabled: for every colour and piece type, an offset is among
    the custom moves exactly when some card of that colour and piece type
    whose [enabled] is not [false] lists it among its moves, and likewise
    for attacks.  A card's moves never become attacks or the reverse, and a
    card left with [enabled] undefined counts as enabled. *)
Theorem derivedTable_is_union (cards : PerColor (list (string * Card)))
    (c : Color) (pt : PieceType) (o : Offset) :
  ((∃ cu, ofColor (derivedTable cards) c !! pt = Some cu ∧ o ∈ cmoves cu) ↔
   ∃ name d, (name, d) ∈ ofColor cards c ∧ enabled d ≠ Some false
             ∧ pieceType d = pt ∧ o ∈ moves d)
  ∧ ((∃ cu, ofColor (derivedTable cards) c !! pt = Some cu
            ∧ o ∈ cattacks cu) ↔
     ∃ name d, (name, d) ∈ ofColor cards c ∧ enabled d ≠ Some false
               ∧ pieceType d = pt ∧ o ∈ attacks d).
Proof.
  rewrite ofColor_derivedTable. unfold rebuildColor. split.
  - rewrite foldl_addCard_moves. split.
    + intros [(cu & Hcu & _)|([n d] & He & Hrest)]; [done|]. by exists n, d.
    + intros (n & d & He & Hrest). right. by exists (n, d).
  - rewrite foldl_addCard_attacks. split.
    + intros [(cu & Hcu & _)|([n d] & He & Hrest)]; [done|]. by exists n, d.
    + intros (n & d & He & Hrest). right. by exists (n, d).
Qed.

(** ** Lists without duplicates *)

Lemma pushed_entry_NoDup (tbl : gmap PieceType Custom) (pt : PieceType)
    (ms ats : list Offset) :
  (∀ pt' cu, tbl !! pt' = Some cu → NoDup (cmoves cu) ∧ NoDup (cattacks cu)) →
  ∀ pt' cu,
    <[pt := mkCustom
              (foldl pushNew
                 (cmoves (default (mkCustom [] []) (tbl !! pt))) ms)
              (foldl pushNew
                 (cattacks (default (mkCustom [] []) (tbl !! pt))) ats)]> tbl
      !! pt' = Some cu →
    NoDup (cmoves cu) ∧ NoDup (cattacks cu).
Proof.
  intros Htbl pt' cu.
  destruct (decide (pt = pt')) as [<- |Hne].
  - rewrite lookup_insert_eq. intros [= <-]. cbn [cmoves cattacks].
    destruct (tbl !! pt) as [cu0|] eqn:Hcu0; cbn [default cmoves cattacks].
    + destruct (Htbl pt cu0 Hcu0) as [Hm Ha].
      split; by apply foldl_pushNew_NoDup.
    + split; apply foldl_pushNew_NoDup; apply NoDup_nil_2.
  - rewrite lookup_insert_ne by done. apply Htbl.
Qed.

Lemma rebuildColor_NoDup (cards : list (string * Card)) :
  ∀ pt cu, rebuildColor cards !! pt = Some cu →
           NoDup (cmoves cu) ∧ NoDup (cattacks cu).
Proof.
  unfold rebuildColor.
  assert (Hgen : ∀ tbl : gmap PieceType Custom,
    (∀ pt cu, tbl !! pt = Some cu → NoDup (cmoves cu) ∧ NoDup (cattacks cu)) →
    ∀ pt cu, foldl addCard tbl cards !! pt = Some cu →
             NoDup (cmoves cu) ∧ NoDup (cattacks cu)).
  { induction cards as [|e cards IH]; intros tbl Htbl; cbn [foldl]; [done|].
    apply IH. unfold addCard.
    destruct (bool_decide (enabled e.2 = Some false)); [done|].
    by apply pushed_entry_NoDup. }
  apply Hgen. intros pt cu Hcu. by rewrite lookup_empty in Hcu.
Qed.

Lemma derivedTable_NoDup (cards : PerColor (list (string * Card))) :
  tableNoDup (derivedTable cards).
Proof.
  intros c pt cu. rewrite ofColor_derivedTable. apply rebuildColor_NoDup.
Qed.

Lemma filter_sublist (f : Offset → bool) (l : list Offset) :
  List.filter f l `sublist_of` l.
Proof.
  induction l as [|o l IH]; cbn [List.filter]; [done|].
  destruct (f o); [by apply sublist_skip | by apply sublist_cons].
Qed.

Lemma removeOffsets_sublist (rm l : list Offset) :
  removeOffsets rm l `sublist_of` l.
Proof.
  unfold removeOffsets. revert l.
  induction rm as [|o rm IH]; intros l; cbn [foldl]; [done|].
  etrans; [apply IH | apply filter_sublist].
Qed.

Lemma removeOffsets_elem (rm l : list Offset) (o : Offset) :
  o ∈ removeOffsets rm l ↔ o ∈ l ∧ o ∉ rm.
Proof.
  split.
  - intros Hin. split; [by eapply removeOffsets_subset|].
    intros Hrm. by eapply removeOffsets_removes.
  - unfold removeOffsets. revert l.
    induction rm as [|o' rm IH]; intros l [Hl Hrm]; cbn [foldl]; [done|].
    apply not_elem_of_cons in Hrm as [Hne Hrm].
    apply IH. split; [|done].
    apply list_elem_of_In, filter_In. split; [by apply list_elem_of_In|].
    apply negb_true_iff, andb_false_iff.
    destruct (Z.eqb_spec o.1 o'.1) as [H1|H1]; [|by left].
    destruct (Z.eqb_spec o.2 o'.2) as [H2|H2]; [|by right].
    destruct o, o'; simpl in *; congruence.
Qed.

Lemma ofColor_setColor_other {A} (c : Color) (v : A) (p : PerColor A) :
  ofColor (setColor c v p) (otherColor c) = ofColor p (otherColor c).
Proof. by destruct c. Qed.

Lemma setColor_NoDup (c : Color) (tbl : gmap PieceType Custom)
    (t : CustomMoveTable) :
  tableNoDup t →
  (∀ pt cu, tbl !! pt = Some cu → NoDup (cmoves cu) ∧ NoDup (cattacks cu)) →
  tableNoDup (setColor c tbl t).
Proof.
  intros Ht Htbl c' pt cu.
  destruct (decide (c' = c)) as [-> |Hne].
  - rewrite ofColor_setColor. apply Htbl.
  - assert (c' = otherColor c) as -> by (by destruct c, c').
    rewrite ofColor_setColor_other. apply Ht.
Qed.

Lemma subtractCard_NoDup (c : Color) (name : string) (r : Registry) :
  tableNoDup (customMoves r) → tableNoDup (subtractCard c name r).
Proof.
  intros Ht. unfold subtractCard.
  destruct (lookupCard name _) as [card|]; [|done].
  destruct (ofColor (customMoves r) c !! pieceType card) as [cu0|] eqn:Hcu0;
    [|done].
  apply setColor_NoDup; [done|]. intros pt cu.
  destruct (decide (pieceType card = pt)) as [<- |Hne].
  - rewrite lookup_insert_eq. intros [= <-]. cbn [cmoves cattacks].
    destruct (Ht c _ _ Hcu0) as [Hm Ha].
    split; [exact (sublist_NoDup _ _ Hm (removeOffsets_sublist _ _)) |
           exact (sublist_NoDup _ _ Ha (removeOffsets_sublist _ _))].
  - rewrite lookup_insert_ne by done. apply Ht.
Qed.

(** X3.  No card operation puts an offset twice into a list of the table:
    [rebuildCustomMoves] builds lists without duplicates from any cards,
    and [toggleCard], [deleteCard] and [saveCard] keep the lists free of
    duplicates when they were, whatever the name, the card and the
    connection state, and even when the saved lists repeat an offset. *)
Theorem card_operations_keep_lists_duplicate_free (c : Color)
    (name : string) (pt : PieceType) (ms ats : list Offset) (r : Registry) :
  tableNoDup (customMoves (rebuildCustomMoves r))
  ∧ (tableNoDup (customMoves r) →
     tableNoDup (customMoves (toggleCard c name r))
     ∧ tableNoDup (customMoves (deleteCard c name r))
     ∧ tableNoDup (customMoves (saveCard c name pt ms ats r).1)).
Proof.
  split; [apply derivedTable_NoDup|]. intros Ht. split; [|split].
  - unfold toggleCard. destruct (lookupCard name _) as [card|]; [|done].
    destruct (online r); [done|]. apply derivedTable_NoDup.
  - unfold deleteCard.
    destruct (online r); cbn [customMoves]; by apply subtractCard_NoDup.
  - unfold saveCard. destruct (String.eqb name ""); [done|].
    cbn [fst customMoves]. apply setColor_NoDup; [done|].
    apply pushed_entry_NoDup. apply Ht.
Qed.

Lemma card_operations_duplicate_free_witness :
  tableNoDup (customMoves sharedRegistry)
  ∧ tableNoDup (customMoves (saveCard White "C" Rook [(1, 1); (1, 1)] []
                               sharedRegistry).1).
Proof.
  assert (H : tableNoDup (customMoves sharedRegistry))
    by apply derivedTable_NoDup.
  split; [exact H|].
  exact (proj2 (proj2 (proj2
    (card_operations_keep_lists_duplicate_free
       White "C" Rook [(1, 1); (1, 1)] [] sharedRegistry) H))).
Defined.

(** ** Deleting a card *)

(** X4.  [deleteCard] of a card whose piece type has a table entry removes from
    that entry exactly the offsets the card lists, moves from moves and
    attacks from attacks, and keeps the others in their order; the entries
    of the other piece types and the other colour's table stay as they
    were.  This holds in a local game and in an online one. *)
Theorem deleteCard_removes_exactly_card_offsets (c : Color) (name : string)
    (r : Registry) (card : Card) (cu : Custom) :
  lookupCard name (ofColor (abilityCards r) c) = Some card →
  ofColor (customMoves r) c !! pieceType card = Some cu →
  (∃ cu', ofColor (customMoves (deleteCard c name r)) c !! pieceType card
          = Some cu'
          ∧ (∀ o, o ∈ cmoves cu' ↔ o ∈ cmoves cu ∧ o ∉ moves card)
          ∧ (∀ o, o ∈ cattacks cu' ↔ o ∈ cattacks cu ∧ o ∉ attacks card)
          ∧ cmoves cu' `sublist_of` cmoves cu
          ∧ cattacks cu' `sublist_of` cattacks cu)
  ∧ (∀ pt, pt ≠ pieceType card →
           ofColor (customMoves (deleteCard c name r)) c !! pt
           = ofColor (customMoves r) c !! pt)
  ∧ ofColor (customMoves (deleteCard c name r)) (otherColor c)
    = ofColor (customMoves r) (otherColor c).
Proof.
  intros Hcard Hcu.
  assert (Hcm : customMoves (deleteCard c name r)
                = setColor c
                    (<[pieceType card :=
                         mkCustom (removeOffsets (moves card) (cmoves cu))
                                  (removeOffsets (attacks card) (cattacks cu))]>
                       (ofColor (customMoves r) c))
                    (customMoves r)).
  { unfold deleteCard, subtractCard. rewrite Hcard, Hcu.
    by destruct (online r). }
  rewrite Hcm. split; [|split].
  - rewrite ofColor_setColor, lookup_insert_eq. eexists. split; [done|].
    cbn [cmoves cattacks].
    split; [intros o; apply removeOffsets_elem|].
    split; [intros o; apply removeOffsets_elem|].
    split; apply removeOffsets_sublist.
  - intros pt Hne. by rewrite ofColor_setColor, lookup_insert_ne.
  - apply ofColor_setColor_other.
Qed.

Lemma deleteCard_removes_exactly_witness :
  ∃ cu', ofColor (customMoves (deleteCard White "A" sharedRegistry)) White
           !! Rook = Some cu'
         ∧ ∀ o, o ∈ cmoves cu' ↔ o ∈ [(1, 1); (2, 2)] ∧ o ∉ [(1, 1)].
Proof.
  destruct (deleteCard_removes_exactly_card_offsets White "A" sharedRegistry
              (mkCard Rook [(1, 1)] [] None)
              (mkCustom [(1, 1); (2, 2)] []) eq_refl eq_refl)
    as [(cu' & Hcu' & Hm & _) _].
  exists cu'. split; [exact Hcu' | exact Hm].
Defined.

(** ** Saving a card *)

Lemma foldl_pushNew_grows (os l : list Offset) :
  ∃ k, foldl pushNew l os = l ++ k ∧ ∀ o, o ∈ k → o ∈ os.
Proof.
  revert l. induction os as [|o' os IH]; intros l; cbn [foldl].
  - exists []. split; [by rewrite app_nil_r|]. intros o Ho.
    by apply elem_of_nil in Ho.
  - destruct (IH (pushNew l o')) as (k & -> & Hk). unfold pushNew.
    destruct (hasSquare o' l).
    + exists k. split; [done|]. intros o Ho. apply elem_of_cons. right. auto.
    + exists (o' :: k). split; [by rewrite <- app_assoc|].
      intros o [-> |Ho]%elem_of_cons; apply elem_of_cons; [by left|].
      right. auto.
Qed.

Lemma lookupCard_updateCard_ne (n name : string) (f : Card → Card)
    (cards : list (string * Card)) :
  n ≠ name → lookupCard n (updateCard name f cards) = lookupCard n cards.
Proof.
  intros Hne. unfold lookupCard.
  induction cards as [|e cards IH]; cbn [updateCard find]; [done|].
  destruct (bool_decide (e.1 = name)) eqn:He; cbn [find fst].
  - apply bool_decide_eq_true in He.
    rewrite !bool_decide_eq_false_2 by congruence. done.
  - destruct (bool_decide (e.1 = n)); [done|]. apply IH.
Qed.

Lemma lookupCard_cons (n : string) (e : string * Card)
    (cards : list (string * Card)) :
  lookupCard n (e :: cards)
  = if bool_decide (e.1 = n) then Some e.2 else lookupCard n cards.
Proof. unfold lookupCard. cbn [find]. by destruct (bool_decide (e.1 = n)). Qed.

Lemma lookupCard_snoc (n : string) (e : string * Card)
    (cards : list (string * Card)) :
  lookupCard n (cards ++ [e])
  = match lookupCard n cards with
    | Some d => Some d
    | None => if bool_decide (e.1 = n) then Some e.2 else None
    end.
Proof.
  induction cards as [|e0 cards IH].
  - cbn [app]. rewrite lookupCard_cons. by destruct (bool_decide (e.1 = n)).
  - cbn [app]. rewrite !lookupCard_cons.
    by destruct (bool_decide (e0.1 = n)).
Qed.

Lemma lookupCard_insertIndexKey_ne (n name : string) (k : N) (card : Card)
    (cards : list (string * Card)) :
  n ≠ name →
  lookupCard n (insertIndexKey k (name, card) cards) = lookupCard n cards.
Proof.
  intros Hne.
  assert (Hhead : ∀ l, lookupCard n ((name, card) :: l) = lookupCard n l).
  { intros l. rewrite lookupCard_cons. cbn [fst].
    by rewrite bool_decide_eq_false_2 by congruence. }
  induction cards as [|e0 cards IH]; cbn [insertIndexKey]; [apply Hhead|].
  destruct (arrayIndex e0.1) as [n0|]; [|apply Hhead].
  destruct (n0 <? k)%N; [|apply Hhead].
  rewrite !lookupCard_cons. by rewrite IH.
Qed.

Lemma lookupCard_insertIndexKey (name : string) (k : N) (card : Card)
    (cards : list (string * Card)) :
  arrayIndex name = Some k →
  lookupCard name (insertIndexKey k (name, card) cards) = Some card.
Proof.
  intros Hk.
  assert (Hhead : ∀ l, lookupCard name ((name, card) :: l) = Some card).
  { intros l. rewrite lookupCard_cons. cbn [fst snd].
    by rewrite bool_decide_eq_true_2. }
  induction cards as [|e0 cards IH]; cbn [insertIndexKey]; [apply Hhead|].
  destruct (arrayIndex e0.1) as [n0|] eqn:H0; [|apply Hhead].
  destruct (N.ltb_spec n0 k) as [Hlt|Hge]; [|apply Hhead].
  rewrite lookupCard_cons, bool_decide_eq_false_2; [done|].
  intros Heq. rewrite Heq, Hk in H0. injection H0 as <-. lia.
Qed.

Lemma lookupCard_assignCard (name : string) (card : Card)
    (cards : list (string * Card)) :
  name ≠ "__proto__" →
  lookupCard name (assignCard name card cards) = Some card.
Proof.
  intros Hproto. unfold assignCard.
  destruct (lookupCard name cards) as [d|] eqn:Hl.
  - by rewrite lookupCard_updateCard, Hl.
  - destruct (String.eqb_spec name "__proto__") as [?|_]; [done|].
    destruct (arrayIndex name) as [k|] eqn:Hk.
    + by apply lookupCard_insertIndexKey.
    + rewrite lookupCard_snoc, Hl. cbn [fst snd].
      by rewrite bool_decide_eq_true_2.
Qed.

Lemma lookupCard_assignCard_ne (n name : string) (card : Card)
    (cards : list (string * Card)) :
  n ≠ name → lookupCard n (assignCard name card cards) = lookupCard n cards.
Proof.
  intros Hne. unfold assignCard.
  destruct (lookupCard name cards) as [d|] eqn:Hl.
  - by apply lookupCard_updateCard_ne.
  - destruct (String.eqb name "__proto__"); [done|].
    destruct (arrayIndex name) as [k|].
    + by apply lookupCard_insertIndexKey_ne.
    + rewrite lookupCard_snoc. cbn [fst].
      rewrite bool_decide_eq_false_2 by congruence.
      by destruct (lookupCard n cards).
Qed.

Lemma saveCard_named (c : Color) (name : string) (pt : PieceType)
    (ms ats : list Offset) (r : Registry) :
  name ≠ "" →
  (saveCard c name pt ms ats r).1
  = mkRegistry
      (setColor c
         (<[pt := mkCustom
                    (foldl pushNew
                       (cmoves (default (mkCustom [] [])
                                        (ofColor (customMoves r) c !! pt))) ms)
                    (foldl pushNew
                       (cattacks (default (mkCustom [] [])
                                          (ofColor (customMoves r) c !! pt)))
                       ats)]>
            (ofColor (customMoves r) c))
         (customMoves r))
      (setColor c (assignCard name (mkCard pt ms ats None)
                              (ofColor (abilityCards r) c))
                (abilityCards r))
      (online r) (outbox r).
Proof.
  intros Hname. unfold saveCard.
  by destruct (String.eqb_spec name "") as [?|_].
Qed.

(** X5.  [saveCard] with a name that is neither empty nor [__proto__] stores
    the card under that name without an [enabled] property, leaves every
    other card of both colours as it was, and extends the entry of the
    card's piece type: the lists the entry had (empty lists if there was no
    entry) are prefixes of the new ones, and the new lists hold exactly
    the old offsets and the saved ones.  All other entries of the table
    stay as they were. *)
Theorem saveCard_stores_card_and_extends_entry (c : Color) (name : string)
    (pt : PieceType) (ms ats : list Offset) (r r' : Registry)
    (msg : option CardMessage) (old : Custom) :
  name ≠ "" →
  name ≠ "__proto__" →
  saveCard c name pt ms ats r = (r', msg) →
  old = default (mkCustom [] []) (ofColor (customMoves r) c !! pt) →
  lookupCard name (ofColor (abilityCards r') c) = Some (mkCard pt ms ats None)
  ∧ (∀ n, n ≠ name → lookupCard n (ofColor (abilityCards r') c)
                     = lookupCard n (ofColor (abilityCards r) c))
  ∧ ofColor (abilityCards r') (otherColor c)
    = ofColor (abilityCards r) (otherColor c)
  ∧ (∃ cu, ofColor (customMoves r') c !! pt = Some cu
           ∧ cmoves old `prefix_of` cmoves cu
           ∧ cattacks old `prefix_of` cattacks cu
           ∧ (∀ o, o ∈ cmoves cu ↔ o ∈ cmoves old ∨ o ∈ ms)
           ∧ (∀ o, o ∈ cattacks cu ↔ o ∈ cattacks old ∨ o ∈ ats))
  ∧ (∀ pt', pt' ≠ pt → ofColor (customMoves r') c !! pt'
                       = ofColor (customMoves r) c !! pt')
  ∧ ofColor (customMoves r') (otherColor c)
    = ofColor (customMoves r) (otherColor c).
Proof.
  intros Hname Hproto Hsave ->.
  assert (Hr' : r' = (saveCard c name pt ms ats r).1) by by rewrite Hsave.
  rewrite saveCard_named in Hr' by done. subst r'.
  cbn [abilityCards customMoves]. rewrite !ofColor_setColor.
  split; [by apply lookupCard_assignCard|].
  split; [intros n Hn; by apply lookupCard_assignCard_ne|].
  split; [apply ofColor_setColor_other|].
  split; [|split; [|apply ofColor_setColor_other]].
  - rewrite lookup_insert_eq. eexists. split; [done|]. cbn [cmoves cattacks].
    split; [|split; [|split]].
    + destruct (foldl_pushNew_grows ms
        (cmoves (default (mkCustom [] []) (ofColor (customMoves r) c !! pt))))
        as (k & -> & _). by exists k.
    + destruct (foldl_pushNew_grows ats
        (cattacks (default (mkCustom [] []) (ofColor (customMoves r) c !! pt))))
        as (k & -> & _). by exists k.
    + intros o. apply foldl_pushNew_elem.
    + intros o. apply foldl_pushNew_elem.
  - intros pt' Hne. by rewrite lookup_insert_ne.
Qed.

Lemma saveCard_stores_witness :
  lookupCard "C" (ofColor (abilityCards
    (saveCard White "C" Rook [(2, 2); (0, 3)] [(1, 0)] sharedRegistry).1)
    White)
  = Some (mkCard Rook [(2, 2); (0, 3)] [(1, 0)] None).
Proof.
  assert (H1 : "C" ≠ "") by discriminate.
  assert (H2 : "C" ≠ "__proto__") by discriminate.
  exact (proj1 (saveCard_stores_card_and_extends_entry White "C" Rook
                  [(2, 2); (0, 3)] [(1, 0)] sharedRegistry _ _ _
                  H1 H2 eq_refl eq_refl)).
Defined.

Lemma rebuildColor_snoc (cards : list (string * Card)) (e : string * Card) :
  rebuildColor (cards ++ [e]) = addCard (rebuildColor cards) e.
Proof. unfold rebuildColor. by rewrite foldl_app. Qed.

(** X6.  Saving a card under a name that is new, not an array index and not
    [__proto__] keeps the table in step with the cards: if the table was
    the one [rebuildCustomMoves] derives from the cards before the call, it
    is the one it derives from the cards after it. *)
Theorem saveCard_new_name_keeps_table_derived (c : Color) (name : string)
    (pt : PieceType) (ms ats : list Offset) (r : Registry) :
  name ≠ "" →
  name ≠ "__proto__" →
  arrayIndex name = None →
  lookupCard name (ofColor (abilityCards r) c) = None →
  customMoves r = derivedTable (abilityCards r) →
  customMoves (saveCard c name pt ms ats r).1
  = derivedTable (abilityCards (saveCard c name pt ms ats r).1).
Proof.
  intros Hname Hproto Hidx Hnew Hder.
  rewrite saveCard_named by done. cbn [customMoves abilityCards].
  unfold assignCard. rewrite Hnew, Hidx.
  destruct (String.eqb_spec name "__proto__") as [?|_]; [done|].
  rewrite Hder.
  assert (Hc : ofColor (derivedTable (abilityCards r)) c
               = rebuildColor (ofColor (abilityCards r) c))
    by apply ofColor_derivedTable.
  rewrite Hc.
  destruct c; unfold derivedTable; cbn [setColor ofColor white black];
    rewrite rebuildColor_snoc; unfold addCard; cbn [snd enabled pieceType
      moves attacks]; by rewrite bool_decide_eq_false_2.
Qed.

Lemma saveCard_new_name_witness :
  customMoves (saveCard White "C" Rook [(2, 2); (0, 3)] [(1, 0)]
                 sharedRegistry).1
  = derivedTable (abilityCards
      (saveCard White "C" Rook [(2, 2); (0, 3)] [(1, 0)] sharedRegistry).1).
Proof.
  assert (H1 : "C" ≠ "") by discriminate.
  assert (H2 : "C" ≠ "__proto__") by discriminate.
  exact (saveCard_new_name_keeps_table_derived White "C" Rook
           [(2, 2); (0, 3)] [(1, 0)] sharedRegistry H1 H2
           eq_refl eq_refl eq_refl).
Defined.

Lemma removeOffsets_app (rm l k : list Offset) :
  removeOffsets rm (l ++ k) = removeOffsets rm l ++ removeOffsets rm k.
Proof.
  unfold removeOffsets. revert l k.
  induction rm as [|o rm IH]; intros l k; cbn [foldl]; [done|].
  by rewrite List.filter_app, IH.
Qed.

Lemma removeOffsets_disjoint (rm l : list Offset) :
  (∀ o, o ∈ rm → o ∉ l) → removeOffsets rm l = l.
Proof.
  unfold removeOffsets. revert l.
  induction rm as [|o rm IH]; intros l Hdis; cbn [foldl]; [done|].
  assert (Hid : List.filter (λ m : Offset,
                  negb ((m.1 =? o.1) && (m.2 =? o.2))) l = l).
  { assert (Ho : o ∉ l) by (apply Hdis, elem_of_cons; by left).
    clear -Ho. induction l as [|m l IHl]; cbn [List.filter]; [done|].
    apply not_elem_of_cons in Ho as [Hne Ho].
    destruct (Z.eqb_spec m.1 o.1) as [H1|H1];
      destruct (Z.eqb_spec m.2 o.2) as [H2|H2]; cbn [andb negb];
      try (by rewrite IHl).
    destruct m, o; simpl in *; congruence. }
  rewrite Hid. apply IH. intros o' Ho'. apply Hdis, elem_of_cons. by right.
Qed.

Lemma removeOffsets_all (rm k : list Offset) :
  (∀ o, o ∈ k → o ∈ rm) → removeOffsets rm k = [].
Proof.
  intros Hall. destruct (removeOffsets rm k) as [|x rest] eqn:Hk; [done|].
  assert (Hx : x ∈ removeOffsets rm k)
    by (rewrite Hk; apply elem_of_cons; by left).
  apply removeOffsets_elem in Hx as [Hin Hout]. by apply Hall in Hin.
Qed.

Lemma removeOffsets_pushed (ms l : list Offset) :
  (∀ o, o ∈ ms → o ∉ l) → removeOffsets ms (foldl pushNew l ms) = l.
Proof.
  intros Hdis. destruct (foldl_pushNew_grows ms l) as (k & -> & Hk).
  rewrite removeOffsets_app, removeOffsets_disjoint, removeOffsets_all by done.
  apply app_nil_r.
Qed.

(** X7.  Deleting a card right after saving it undoes the change to the table
    when the card brought only new offsets: if none of the saved moves and
    attacks was in the entry of the piece type before, [deleteCard] after
    [saveCard] gives that entry its earlier lists back, in their order
    (an entry with two empty lists where there was none), and the rest of
    the table is as before the card was saved. *)
Theorem deleteCard_undoes_saveCard (c : Color) (name : string)
    (pt : PieceType) (ms ats : list Offset) (r : Registry) (old : Custom) :
  name ≠ "" →
  name ≠ "__proto__" →
  old = default (mkCustom [] []) (ofColor (customMoves r) c !! pt) →
  (∀ o, o ∈ ms → o ∉ cmoves old) →
  (∀ o, o ∈ ats → o ∉ cattacks old) →
  ofColor (customMoves (deleteCard c name (saveCard c name pt ms ats r).1)) c
    !! pt = Some old
  ∧ (∀ pt', pt' ≠ pt →
       ofColor (customMoves
                  (deleteCard c name (saveCard c name pt ms ats r).1)) c !! pt'
       = ofColor (customMoves r) c !! pt')
  ∧ ofColor (customMoves (deleteCard c name (saveCard c name pt ms ats r).1))
            (otherColor c)
    = ofColor (customMoves r) (otherColor c).
Proof.
  intros Hname Hproto Hold Hms Hats.
  rewrite saveCard_named by done.
  assert (Hcm : ∀ r1 : Registry,
            customMoves (deleteCard c name r1) = subtractCard c name r1).
  { intros r1. unfold deleteCard. by destruct (online r1). }
  rewrite Hcm. unfold subtractCard. cbn [abilityCards customMoves].
  rewrite !ofColor_setColor, lookupCard_assignCard by done.
  cbn [pieceType moves attacks]. rewrite lookup_insert_eq.
  cbn [cmoves cattacks]. rewrite <- Hold.
  rewrite !removeOffsets_pushed by done.
  rewrite setColor_setColor.
  split; [|split].
  - rewrite ofColor_setColor, lookup_insert_eq. by destruct old.
  - intros pt' Hne. by rewrite ofColor_setColor, !lookup_insert_ne.
  - apply ofColor_setColor_other.
Qed.

Lemma deleteCard_undoes_saveCard_witness :
  ofColor (customMoves (deleteCard White "C"
             (saveCard White "C" Rook [(0, 3)] [(1, 0)] sharedRegistry).1))
          White !! Rook
  = Some (mkCustom [(1, 1); (2, 2)] []).
Proof.
  assert (H1 : "C" ≠ "") by discriminate.
  assert (H2 : "C" ≠ "__proto__") by discriminate.
  assert (H3 : ∀ o : Offset, o ∈ [(0, 3)] →
                 o ∉ cmoves (mkCustom [(1, 1); (2, 2)] [])).
  { intros o ->%list_elem_of_singleton Hin. cbn [cmoves] in Hin.
    apply elem_of_cons in Hin as [Hin|Hin]; [discriminate|].
    apply list_elem_of_singleton in Hin. discriminate. }
  assert (H4 : ∀ o : Offset, o ∈ [(1, 0)] →
                 o ∉ cattacks (mkCustom [(1, 1); (2, 2)] [])).
  { intros o _ Hin. cbn [cattacks] in Hin. by apply elem_of_nil in Hin. }
  exact (proj1 (deleteCard_undoes_saveCard White "C" Rook [(0, 3)] [(1, 0)]
                  sharedRegistry (mkCustom [(1, 1); (2, 2)] [])
                  H1 H2 eq_refl H3 H4)).
Defined.

(** ** The move board *)

Lemma pushNew_boardOffsets (l : list Offset) (o : Offset) :
  boardOffsets l → -4 ≤ o.1 ≤ 3 → -4 ≤ o.2 ≤ 3 → o ≠ (0, 0) →
  boardOffsets (pushNew l o).
Proof.
  intros [Hnd Hall] H1 H2 H0. split; [by apply pushNew_NoDup|].
  intros o' [Hin| ->]%pushNew_elem; [by apply Hall | done].
Qed.

Lemma handleMbClick_boardOffsets (x y : Z) (isAttack : bool)
    (added : list Offset * list Offset) :
  boardOffsets added.1 → boardOffsets added.2 →
  boardOffsets (handleMbClick x y isAttack added).1
  ∧ boardOffsets (handleMbClick x y isAttack added).2.
Proof.
  intros Hm Ha. unfold handleMbClick.
  destruct (Z.ltb_spec x 0); cbn [orb]; [done|].
  destruct (Z.gtb_spec x 7); cbn [orb]; [done|].
  destruct (Z.ltb_spec y 0); cbn [orb]; [done|].
  destruct (Z.gtb_spec y 7); cbn [orb]; [done|].
  destruct (Z.eqb_spec (x - 4) 0) as [Hx|Hx]; cbn [andb].
  - destruct (Z.eqb_spec (y - 4) 0) as [Hy|Hy]; [done|].
    destruct isAttack; cbn [fst snd]; (split; [try done|try done]);
      apply pushNew_boardOffsets; cbn [fst snd]; try done; try lia;
      intros [= ? ?]; lia.
  - destruct isAttack; cbn [fst snd]; (split; [try done|try done]);
      apply pushNew_boardOffsets; cbn [fst snd]; try done; try lia;
      intros [= ? ?]; lia.
Qed.

(** X8.  Whatever cells are clicked on the move board, inside or outside it,
    with either button, the lists of added moves and added attacks never
    hold an offset twice, never hold the null offset (the piece's own
    cell), and hold only offsets from four cells left or up to three cells
    right or down, provided they started so; the empty lists that
    [startCardCreation], [mbPrevPiece], [mbNextPiece] and [mbToggleColor]
    set do. *)
Theorem move_board_offsets_stay_valid (cs : list (Square * bool))
    (added : list Offset * list Offset) :
  boardOffsets added.1 → boardOffsets added.2 →
  boardOffsets (mbClicks cs added).1 ∧ boardOffsets (mbClicks cs added).2.
Proof.
  unfold mbClicks. revert added.
  induction cs as [|cl cs IH]; intros added Hm Ha; cbn [foldl]; [done|].
  destruct (handleMbClick_boardOffsets cl.1.1 cl.1.2 cl.2 added Hm Ha)
    as [Hm' Ha'].
  by apply IH.
Qed.

Lemma move_board_offsets_witness :
  boardOffsets (mbClicks [((5, 4), false); ((5, 4), false); ((4, 4), true);
                          ((8, 0), false); ((0, 7), true)] ([], [])).1
  ∧ boardOffsets (mbClicks [((5, 4), false); ((5, 4), false); ((4, 4), true);
                            ((8, 0), false); ((0, 7), true)] ([], [])).2.
Proof.
  assert (H : boardOffsets []).
  { split; [apply NoDup_nil_2|]. intros o Ho. by apply elem_of_nil in Ho. }
  exact (move_board_offsets_stay_valid
           [((5, 4), false); ((5, 4), false); ((4, 4), true);
            ((8, 0), false); ((0, 7), true)] ([], []) H H).
Defined.

(** ** Reconnecting *)

Lemma socketEvent_constants (s : Connection) (e : SocketEvent) :
  baseReconnectDelay (socketEvent s e) = baseReconnectDelay s
  ∧ maxReconnectAttempts (socketEvent s e) = maxReconnectAttempts s.
Proof.
  destruct e; cbn [socketEvent]; try done.
  unfold onclose. by destruct (_ && _).
Qed.

Lemma socketEvent_invariant (s : Connection) (e : SocketEvent) (k : nat) :
  (if isReconnecting s
   then reconnectAttempts s = 1 ∧ (length (scheduled s) ≤ S k)%nat
   else reconnectAttempts s = 0 ∧ (length (scheduled s) ≤ k)%nat) →
  (∀ d, d ∈ scheduled s → d = Z.min (baseReconnectDelay s) 30000) →
  (if isReconnecting (socketEvent s e)
   then reconnectAttempts (socketEvent s e) = 1
        ∧ (length (scheduled (socketEvent s e)) ≤ S (k + opens [e]))%nat
   else reconnectAttempts (socketEvent s e) = 0
        ∧ (length (scheduled (socketEvent s e)) ≤ k + opens [e])%nat)
  ∧ (∀ d, d ∈ scheduled (socketEvent s e) →
          d = Z.min (baseReconnectDelay (socketEvent s e)) 30000).
Proof.
  intros Hst Hd. destruct e; cbn [socketEvent].
  - unfold onopen, opens.
    cbn [isReconnecting reconnectAttempts scheduled baseReconnectDelay
         List.filter length].
    split; [|done]. split; [done|].
    destruct (isReconnecting s); lia.
  - unfold onclose. destruct (isReconnecting s) eqn:Hre; cbn [negb andb].
    + rewrite Hre. split; [|done]. unfold opens. cbn [List.filter length]. lia.
    + destruct Hst as [Hn Hlen].
      destruct (Z.ltb_spec (reconnectAttempts s) (maxReconnectAttempts s)).
      * unfold attemptReconnect.
        cbn [isReconnecting reconnectAttempts scheduled baseReconnectDelay].
        rewrite Hn. split.
        -- split; [done|]. rewrite length_app. cbn [length]. lia.
        -- intros d [Hin| ->%list_elem_of_singleton]%elem_of_app; [auto|].
           change (0 + 1 - 1) with 0. by rewrite Z.pow_0_r, Z.mul_1_r.
      * rewrite Hre. split; [|done]. unfold opens. cbn [List.filter length].
        lia.
  - split; [|done]. unfold opens. cbn [List.filter length].
    destruct (isReconnecting s); lia.
  - split; [|done]. unfold opens. cbn [List.filter length].
    destruct (isReconnecting s); lia.
Qed.

Lemma socketEvents_invariant (evs : list SocketEvent) :
  ∀ (s : Connection) (k : nat),
    (if isReconnecting s
     then reconnectAttempts s = 1 ∧ (length (scheduled s) ≤ S k)%nat
     else reconnectAttempts s = 0 ∧ (length (scheduled s) ≤ k)%nat) →
    (∀ d, d ∈ scheduled s → d = Z.min (baseReconnectDelay s) 30000) →
    (if isReconnecting (foldl socketEvent s evs)
     then reconnectAttempts (foldl socketEvent s evs) = 1
          ∧ (length (scheduled (foldl socketEvent s evs))
             ≤ S (k + opens evs))%nat
     else reconnectAttempts (foldl socketEvent s evs) = 0
          ∧ (length (scheduled (foldl socketEvent s evs))
             ≤ k + opens evs)%nat)
    ∧ (∀ d, d ∈ scheduled (foldl socketEvent s evs) →
            d = Z.min (baseReconnectDelay s) 30000).
Proof.
  induction evs as [|e evs IH]; intros s k Hst Hd; cbn [foldl].
  - unfold opens. cbn [List.filter length]. rewrite Nat.add_0_r. done.
  - destruct (socketEvent_invariant s e k Hst Hd) as [Hst' Hd'].
    destruct (IH (socketEvent s e) (k + opens [e])%nat Hst' Hd')
      as [Hst'' Hd''].
    destruct (socketEvent_constants s e) as [Hbase _].
    rewrite Hbase in Hd''.
    assert (Hop : (k + opens [e] + opens evs = k + opens (e :: evs))%nat).
    { unfold opens. cbn [List.filter]. destruct e; cbn [length]; lia. }
    rewrite Hop in Hst''. done.
Qed.

(** X1.  The reconnect delay never grows.  From a connection that is not
    reconnecting, whatever sockets open, close or fail and whatever timers
    run out afterwards, [reconnectAttempts] never exceeds 1, every delay
    handed to [setTimeout] is [min(baseReconnectDelay, 30000)], and at
    most one reconnect is scheduled per opened socket plus one: once a
    reconnect has been scheduled, [isReconnecting] stays set until a
    socket opens, and [onclose] schedules no other. *)
Theorem reconnect_delay_never_grows (s0 : Connection)
    (evs : list SocketEvent) :
  reconnectAttempts s0 = 0 →
  isReconnecting s0 = false →
  scheduled s0 = [] →
  reconnectAttempts (foldl socketEvent s0 evs) ≤ 1
  ∧ (∀ d, d ∈ scheduled (foldl socketEvent s0 evs) →
          d = Z.min (baseReconnectDelay s0) 30000)
  ∧ (length (scheduled (foldl socketEvent s0 evs)) ≤ S (opens evs))%nat.
Proof.
  intros Hn Hre Hs.
  destruct (socketEvents_invariant evs s0 0) as [Hst Hd].
  { rewrite Hre, Hs. cbn [length]. split; [done | lia]. }
  { rewrite Hs. intros d Hin. by apply elem_of_nil in Hin. }
  split; [|split; [exact Hd|]].
  - destruct (isReconnecting (foldl socketEvent s0 evs)); lia.
  - destruct (isReconnecting (foldl socketEvent s0 evs)); lia.
Qed.

Lemma reconnect_delay_witness :
  scheduled (foldl socketEvent newConnection
               [Closed; TimerFired; Errored; Closed; Closed; TimerFired])
  = [1000]
  ∧ ∀ d, d ∈ scheduled (foldl socketEvent newConnection
                          [Closed; TimerFired; Errored; Closed; Closed;
                           TimerFired]) →
         d = Z.min (baseReconnectDelay newConnection) 30000.
Proof.
  split; [reflexivity|].
  exact (proj1 (proj2 (reconnect_delay_never_grows newConnection
           [Closed; TimerFired; Errored; Closed; Closed; TimerFired]
           eq_refl eq_refl eq_refl))).
Defined.

(** ** The move board's preview *)

Section SameCells.
Variables (h h' : Heap) (b b' : Board).
Hypothesis Hcells : ∀ x y, getCell h b x y = getCell h' b' x y.

Lemma addMove_cells (piece : Piece) (nx ny : Z)
    (acc : list Square * list Square) :
  addMove h b piece nx ny acc = addMove h' b' piece nx ny acc.
Proof. unfold addMove. by rewrite Hcells. Qed.

Lemma addAttack_cells (piece : Piece) (nx ny : Z)
    (acc : list Square * list Square) :
  addAttack h b piece nx ny acc = addAttack h' b' piece nx ny acc.
Proof. unfold addAttack. by rewrite Hcells. Qed.

Lemma slide_cells (piece : Piece) (x y dx dy : Z) (n : nat) :
  ∀ (i : Z) (acc : list Square * list Square),
    slide h b piece x y dx dy n i acc = slide h' b' piece x y dx dy n i acc.
Proof.
  induction n as [|n IH]; intros i acc; cbn [slide]; [done|].
  rewrite addMove_cells. destruct (addMove h' b' piece _ _ acc).1; [|done].
  apply IH.
Qed.

Lemma slideAll_cells (piece : Piece) (x y : Z) (dirs : list Offset) :
  ∀ acc : list Square * list Square,
    slideAll h b piece x y dirs acc = slideAll h' b' piece x y dirs acc.
Proof.
  unfold slideAll. induction dirs as [|d dirs IH]; intros acc; cbn [foldl];
    [done|].
  by rewrite slide_cells, IH.
Qed.

Lemma stepAll_cells (piece : Piece) (x y : Z) (offs : list Offset) :
  ∀ acc : list Square * list Square,
    stepAll h b piece x y offs acc = stepAll h' b' piece x y offs acc.
Proof.
  unfold stepAll. induction offs as [|d offs IH]; intros acc; cbn [foldl];
    [done|].
  by rewrite addMove_cells, IH.
Qed.

Lemma baseMoves_cells (piece : Piece) (x y : Z) :
  baseMoves h b piece x y = baseMoves h' b' piece x y.
Proof.
  unfold baseMoves. destruct (type piece).
  - unfold pawnPushes. rewrite !Hcells. cbn [foldl].
    by rewrite !addAttack_cells.
  - apply slideAll_cells.
  - apply stepAll_cells.
  - apply slideAll_cells.
  - apply slideAll_cells.
  - apply stepAll_cells.
Qed.

Lemma getPieceMoves_cells (x y : Z) :
  getPieceMoves h b x y = getPieceMoves h' b' x y.
Proof.
  unfold getPieceMoves. rewrite Hcells.
  destruct (getCell h' b' x y); [apply baseMoves_cells | done].
Qed.

End SameCells.

Lemma getCell_place_one (sq : Square) (piece : Piece) (x y : Z) :
  getCell (place [(sq, piece)]).1 (place [(sq, piece)]).2 x y
  = if bool_decide ((x, y) = sq) then Some piece else None.
Proof.
  unfold place, getCell. cbn [foldl fst snd].
  destruct (bool_decide_reflect ((x, y) = sq)) as [<- |Hne].
  - rewrite lookup_insert_eq. cbn [fmap option_fmap option_map].
    by rewrite lookup_total_insert_eq.
  - by rewrite lookup_insert_ne.
Qed.

Lemma sameSquares_elem (l1 l2 : list Square) :
  sameSquares l1 l2 = true → ∀ sq, sq ∈ l1 ↔ sq ∈ l2.
Proof.
  unfold sameSquares. intros [H1 H2]%andb_true_iff sq.
  rewrite forallb_forall in H1, H2. split; intros Hin.
  - apply hasSquare_elem, H1. by apply list_elem_of_In.
  - apply hasSquare_elem, H2. by apply list_elem_of_In.
Qed.

Lemma previewAgrees_true : previewAgrees = true.
Proof. vm_compute. reflexivity. Qed.

(** X9.  The preview of the move board agrees with the rule engine.  For a
    piece alone on the board, on any square, [getStandardMoves] lists
    exactly the squares [getPieceMoves] gives as moves, and
    [getPieceMoves] gives no attacks: for every piece but the pawn, and
    for a pawn of the preview colour that has not moved and stands on one
    of the four middle ranks. *)
Theorem preview_agrees_with_getPieceMoves (h : Heap) (b : Board)
    (mbColor : Color) (piece : Piece) (px py : Z) :
  onBoard px py = true →
  getCell h b px py = Some piece →
  (∀ x y, (x, y) ≠ (px, py) → getCell h b x y = None) →
  previewable mbColor piece py = true →
  (∀ sq, sq ∈ getStandardMoves mbColor (type piece) px py
         ↔ sq ∈ (getPieceMoves h b px py).1)
  ∧ (getPieceMoves h b px py).2 = [].
Proof.
  intros Hon Hpiece Hlone Hprev.
  assert (Hcells : ∀ x y, getCell h b x y
            = getCell (place [((px, py), piece)]).1
                      (place [((px, py), piece)]).2 x y).
  { intros x y. rewrite getCell_place_one.
    destruct (bool_decide_reflect ((x, y) = (px, py))) as [[= -> ->]|Hne];
      [done | by apply Hlone]. }
  rewrite (getPieceMoves_cells _ _ _ _ Hcells).
  pose proof previewAgrees_true as Hall. unfold previewAgrees in Hall.
  rewrite forallb_forall in Hall.
  specialize (Hall (px, py)
                (proj1 (list_elem_of_In _ _) (onBoard_allSquares _ _ Hon))).
  rewrite forallb_forall in Hall.
  assert (HmbIn : In mbColor [White; Black])
    by (destruct mbColor; cbn; tauto).
  specialize (Hall mbColor HmbIn).
  rewrite forallb_forall in Hall.
  assert (HpIn : In piece
            (c ← [White; Black];
             t ← [Pawn; Rook; Knight; Bishop; Queen; King];
             m ← [false; true]; [mkPiece c t m])).
  { destruct piece as [[] [] []]; cbn; tauto. }
  specialize (Hall piece HpIn). cbn [fst snd] in Hall.
  rewrite Hprev in Hall. cbn [negb orb] in Hall.
  apply andb_true_iff in Hall as [Hsame Hatt].
  split; [by apply sameSquares_elem | by apply bool_decide_eq_true in Hatt].
Qed.

Lemma preview_agrees_witness :
  (∀ sq, sq ∈ getStandardMoves White Queen 4 4
         ↔ sq ∈ (getPieceMoves
                   (place [((4, 4), mkPiece Black Queen true)]).1
                   (place [((4, 4), mkPiece Black Queen true)]).2 4 4).1)
  ∧ (getPieceMoves (place [((4, 4), mkPiece Black Queen true)]).1
                   (place [((4, 4), mkPiece Black Queen true)]).2 4 4).2 = [].
Proof.
  assert (Hlone : ∀ x y, (x, y) ≠ (4, 4) →
            getCell (place [((4, 4), mkPiece Black Queen true)]).1
                    (place [((4, 4), mkPiece Black Queen true)]).2 x y = None).
  { intros x y Hne. rewrite getCell_place_one.
    by rewrite bool_decide_eq_false_2. }
  exact (preview_agrees_with_getPieceMoves
           (place [((4, 4), mkPiece Black Queen true)]).1
           (place [((4, 4), mkPiece Black Queen true)]).2
           White (mkPiece Black Queen true) 4 4
           eq_refl eq_refl Hlone eq_refl).
Defined.
